(** * agent-skills-loader: a shallow embedding and its verification

    The package holds two loaders over the same helpers of [utils.ts]:
    - [index.ts], the one it publishes (compiled to [dist/index.js]), with
      [loadSkillsFromDir] as its walker: module [Index];
    - the full loader it was condensed from, with
      [loadSkillsFromDirInternal] as its walker, five name rules and a
      [try] around each input path; it is called [skills.ts] here: module
      [Skills].
    What the two share word for word is in module [Common]; [utils.ts] is
    module [Utils].  The statements are in Parts II and III, their
    vocabulary in module [Spec], the concrete hosts they are exercised on
    in module [Fixture].

    JavaScript strings are sequences of UTF-16 code units and are modelled
    as lists of [N].  Node's [fs], [path] and [process], the YAML parser
    and the [ignore] matcher are not part of the package: they enter as
    classes of operations, a call that may throw returning an [attempt].

    The embedding covers the calls in which values have their declared
    types and the limits of the engine are not met.  The frontmatter is
    read at its declared type [SkillFrontmatter]: a field of another
    type, which the cast of the parser's result lets through, is outside
    it.  So are a failure of [process.cwd()], also inside [resolve] for a
    working directory that is not absolute, and a [push] spread over
    more arguments than the engine takes.  What is stated about
    exceptions is stated for calls in which these cannot occur. *)

From Stdlib Require Import Ascii String DecimalString.
From stdpp Require Import base numbers list gmap.

(* ================================================================== *)
(** * Part I: definitions                                              *)
(* ================================================================== *)

(** ** JavaScript strings and the [String.prototype] methods in use *)

Module JsString.

Definition jsstring := list N.

(** Literals: an ASCII text as code units. *)
Fixpoint js (s : string) : jsstring :=
  match s with
  | EmptyString => []
  | String a s' => N_of_ascii a :: js s'
  end.
Arguments js s%_string : simpl never.

Definition LF : N := 10.
Definition CR : N := 13.

(** [s.startsWith(p)] *)
Fixpoint startsWith (s p : jsstring) {struct p} : bool :=
  match p, s with
  | [], _ => true
  | _ :: _, [] => false
  | c :: p', d :: s' => (c =? d)%N && startsWith s' p'
  end.

Arguments startsWith : simpl nomatch.

(** [s.endsWith(p)] *)
Definition endsWith (s p : jsstring) : bool :=
  startsWith (rev s) (rev p).

(** First offset at which [p] occurs in [s], scanning left to right. *)
Fixpoint search (s p : jsstring) : option nat :=
  if startsWith s p then Some 0%nat
  else match s with
       | [] => None
       | _ :: s' => S <$> search s' p
       end.

(** [s.includes(p)] *)
Definition includes (s p : jsstring) : bool :=
  match search s p with Some _ => true | None => false end.

(** [s.indexOf(p, from)]: the start position is clamped to [0, length];
    the answer is [-1] when there is no occurrence. *)
Definition indexOf (s p : jsstring) (from : Z) : Z :=
  let len := Z.of_nat (length s) in
  let start := Z.to_nat (Z.min (Z.max from 0) len) in
  match search (drop start s) p with
  | Some i => Z.of_nat (start + i)
  | None => (-1)%Z
  end.

(** Relative index resolution of [slice]: negative indices count from
    the end, everything is clamped to [0, length]. *)
Definition clampIndex (len i : Z) : Z :=
  if (i <? 0)%Z then Z.max (len + i) 0 else Z.min i len.

(** [s.slice(a, b)] *)
Definition slice (s : jsstring) (a b : Z) : jsstring :=
  let len := Z.of_nat (length s) in
  let from := clampIndex len a in
  let to := clampIndex len b in
  take (Z.to_nat (to - from)) (drop (Z.to_nat from) s).

(** [s.slice(a)] *)
Definition sliceFrom (s : jsstring) (a : Z) : jsstring :=
  slice s a (Z.of_nat (length s)).

(** ECMAScript [WhiteSpace] and [LineTerminator] code units, the ones
    [trim] removes. *)
Definition isWhiteSpace (c : N) : bool :=
  ((9 <=? c) && (c <=? 13) || (c =? 32) || (c =? 160) || (c =? 5760)
   || (8192 <=? c) && (c <=? 8202)
   || (c =? 8232) || (c =? 8233) || (c =? 8239) || (c =? 8287)
   || (c =? 12288) || (c =? 65279))%N.

Fixpoint trimStart (s : jsstring) : jsstring :=
  match s with
  | [] => []
  | c :: s' => if isWhiteSpace c then trimStart s' else s
  end.

Definition trimEnd (s : jsstring) : jsstring := rev (trimStart (rev s)).

(** [s.trim()] *)
Definition trim (s : jsstring) : jsstring := trimEnd (trimStart s).

(** [s.replace(/c/g, rep)] for a one-character pattern [c]. *)
Definition replaceChar (c : N) (rep s : jsstring) : jsstring :=
  flat_map (fun d => if (d =? c)%N then rep else [d]) s.

(** [s.replace(/\r\n/g, "\n")] *)
Fixpoint replaceCRLF (s : jsstring) : jsstring :=
  match s with
  | [] => []
  | c :: t =>
      match t with
      | d :: t' =>
          if (c =? CR)%N && (d =? LF)%N then LF :: replaceCRLF t'
          else c :: replaceCRLF t
      | [] => [c]
      end
  end.

(** [s.split(/\r?\n/)]: [cur] is the line read so far, reversed. *)
Fixpoint splitLinesFrom (cur : jsstring) (s : jsstring) : list jsstring :=
  match s with
  | [] => [rev cur]
  | c :: t =>
      if (c =? LF)%N then rev cur :: splitLinesFrom [] t
      else match t with
           | d :: t' =>
               if (c =? CR)%N && (d =? LF)%N
               then rev cur :: splitLinesFrom [] t'
               else splitLinesFrom (c :: cur) t
           | [] => [rev (c :: cur)]
           end
  end.

Definition splitLines (s : jsstring) : list jsstring := splitLinesFrom [] s.

(** [parts.join(sep)] *)
Fixpoint joinWith (sep : jsstring) (parts : list jsstring) : jsstring :=
  match parts with
  | [] => []
  | [p] => p
  | p :: rest => p ++ sep ++ joinWith sep rest
  end.

(** [s.split(sep).join(by)] for a one-character separator. *)
Definition splitJoin (sep : N) (by_ : jsstring) (s : jsstring) : jsstring :=
  replaceChar sep by_ s.

(** Template interpolation of a number: its decimal numeral. *)
Definition decimal (n : nat) : jsstring :=
  js (NilZero.string_of_uint (Nat.to_uint n)).

(** JavaScript truthiness of a string. *)
Definition truthy (s : jsstring) : bool :=
  match s with [] => false | _ => true end.

End JsString.
Import JsString.

(** ** types.ts *)

Module Skill.
Record t := mk {
  name : jsstring;
  description : jsstring;
  filePath : jsstring;
  baseDir : jsstring;
  source : jsstring;
  disableModelInvocation : bool;
}.
End Skill.

Module Collision.
Record t := mk {
  resourceType : jsstring;
  name : jsstring;
  winnerPath : jsstring;
  loserPath : jsstring;
}.
End Collision.

Module DiagnosticType.
Inductive t := warning | error | collision.
End DiagnosticType.

Module Diagnostic.
Record t := mk {
  type : DiagnosticType.t;
  message : jsstring;
  path : option jsstring;
  collision : option Collision.t;
}.
End Diagnostic.

Record LoadSkillsResult := {
  skills : list Skill.t;
  diagnostics : list Diagnostic.t;
}.

(** The recognised frontmatter fields, at their declared types; an absent
    field is [None].  The empty object is [noFrontmatter]. *)
Record SkillFrontmatter := {
  fm_name : option jsstring;
  fm_description : option jsstring;
  fm_disable_model_invocation : option bool;
}.

Definition noFrontmatter : SkillFrontmatter :=
  {| fm_name := None; fm_description := None;
     fm_disable_model_invocation := None |}.

Record LoadSkillsOptions := {
  cwd : option jsstring;
  skillPaths : option (list jsstring);
}.

(** ** The host: Node's [path], [fs] and [process], the YAML parser and
    the [ignore] matcher *)

(** A call that either returns or throws an [Error] with a message. *)
Inductive attempt (A : Type) :=
| Returns (a : A)
| Throws (message : jsstring).
Arguments Returns {A} a.
Arguments Throws {A} message.

Module Stats.
Record t := mk { isDirectory : bool; isFile : bool }.
End Stats.

Module Dirent.
Record t := mk {
  name : jsstring;
  isDirectory : bool;
  isFile : bool;
  isSymbolicLink : bool;
}.
End Dirent.

Class NodePath := {
  sep : N;      (* the one-character separator of the platform *)
  join : jsstring → jsstring → jsstring;
  relative : jsstring → jsstring → jsstring;
  dirname : jsstring → jsstring;
  basename : jsstring → jsstring;
  isAbsolute : jsstring → bool;
  resolve : jsstring → jsstring → jsstring;
}.

Class NodeFs := {
  existsSync : jsstring → bool;
  statSync : jsstring → attempt Stats.t;
  readdirSync : jsstring → attempt (list Dirent.t);
  readFileSync : jsstring → attempt jsstring;
  realpathSync : jsstring → attempt jsstring;
}.

Class NodeProcess := {
  process_cwd : jsstring;
}.

(** [parse] of the yaml package: it throws, or returns a nullish value
    ([None]), or a value read at type [SkillFrontmatter]. *)
Class Yaml := {
  parse : jsstring → attempt (option SkillFrontmatter);
}.

(** The [ignore] package.  A matcher object is the sequence of patterns
    [add]ed to it so far; [ignores] may throw on a path it rejects. *)
Definition Matcher := list jsstring.

Class Ignore := {
  ignores : Matcher → jsstring → attempt bool;
}.

(** ** utils.ts *)

Module Utils.

Definition normalizeNewlines (value : jsstring) : jsstring :=
  replaceChar CR [LF] (replaceCRLF value).

Definition extractFrontmatter (content : jsstring)
  : option jsstring * jsstring :=
  let normalized := normalizeNewlines content in
  if negb (startsWith normalized (js "---")) then (None, normalized)
  else
    let endIndex := indexOf normalized (LF :: js "---") 3 in
    if (endIndex =? -1)%Z then (None, normalized)
    else (Some (slice normalized 4 endIndex),
          trim (sliceFrom normalized (endIndex + 4))).

Definition parseFrontmatter `{Yaml} (content : jsstring)
  : SkillFrontmatter * jsstring :=
  let '(yamlString, body) := extractFrontmatter content in
  match yamlString with
  | None => (noFrontmatter, body)
  | Some y =>
      if negb (truthy y) then (noFrontmatter, body)
      else match parse y with
           | Returns (Some parsed) => (parsed, body)
           | Returns None => (noFrontmatter, body)
           | Throws _ => (noFrontmatter, body)
           end
  end.

Definition escapeXml (str : jsstring) : jsstring :=
  replaceChar 39 (js "&apos;")
    (replaceChar 34 (js "&quot;")
       (replaceChar 62 (js "&gt;")
          (replaceChar 60 (js "&lt;")
             (replaceChar 38 (js "&amp;") str)))).

Definition stripFrontmatter `{Yaml} (content : jsstring) : jsstring :=
  (parseFrontmatter content).2.

End Utils.

(** ** A JavaScript [Map] with string keys: insertion-ordered *)

Module JsMap.
Section WithValues.
Context {V : Type}.

Definition t := list (jsstring * V).

Fixpoint get (m : t) (k : jsstring) : option V :=
  match m with
  | [] => None
  | (k', v) :: m' => if bool_decide (k' = k) then Some v else get m' k
  end.

(** An existing key keeps its position, a new one goes last. *)
Fixpoint set (m : t) (k : jsstring) (v : V) : t :=
  match m with
  | [] => [(k, v)]
  | (k', v') :: m' =>
      if bool_decide (k' = k) then (k, v) :: m'
      else (k', v') :: set m' k v
  end.

Definition keys (m : t) : list jsstring := map fst m.
Definition values (m : t) : list V := map snd m.
End WithValues.
Arguments t V : clear implicits.
End JsMap.

(** ** Code shared verbatim by index.ts and skills.ts *)

Module Common.

Definition MAX_NAME_LENGTH : nat := 64.
Definition MAX_DESCRIPTION_LENGTH : nat := 1024.
Definition IGNORE_FILE_NAMES : list jsstring :=
  [js ".gitignore"; js ".ignore"; js ".fdignore"].

Definition quote : jsstring := [34%N].

Definition warn (message filePath : jsstring) : Diagnostic.t :=
  {| Diagnostic.type := DiagnosticType.warning;
     Diagnostic.message := message;
     Diagnostic.path := Some filePath;
     Diagnostic.collision := None |}.

(** [!description || description.trim() === ""] *)
Definition blank (description : option jsstring) : bool :=
  match description with
  | None => true
  | Some d => negb (truthy d) || bool_decide (trim d = [])
  end.

(** [!description] *)
Definition falsy (description : option jsstring) : bool :=
  match description with
  | None => true
  | Some d => negb (truthy d)
  end.

Definition prefixIgnorePattern (line prefix : jsstring) : option jsstring :=
  let trimmed := trim line in
  if negb (truthy trimmed) then None
  else if startsWith trimmed (js "#") && negb (startsWith trimmed (js "\#"))
  then None
  else
    let '(negated, pattern) :=
      if startsWith line (js "!") then (true, sliceFrom line 1)
      else if startsWith line (js "\!") then (false, sliceFrom line 1)
      else (false, line) in
    let pattern :=
      if startsWith pattern (js "/") then sliceFrom pattern 1 else pattern in
    let prefixed := if truthy prefix then prefix ++ pattern else pattern in
    Some (if negated then js "!" ++ prefixed else prefixed).

(** [.map(line => prefixIgnorePattern(line, prefix)).filter(Boolean)]:
    [null] and the empty string are dropped. *)
Definition prefixedPatterns (prefix : jsstring) (lines : list jsstring)
  : list jsstring :=
  omap (fun line =>
          match prefixIgnorePattern line prefix with
          | Some p => if truthy p then Some p else None
          | None => None
          end) lines.

(** The character class [[a-z0-9-]]. *)
Definition isNameChar (c : N) : bool :=
  ((97 <=? c) && (c <=? 122) || (48 <=? c) && (c <=? 57) || (c =? 45))%N.

(** [/^[a-z0-9-]+$/.test(name)] *)
Definition matchesNamePattern (name : jsstring) : bool :=
  truthy name && forallb isNameChar name.

(** [frontmatter.name || parentDirName] *)
Definition orElse (name : option jsstring) (fallback : jsstring) : jsstring :=
  match name with
  | Some n => if truthy n then n else fallback
  | None => fallback
  end.

Section WithHost.
Context `{NodePath, NodeFs}.

Definition toPosixPath (p : jsstring) : jsstring :=
  splitJoin sep (js "/") p.

Definition ignorePrefix (dir rootDir : jsstring) : jsstring :=
  let relativeDir := relative rootDir dir in
  if truthy relativeDir then toPosixPath relativeDir ++ js "/" else [].

(** One turn of the loop over [IGNORE_FILE_NAMES]. *)
Definition addIgnoreFile (dir prefix : jsstring) (ig : Matcher)
    (filename : jsstring) : Matcher :=
  let ignorePath := join dir filename in
  if negb (existsSync ignorePath) then ig
  else match readFileSync ignorePath with
       | Throws _ => ig
       | Returns content =>
           let patterns := prefixedPatterns prefix (splitLines content) in
           if (0 <? length patterns)%nat then ig ++ patterns else ig
       end.

(** The matcher is mutated in place by the code; here the new
    contents are returned. *)
Definition addIgnoreRules (ig : Matcher) (dir rootDir : jsstring)
  : Matcher :=
  let prefix := ignorePrefix dir rootDir in
  foldl (addIgnoreFile dir prefix) ig IGNORE_FILE_NAMES.

(** try { realPath = realpathSync(p) } catch { realPath = p } *)
Definition realPathOf (filePath : jsstring) : jsstring :=
  match realpathSync filePath with
  | Returns realPath => realPath
  | Throws _ => filePath
  end.
End WithHost.

(** The mutable locals of [loadSkills]. *)
Record LoaderState := {
  skillMap : JsMap.t Skill.t;
  realPathSet : gset jsstring;
  allDiagnostics : list Diagnostic.t;
  collisionDiagnostics : list Diagnostic.t;
}.

Definition initialState : LoaderState :=
  {| skillMap := []; realPathSet := ∅;
     allDiagnostics := []; collisionDiagnostics := [] |}.

Definition pushDiagnostics (ds : list Diagnostic.t) (st : LoaderState)
  : LoaderState :=
  {| skillMap := skillMap st; realPathSet := realPathSet st;
     allDiagnostics := allDiagnostics st ++ ds;
     collisionDiagnostics := collisionDiagnostics st |}.

Definition collisionDiagnostic (existing skill : Skill.t) : Diagnostic.t :=
  {| Diagnostic.type := DiagnosticType.collision;
     Diagnostic.message :=
       js "name " ++ quote ++ Skill.name skill ++ quote ++ js " collision";
     Diagnostic.path := Some (Skill.filePath skill);
     Diagnostic.collision :=
       Some {| Collision.resourceType := js "skill";
               Collision.name := Skill.name skill;
               Collision.winnerPath := Skill.filePath existing;
               Collision.loserPath := Skill.filePath skill |} |}.

Section AddSkills.
Context `{NodeFs}.

(** One turn of [for (const skill of result.skills)]. *)
Definition addSkill (st : LoaderState) (skill : Skill.t) : LoaderState :=
  let realPath := realPathOf (Skill.filePath skill) in
  if bool_decide (realPath ∈ realPathSet st) then st
  else
    match JsMap.get (skillMap st) (Skill.name skill) with
    | Some existing =>
        {| skillMap := skillMap st; realPathSet := realPathSet st;
           allDiagnostics := allDiagnostics st;
           collisionDiagnostics :=
             collisionDiagnostics st
               ++ [collisionDiagnostic existing skill] |}
    | None =>
        {| skillMap := JsMap.set (skillMap st) (Skill.name skill) skill;
           realPathSet := realPathSet st ∪ {[realPath]};
           allDiagnostics := allDiagnostics st;
           collisionDiagnostics := collisionDiagnostics st |}
    end.

Definition addSkills (result : LoadSkillsResult) (st : LoaderState)
  : LoaderState :=
  foldl addSkill (pushDiagnostics (diagnostics result) st)
    (skills result).
End AddSkills.

Definition finalResult (st : LoaderState) : LoadSkillsResult :=
  {| skills := JsMap.values (skillMap st);
     diagnostics := allDiagnostics st ++ collisionDiagnostics st |}.

(** The five lines of one [<skill>] element. *)
Definition skillLines (skill : Skill.t) : list jsstring :=
  [ js "  <skill>";
    js "    <name>" ++ Utils.escapeXml (Skill.name skill) ++ js "</name>";
    js "    <description>" ++ Utils.escapeXml (Skill.description skill)
      ++ js "</description>";
    js "    <location>" ++ Utils.escapeXml (Skill.filePath skill)
      ++ js "</location>";
    js "  </skill>" ].

Definition preamble : list jsstring :=
  [ [LF; LF] ++ js "The following skills provide specialized instructions for specific tasks.";
    js "Use the read tool to load a skill's file when the task matches its description.";
    js "When a skill file references a relative path, resolve it against the skill directory (parent of SKILL.md / dirname of the path) and use that absolute path in tool commands.";
    [];
    js "<available_skills>" ].

Definition formatSkillsForPrompt (skills : list Skill.t) : jsstring :=
  let visibleSkills :=
    List.filter (fun s => negb (Skill.disableModelInvocation s)) skills in
  if (length visibleSkills =? 0)%nat then []
  else
    let lines :=
      preamble ++ flat_map skillLines visibleSkills
        ++ [js "</available_skills>"] in
    joinWith [LF] lines.

(** *** The loader's control flow: state, exceptions, fuel *)

Inductive completion (A : Type) :=
| Value (a : A)
| Raised (message : jsstring)   (* an exception leaves the function *)
| OutOfFuel.                    (* the walk was cut short by the model *)
Arguments Value {A} a.
Arguments Raised {A} message.
Arguments OutOfFuel {A}.

(** A computation over the loader's locals; what it wrote before an
    exception stays written. *)
Definition M (A : Type) : Type := LoaderState → completion A * LoaderState.

#[export] Instance M_ret : MRet M := fun A a st => (Value a, st).

#[export] Instance M_bind : MBind M := fun A B k m st =>
  match m st with
  | (Value a, st') => k a st'
  | (Raised e, st') => (Raised e, st')
  | (OutOfFuel, st') => (OutOfFuel, st')
  end.

Definition modify (f : LoaderState → LoaderState) : M unit :=
  fun st => (Value tt, f st).

(** A host call: its exception, if any, propagates. *)
Definition call {A} (r : attempt A) : M A :=
  fun st =>
    match r with
    | Returns a => (Value a, st)
    | Throws e => (Raised e, st)
    end.

Definition fueled {A} (r : option A) : M A :=
  fun st =>
    match r with
    | Some a => (Value a, st)
    | None => (OutOfFuel, st)
    end.

(** try { body } catch (error) { handler(error.message) } *)
Definition tryCatch {A} (body : M A) (handler : jsstring → M A) : M A :=
  fun st =>
    match body st with
    | (Raised e, st') => handler e st'
    | other => other
    end.

(** for (const x of xs) { body(x) } *)
Fixpoint forEach {X} (xs : list X) (body : X → M unit) : M unit :=
  match xs with
  | [] => mret tt
  | x :: rest => body x ;; forEach rest body
  end.

(** *** The walker's result, with its ghost trace *)

(** What a walk did, in order: the activations of the walker with
    their arguments, the entries the matcher dropped, the files handed
    to the skill parser.  The code keeps no such record. *)
Inductive event :=
| Entered (dir : jsstring) (includeRootFiles : bool) (root : jsstring)
| Ignored (ignorePath : jsstring)
| Parsed (fullPath : jsstring).

Module Walk.
Record t := mk {
  skills : list Skill.t;
  diagnostics : list Diagnostic.t;
  ig : Matcher;            (* the shared matcher after the call *)
  trace : list event;      (* ghost *)
}.

Definition result (w : t) : LoadSkillsResult :=
  Build_LoadSkillsResult (skills w) (diagnostics w).

Definition log (e : event) (w : t) : t :=
  mk (skills w) (diagnostics w) (ig w) (trace w ++ [e]).

(** [skills.push(...sub.skills); diagnostics.push(...sub.diagnostics)]
    after a recursive call that worked on the same matcher. *)
Definition merge (w sub : t) : t :=
  mk (skills w ++ skills sub) (diagnostics w ++ diagnostics sub)
     (ig sub) (trace w ++ trace sub).

(** [if (res.skill) skills.push(res.skill);
     diagnostics.push(...res.diagnostics)] *)
Definition push (w : t) (res : option Skill.t * list Diagnostic.t) : t :=
  mk (skills w ++ match res.1 with Some s => [s] | None => [] end)
     (diagnostics w ++ res.2) (ig w) (trace w).
End Walk.

End Common.
Import Common.

(** ** skills.ts *)

Module Skills.

Definition validateName (name parentDirName : jsstring) : list jsstring :=
  (if negb (bool_decide (name = parentDirName))
   then [js "name " ++ quote ++ name ++ quote
           ++ js " does not match parent directory "
           ++ quote ++ parentDirName ++ quote]
   else [])
  ++ (if (MAX_NAME_LENGTH <? length name)%nat
      then [js "name exceeds " ++ decimal MAX_NAME_LENGTH
              ++ js " characters (" ++ decimal (length name) ++ js ")"]
      else [])
  ++ (if negb (matchesNamePattern name)
      then [js "name contains invalid characters (must be lowercase a-z, 0-9, hyphens only)"]
      else [])
  ++ (if startsWith name (js "-") || endsWith name (js "-")
      then [js "name must not start or end with a hyphen"]
      else [])
  ++ (if includes name (js "--")
      then [js "name must not contain consecutive hyphens"]
      else []).

Definition validateDescription (description : option jsstring)
  : list jsstring :=
  if blank description then [js "description is required"]
  else
    let d := default [] description in
    if (MAX_DESCRIPTION_LENGTH <? length d)%nat
    then [js "description exceeds " ++ decimal MAX_DESCRIPTION_LENGTH
            ++ js " characters (" ++ decimal (length d) ++ js ")"]
    else [].

Section WithHost.
Context `{NodePath, NodeFs, NodeProcess, Yaml, Ignore}.

Definition loadSkillFromFile (filePath source : jsstring)
  : option Skill.t * list Diagnostic.t :=
  match readFileSync filePath with
  | Throws message => (None, [warn message filePath])
  | Returns rawContent =>
      let frontmatter := (Utils.parseFrontmatter rawContent).1 in
      let skillDir := dirname filePath in
      let parentDirName := basename skillDir in
      let descErrors := validateDescription (fm_description frontmatter) in
      let name := orElse (fm_name frontmatter) parentDirName in
      let nameErrors := validateName name parentDirName in
      let diagnostics :=
        map (fun e => warn e filePath) descErrors
          ++ map (fun e => warn e filePath) nameErrors in
      if blank (fm_description frontmatter) then (None, diagnostics)
      else
        (Some {| Skill.name := name;
                 Skill.description :=
                   default [] (fm_description frontmatter);
                 Skill.filePath := filePath;
                 Skill.baseDir := skillDir;
                 Skill.source := source;
                 Skill.disableModelInvocation :=
                   bool_decide
                     (fm_disable_model_invocation frontmatter = Some true)
              |},
         diagnostics)
  end.

Section Entries.
(** The recursive call, and the parameters of the activation. *)
Variable recurse :
  jsstring → jsstring → bool → option Matcher → option jsstring
  → option Walk.t.
Variables (dir source : jsstring) (includeRootFiles : bool)
  (root : jsstring).

(** [for (const entry of entries)], inside the [try]: [None] is the
    model running out of fuel below; an exception of the matcher
    ends the loop with what was gathered. *)
Fixpoint forEntries (entries : list Dirent.t) (acc : Walk.t)
  : option Walk.t :=
  match entries with
  | [] => Some acc
  | entry :: rest =>
      if startsWith (Dirent.name entry) (js ".")
      then forEntries rest acc
      else if bool_decide (Dirent.name entry = js "node_modules")
      then forEntries rest acc
      else
        let fullPath := join dir (Dirent.name entry) in
        let kind :=
          if Dirent.isSymbolicLink entry then
            match statSync fullPath with
            | Returns stats =>
                Some (Stats.isDirectory stats, Stats.isFile stats)
            | Throws _ => None
            end
          else Some (Dirent.isDirectory entry, Dirent.isFile entry) in
        match kind with
        | None => forEntries rest acc
        | Some (isDirectory, isFile) =>
            let relPath := toPosixPath (relative root fullPath) in
            let ignorePath :=
              if isDirectory then relPath ++ js "/" else relPath in
            match ignores (Walk.ig acc) ignorePath with
            | Throws _ => Some acc
            | Returns true =>
                forEntries rest (Walk.log (Ignored ignorePath) acc)
            | Returns false =>
                if isDirectory then
                  match recurse fullPath source false
                          (Some (Walk.ig acc)) (Some root) with
                  | None => None
                  | Some subResult =>
                      forEntries rest (Walk.merge acc subResult)
                  end
                else if negb isFile then forEntries rest acc
                else
                  let isRootMd :=
                    includeRootFiles
                      && endsWith (Dirent.name entry) (js ".md") in
                  let isSkillMd :=
                    negb includeRootFiles
                      && bool_decide
                           (Dirent.name entry = js "SKILL.md") in
                  if negb isRootMd && negb isSkillMd
                  then forEntries rest acc
                  else
                    let result := loadSkillFromFile fullPath source in
                    forEntries rest
                      (Walk.push (Walk.log (Parsed fullPath) acc) result)
            end
        end
  end.
End Entries.

Fixpoint loadSkillsFromDirInternal (fuel : nat) (dir source : jsstring)
    (includeRootFiles : bool) (ignoreMatcher : option Matcher)
    (rootDir : option jsstring) : option Walk.t :=
  match fuel with
  | O => None
  | S fuel' =>
      let root := default dir rootDir in
      let entered := [Entered dir includeRootFiles root] in
      if negb (existsSync dir)
      then Some (Walk.mk [] [] (default [] ignoreMatcher) entered)
      else
        let ig := default [] ignoreMatcher in
        let ig := addIgnoreRules ig dir root in
        match readdirSync dir with
        | Throws _ => Some (Walk.mk [] [] ig entered)
        | Returns entries =>
            forEntries (loadSkillsFromDirInternal fuel')
              dir source includeRootFiles root entries
              (Walk.mk [] [] ig entered)
        end
  end.

Definition resolvePath (cwd rawPath : jsstring) : jsstring :=
  if isAbsolute rawPath then rawPath else resolve cwd rawPath.

(** One turn of [for (const rawPath of skillPaths)]. *)
Definition loadPath (fuel : nat) (cwd rawPath : jsstring) : M unit :=
  let resolvedPath := resolvePath cwd rawPath in
  if negb (existsSync resolvedPath)
  then modify (pushDiagnostics
                 [warn (js "skill path does not exist") resolvedPath])
  else
    tryCatch
      (stats ← call (statSync resolvedPath);
       if Stats.isDirectory stats then
         w ← fueled (loadSkillsFromDirInternal fuel resolvedPath
                       (js "path") true None None);
         modify (addSkills (Walk.result w))
       else if Stats.isFile stats && endsWith resolvedPath (js ".md")
       then
         let result := loadSkillFromFile resolvedPath (js "path") in
         match result.1 with
         | Some skill =>
             modify (addSkills
                       {| skills := [skill]; diagnostics := result.2 |})
         | None => modify (pushDiagnostics result.2)
         end
       else mret tt)
      (fun message =>
         modify (pushDiagnostics [warn message resolvedPath])).

Definition loadSkills (fuel : nat) (options : LoadSkillsOptions)
  : completion LoadSkillsResult :=
  let cwd := default process_cwd (cwd options) in
  let skillPaths := default [] (skillPaths options) in
  match forEach skillPaths (loadPath fuel cwd) initialState with
  | (Value _, st) => Value (finalResult st)
  | (Raised e, _) => Raised e
  | (OutOfFuel, _) => OutOfFuel
  end.
End WithHost.

End Skills.

(** ** index.ts *)

Module Index.

Definition validateName (name parentDirName : jsstring) : list jsstring :=
  (if negb (bool_decide (name = parentDirName))
   then [js "name " ++ quote ++ name ++ quote
           ++ js " does not match parent directory "
           ++ quote ++ parentDirName ++ quote]
   else [])
  ++ (if (MAX_NAME_LENGTH <? length name)%nat
      then [js "name exceeds " ++ decimal MAX_NAME_LENGTH
              ++ js " characters"]
      else [])
  ++ (if negb (matchesNamePattern name)
      then [js "invalid characters in name"]
      else []).

Definition validateDescription (description : option jsstring)
  : list jsstring :=
  if blank description then [js "description is required"]
  else
    let d := default [] description in
    if (MAX_DESCRIPTION_LENGTH <? length d)%nat
    then [js "description exceeds " ++ decimal MAX_DESCRIPTION_LENGTH
            ++ js " characters"]
    else [].

Section WithHost.
Context `{NodePath, NodeFs, NodeProcess, Yaml, Ignore}.

Definition loadSkillFromFile (filePath source : jsstring)
  : option Skill.t * list Diagnostic.t :=
  match readFileSync filePath with
  | Throws message => (None, [warn message filePath])
  | Returns rawContent =>
      let frontmatter := (Utils.parseFrontmatter rawContent).1 in
      let skillDir := dirname filePath in
      let parentDirName := basename skillDir in
      let name := orElse (fm_name frontmatter) parentDirName in
      let diagnostics :=
        map (fun m => warn m filePath)
          (validateDescription (fm_description frontmatter))
          ++ map (fun m => warn m filePath)
               (validateName name parentDirName) in
      if falsy (fm_description frontmatter) then (None, diagnostics)
      else
        (Some {| Skill.name := name;
                 Skill.description :=
                   default [] (fm_description frontmatter);
                 Skill.filePath := filePath;
                 Skill.baseDir := skillDir;
                 Skill.source := source;
                 Skill.disableModelInvocation :=
                   bool_decide
                     (fm_disable_model_invocation frontmatter = Some true)
              |},
         diagnostics)
  end.

Section Entries.
Variable recurse :
  jsstring → jsstring → bool → option Matcher → option jsstring
  → option Walk.t.
Variables (dir source : jsstring) (includeRootFiles : bool)
  (root : jsstring).

Fixpoint forEntries (entries : list Dirent.t) (acc : Walk.t)
  : option Walk.t :=
  match entries with
  | [] => Some acc
  | entry :: rest =>
      if startsWith (Dirent.name entry) (js ".")
         || bool_decide (Dirent.name entry = js "node_modules")
      then forEntries rest acc
      else
        let fullPath := join dir (Dirent.name entry) in
        let kind :=
          if Dirent.isSymbolicLink entry then
            match statSync fullPath with
            | Returns stats => Some (Stats.isDirectory stats)
            | Throws _ => None
            end
          else Some (Dirent.isDirectory entry) in
        match kind with
        | None => forEntries rest acc
        | Some isDir =>
            let relPath := toPosixPath (relative root fullPath) in
            let ignorePath :=
              if isDir then relPath ++ js "/" else relPath in
            match ignores (Walk.ig acc) ignorePath with
            | Throws _ => Some acc
            | Returns true =>
                forEntries rest (Walk.log (Ignored ignorePath) acc)
            | Returns false =>
                if isDir then
                  match recurse fullPath source false
                          (Some (Walk.ig acc)) (Some root) with
                  | None => None
                  | Some sub => forEntries rest (Walk.merge acc sub)
                  end
                else
                  let isRootMd :=
                    includeRootFiles
                      && endsWith (Dirent.name entry) (js ".md") in
                  let isSkillMd :=
                    negb includeRootFiles
                      && bool_decide
                           (Dirent.name entry = js "SKILL.md") in
                  if isRootMd || isSkillMd then
                    let res := loadSkillFromFile fullPath source in
                    forEntries rest
                      (Walk.push (Walk.log (Parsed fullPath) acc) res)
                  else forEntries rest acc
            end
        end
  end.
End Entries.

Fixpoint loadSkillsFromDir (fuel : nat) (dir source : jsstring)
    (includeRootFiles : bool) (ignoreMatcher : option Matcher)
    (rootDir : option jsstring) : option Walk.t :=
  match fuel with
  | O => None
  | S fuel' =>
      let root := default dir rootDir in
      let entered := [Entered dir includeRootFiles root] in
      if negb (existsSync dir)
      then Some (Walk.mk [] [] (default [] ignoreMatcher) entered)
      else
        let ig := default [] ignoreMatcher in
        let ig := addIgnoreRules ig dir root in
        match readdirSync dir with
        | Throws _ => Some (Walk.mk [] [] ig entered)
        | Returns entries =>
            forEntries (loadSkillsFromDir fuel')
              dir source includeRootFiles root entries
              (Walk.mk [] [] ig entered)
        end
  end.

Definition resolvePath (cwd rawPath : jsstring) : jsstring :=
  if isAbsolute rawPath then rawPath else resolve cwd rawPath.

(** One turn of [for (const rawPath of skillPaths)]. *)
Definition loadPath (fuel : nat) (cwd rawPath : jsstring) : M unit :=
  let resolvedPath := resolvePath cwd rawPath in
  if negb (existsSync resolvedPath)
  then modify (pushDiagnostics
                 [warn (js "path not found") resolvedPath])
  else
    stats ← call (statSync resolvedPath);
    if Stats.isDirectory stats then
      w ← fueled (loadSkillsFromDir fuel resolvedPath
                    (js "path") true None None);
      modify (addSkills (Walk.result w))
    else if Stats.isFile stats && endsWith resolvedPath (js ".md")
    then
      let res := loadSkillFromFile resolvedPath (js "path") in
      match res.1 with
      | Some skill =>
          modify (addSkills {| skills := [skill]; diagnostics := res.2 |})
      | None => modify (pushDiagnostics res.2)
      end
    else mret tt.

Definition loadSkills (fuel : nat) (options : LoadSkillsOptions)
  : completion LoadSkillsResult :=
  let cwd := default process_cwd (cwd options) in
  let skillPaths := default [] (skillPaths options) in
  match forEach skillPaths (loadPath fuel cwd) initialState with
  | (Value _, st) => Value (finalResult st)
  | (Raised e, _) => Raised e
  | (OutOfFuel, _) => OutOfFuel
  end.
End WithHost.

End Index.

(** ** Vocabulary of the statements *)

Module Spec.

(** [p] occurs in [s] at offset [i]. *)
Definition occursAt (p s : jsstring) (i : nat) : Prop :=
  ∃ before after, s = before ++ p ++ after ∧ length before = i.

(** Line endings in one pass, as the specification words it: every
    CR LF pair and every other CR becomes one LF. *)
Fixpoint lineEndingsToLF (s : jsstring) : jsstring :=
  match s with
  | [] => []
  | c :: t =>
      if (c =? CR)%N then
        LF :: match t with
              | d :: t' =>
                  if (d =? LF)%N then lineEndingsToLF t'
                  else lineEndingsToLF t
              | [] => []
              end
      else c :: lineEndingsToLF t
  end.

Definition opening : jsstring := js "---" ++ [LF].
Definition closing : jsstring := LF :: js "---".

(** The frontmatter case as the specification words it: the block is
    the text strictly between the opening and the closing delimiter. *)
Definition splitsAtDelimiters (content : jsstring) : Prop :=
  let normalized := Utils.normalizeNewlines content in
  startsWith normalized (js "---") = true →
  (∃ i, occursAt closing normalized i) →
  ∃ yaml rest,
    normalized = opening ++ yaml ++ closing ++ rest
    ∧ Utils.extractFrontmatter content = (Some yaml, trim rest).

(** The named entity of one code unit. *)
Definition entity (c : N) : jsstring :=
  if (c =? 38)%N then js "&amp;"
  else if (c =? 60)%N then js "&lt;"
  else if (c =? 62)%N then js "&gt;"
  else if (c =? 34)%N then js "&quot;"
  else if (c =? 39)%N then js "&apos;"
  else [c].

Definition entities (text : jsstring) : jsstring := flat_map entity text.

(** Number of offsets of [s] at which the non-empty [p] occurs. *)
Fixpoint countOccurrences (p s : jsstring) : nat :=
  match s with
  | [] => 0
  | _ :: t => (if startsWith s p then 1 else 0) + countOccurrences p t
  end.

Definition visible (skills : list Skill.t) : list Skill.t :=
  List.filter (fun s => negb (Skill.disableModelInvocation s)) skills.

(** The text of one [<skill>] element, from the newline before it. *)
Definition skillBlock (skill : Skill.t) : jsstring :=
  LF :: js "  <skill>"
  ++ LF :: js "    <name>" ++ entities (Skill.name skill) ++ js "</name>"
  ++ LF :: js "    <description>" ++ entities (Skill.description skill)
  ++ js "</description>"
  ++ LF :: js "    <location>" ++ entities (Skill.filePath skill)
  ++ js "</location>"
  ++ LF :: js "  </skill>".

Definition openTag : jsstring := js "<skill>".
Definition closeTag : jsstring := js "</skill>".

(** A text without [<]. *)
Definition plain (text : jsstring) : bool :=
  forallb (fun c => negb (c =? 60)%N) text.

Definition header : jsstring := joinWith [LF] preamble.

(** The character class of skill names. *)
Definition inNameClass (c : N) : Prop :=
  (97 ≤ c ≤ 122)%N ∨ (48 ≤ c ≤ 57)%N ∨ c = 45%N.

Definition hasForeignChar (name : jsstring) : Prop :=
  ∃ c, c ∈ name ∧ ¬ inNameClass c.

Definition hasEdgeHyphen (name : jsstring) : Prop :=
  (∃ rest, name = 45%N :: rest) ∨ (∃ rest, name = rest ++ [45%N]).

Definition hasDoubleHyphen (name : jsstring) : Prop :=
  ∃ before after, name = before ++ [45%N; 45%N] ++ after.

(** [errors] holds [message] when [condition] is met and nothing when it
    is not. *)
Definition reports (condition : Prop) (message : jsstring)
    (errors : list jsstring) : Prop :=
  (condition ∧ errors = [message]) ∨ (¬ condition ∧ errors = []).

(** The last clause of the name rules as worded: a name that meets none
    of the five conditions draws no error. *)
Definition silentOnCleanNames
    (validate : jsstring → jsstring → list jsstring) : Prop :=
  ∀ name parentDirName,
    name = parentDirName → (length name ≤ 64)%nat →
    ¬ hasForeignChar name → ¬ hasEdgeHyphen name → ¬ hasDoubleHyphen name →
    validate name parentDirName = [].
Definition footer : jsstring := LF :: js "</available_skills>".

Section LoaderVocabulary.
Context `{NodeFs}.

(** The resolved identity of a skill's file. *)
Definition identity (skill : Skill.t) : jsstring :=
  realPathOf (Skill.filePath skill).

(** What holds of the loader's locals between two skills: the map is
    keyed by skill name without repetition, and the set of identities is
    that of the skills in the map, none of them shared. *)
Definition wellFormed (st : LoaderState) : Prop :=
  NoDup (JsMap.keys (skillMap st))
  ∧ Forall (fun entry => Skill.name entry.2 = entry.1) (skillMap st)
  ∧ (∀ r, r ∈ realPathSet st ↔
          ∃ skill, skill ∈ JsMap.values (skillMap st) ∧ identity skill = r)
  ∧ NoDup (map identity (JsMap.values (skillMap st))).

(** The state after a collision: only the collision list has grown. *)
Definition collided (st : LoaderState) (existing skill : Skill.t)
  : LoaderState :=
  {| skillMap := skillMap st; realPathSet := realPathSet st;
     allDiagnostics := allDiagnostics st;
     collisionDiagnostics :=
       collisionDiagnostics st ++ [collisionDiagnostic existing skill] |}.

(** The state after a skill was kept: it is last in the map and its
    identity is recorded. *)
Definition recorded (st : LoaderState) (skill : Skill.t) : LoaderState :=
  {| skillMap := skillMap st ++ [(Skill.name skill, skill)];
     realPathSet := realPathSet st ∪ {[identity skill]};
     allDiagnostics := allDiagnostics st;
     collisionDiagnostics := collisionDiagnostics st |}.

(** C2 as worded, for two of the paths given to one call: both are
    loaded as skills of the same underlying file; then one skill of that
    file is returned and no collision names the second path as loser. *)
Definition keptOnce (result : LoadSkillsResult) (first second : Skill.t)
  : Prop :=
  identity first = identity second →
  length (filter (fun skill => identity skill = identity first)
            (skills result)) = 1%nat
  ∧ ∀ d collision,
      d ∈ diagnostics result → Diagnostic.collision d = Some collision →
      Collision.loserPath collision ≠ Skill.filePath second.
End LoaderVocabulary.

(** A computation keeps a property of the loader's locals, however it
    completes. *)
Definition preserves {A} (P : LoaderState → Prop) (m : M A) : Prop :=
  ∀ st, P st → P (m st).2.

Section WalkVocabulary.
Context `{NodePath, NodeFs}.

(** The file policy: any [.md] file where root files count, only
    [SKILL.md] elsewhere. *)
Definition candidate (includeRootFiles : bool) (name : jsstring) : Prop :=
  (includeRootFiles = true ∧ ∃ stem, name = stem ++ js ".md")
  ∨ (includeRootFiles = false ∧ name = js "SKILL.md").

(** What the walker takes an entry for, directory and file flags in
    this order: the entry's own flags, or for a symbolic link those of
    its target, or nothing when the target cannot be reached. *)
Definition entryKind (dir : jsstring) (entry : Dirent.t)
  : option (bool * bool) :=
  if Dirent.isSymbolicLink entry then
    match statSync (join dir (Dirent.name entry)) with
    | Returns stats => Some (Stats.isDirectory stats, Stats.isFile stats)
    | Throws _ => None
    end
  else Some (Dirent.isDirectory entry, Dirent.isFile entry).

(** The path an entry is tested under. *)
Definition relPathOf (root dir : jsstring) (entry : Dirent.t) : jsstring :=
  toPosixPath (relative root (join dir (Dirent.name entry))).

(** C6 as worded, for one file entry of a walked directory. *)
Definition parsedIffCandidate (trace : list event) (dir : jsstring)
    (includeRootFiles : bool) (entry : Dirent.t) : Prop :=
  Dirent.isFile entry = true →
  (Parsed (join dir (Dirent.name entry)) ∈ trace
   ↔ candidate includeRootFiles (Dirent.name entry)).

(** What an activation for [dir] may log after its own [Entered]:
    nested activations without root files and with the same root, and
    parser calls on a [SKILL.md] or, where root files count, on an [.md]
    file of [dir] itself. *)
Definition below (dir : jsstring) (includeRootFiles : bool)
    (root : jsstring) (e : event) : Prop :=
  match e with
  | Entered _ nested r => nested = false ∧ r = root
  | Ignored _ => True
  | Parsed p =>
      (includeRootFiles = true
       ∧ ∃ stem, p = join dir (stem ++ js ".md"))
      ∨ (∃ d, p = join d (js "SKILL.md"))
  end.

Definition traced (dir : jsstring) (includeRootFiles : bool)
    (root : jsstring) (w : Walk.t) : Prop :=
  ∃ tail,
    Walk.trace w = Entered dir includeRootFiles root :: tail
    ∧ Forall (below dir includeRootFiles root) tail.
End WalkVocabulary.

(** A pattern line in two parts: its negation marker, and the pattern
    proper, without the backslash of an escaped first [!] and without
    one leading slash. *)
Definition withoutLeadingSlash (pattern : jsstring) : jsstring :=
  match pattern with
  | c :: t => if (c =? 47)%N then t else pattern
  | [] => []
  end.

Definition patternParts (line : jsstring) : jsstring * jsstring :=
  match line with
  | c :: t =>
      if (c =? 33)%N then (js "!", withoutLeadingSlash t)
      else if (c =? 92)%N && startsWith t (js "!")
           then ([], withoutLeadingSlash t)
           else ([], withoutLeadingSlash line)
  | [] => ([], [])
  end.

Definition isBlank (line : jsstring) : Prop := trim line = [].
Definition isComment (line : jsstring) : Prop :=
  ∃ text, trim line = js "#" ++ text.

Section Finiteness.
Context `{NodePath, NodeFs}.

(** The directory tree below [dir] is finite: every chain of listings
    ends. *)
Inductive finiteBelow : jsstring → Prop :=
| finiteBelow_intro dir :
    (∀ entries entry,
       readdirSync dir = Returns entries → entry ∈ entries →
       finiteBelow (join dir (Dirent.name entry))) →
    finiteBelow dir.
End Finiteness.

Section IgnoreVocabulary.
Context `{NodePath, NodeFs}.

(** The lines of an ignore file of [dir], none when it is absent or
    cannot be read. *)
Definition ignoreLines (dir filename : jsstring) : list jsstring :=
  if existsSync (join dir filename) then
    match readFileSync (join dir filename) with
    | Returns content => splitLines content
    | Throws _ => []
    end
  else [].
End IgnoreVocabulary.

(** A computation never completes by an exception. *)
Definition quiet {A} (m : M A) : Prop :=
  ∀ st e, (m st).1 ≠ Raised e.

(** A description that passes the production gate. *)
Definition described (skill : Skill.t) : Prop :=
  trim (Skill.description skill) ≠ [].

(** The code units that delimit markup, and with the ampersand the five
    that [escapeXml] replaces. *)
Definition markup : list N := [60; 62; 34; 39]%N.
Definition special : list N := 38%N :: markup.

(** A text assembled from a block and what follows it. *)
Definition assembled (yaml rest : jsstring) : jsstring :=
  opening ++ yaml ++ closing ++ rest.

(** No line of the block begins with three hyphens. *)
Definition delimiterFree (yaml : jsstring) : Prop :=
  ∀ i, ¬ occursAt closing (LF :: yaml) i.

(** A text with every LF turned into CR LF. *)
Definition withCRLF (text : jsstring) : jsstring :=
  replaceChar LF [CR; LF] text.

(** The two shapes of diagnostic the loader builds. *)
Definition isWarning (d : Diagnostic.t) : Prop :=
  ∃ message filePath, d = warn message filePath.

Definition isCollision (d : Diagnostic.t) : Prop :=
  ∃ existing skill, d = collisionDiagnostic existing skill.

(** An entry the walker passes over for its name. *)
Definition skippedByName (entry : Dirent.t) : bool :=
  startsWith (Dirent.name entry) (js ".")
  || bool_decide (Dirent.name entry = js "node_modules").

Section OriginVocabulary.
Context `{NodePath}.

(** The files a walk of [dir] can take a skill from: a [SKILL.md]
    anywhere, or, where root files count, an [.md] file of [dir]. *)
Definition candidatePath (dir : jsstring) (includeRootFiles : bool)
    (filePath : jsstring) : Prop :=
  (includeRootFiles = true ∧ ∃ stem, filePath = join dir (stem ++ js ".md"))
  ∨ (∃ d, filePath = join d (js "SKILL.md")).

(** A skill as the parser fills it in for [source]. *)
Definition filledIn (source : jsstring) (skill : Skill.t) : Prop :=
  Skill.source skill = source
  ∧ Skill.baseDir skill = dirname (Skill.filePath skill)
  ∧ Skill.description skill ≠ [].
End OriginVocabulary.

(** The diagnostics and the skills in hand are those the parser
    returned for files that were handed to it, according to the trace. *)
Definition parsedOnly
    (parser : jsstring → jsstring → option Skill.t * list Diagnostic.t)
    (source : jsstring) (trace : list event)
    (ds : list Diagnostic.t) (found : list Skill.t) : Prop :=
  Forall (fun d => ∃ p, Parsed p ∈ trace ∧ d ∈ (parser p source).2) ds
  ∧ Forall (fun skill => ∃ p, Parsed p ∈ trace
                              ∧ (parser p source).1 = Some skill) found.

Section AbsorbVocabulary.
Context `{NodeFs}.

(** A skill the loader would not keep: its file is recorded or its name
    is taken. *)
Definition absorbed (st : LoaderState) (skill : Skill.t) : Prop :=
  identity skill ∈ realPathSet st
  ∨ is_Some (JsMap.get (skillMap st) (Skill.name skill)).

(** A collision diagnostic whose winner is in the map under the name
    and is another file than the loser. *)
Definition wonBy (st : LoaderState) (d : Diagnostic.t) : Prop :=
  ∃ existing skill,
    d = collisionDiagnostic existing skill
    ∧ JsMap.get (skillMap st) (Skill.name skill) = Some existing
    ∧ Skill.filePath existing ≠ Skill.filePath skill.

(** What holds of the two diagnostic lists between two skills: the
    first holds warnings, the second collisions won by skills of the
    map. *)
Definition orderly (st : LoaderState) : Prop :=
  wellFormed st
  ∧ Forall isWarning (allDiagnostics st)
  ∧ Forall (wonBy st) (collisionDiagnostics st).

(** The loader's locals only grow: what was kept or reported stays, in
    its place. *)
Definition extends (before after : LoaderState) : Prop :=
  skillMap before `prefix_of` skillMap after
  ∧ realPathSet before ⊆ realPathSet after
  ∧ allDiagnostics before `prefix_of` allDiagnostics after
  ∧ collisionDiagnostics before `prefix_of` collisionDiagnostics after.
End AbsorbVocabulary.

(** The options of a call with the given paths. *)
Definition withPaths (base : option jsstring) (paths : list jsstring)
  : LoadSkillsOptions :=
  {| cwd := base; skillPaths := Some paths |}.

(** The diagnostics of a result by kind: those that are no collisions,
    and the collisions. *)
Definition ofCollision (d : Diagnostic.t) : bool :=
  match Diagnostic.type d with
  | DiagnosticType.collision => true
  | _ => false
  end.

Definition warningsOf (result : LoadSkillsResult) : list Diagnostic.t :=
  List.filter (fun d => negb (ofCollision d)) (diagnostics result).

Definition collisionsOf (result : LoadSkillsResult) : list Diagnostic.t :=
  List.filter ofCollision (diagnostics result).

Section RunVocabulary.
Context `{NodeFs}.

(** First writer wins, on lists, as the specification words it: of the
    skills kept so far and the collisions recorded so far, and one more
    skill.  A skill of a file that a kept skill is of changes nothing; a
    skill whose name a kept skill has is recorded as the loser of a
    collision with that skill; another skill is kept, after the
    others. *)
Definition settle (sofar : list Skill.t * list Diagnostic.t)
    (skill : Skill.t) : list Skill.t * list Diagnostic.t :=
  let '(kept, collisions) := sofar in
  if bool_decide (identity skill ∈ map identity kept) then sofar
  else
    match
      List.find (fun e => bool_decide (Skill.name e = Skill.name skill)) kept
    with
    | Some existing =>
        (kept, collisions ++ [collisionDiagnostic existing skill])
    | None => (kept ++ [skill], collisions)
    end.

(** A resolved path that [loadSkills] hands to the skill parser: it
    exists, [statSync] returns for it, it is no directory but a file,
    and it ends in [.md]. *)
Definition markdownFile (resolvedPath : jsstring) : Prop :=
  existsSync resolvedPath = true
  ∧ ∃ stats,
      statSync resolvedPath = Returns stats
      ∧ Stats.isDirectory stats = false
      ∧ Stats.isFile stats = true
      ∧ endsWith resolvedPath (js ".md") = true.
End RunVocabulary.

(** The skills of a completed run. *)
Definition skillsOf (run : completion LoadSkillsResult)
  : completion (list Skill.t) :=
  match run with
  | Value result => Value (skills result)
  | Raised e => Raised e
  | OutOfFuel => OutOfFuel
  end.

End Spec.
Import Spec.

(** ** Fixtures *)

Module Fixture.

(** The skill of the package's formatter test, and a disabled one. *)
Definition fooSkill : Skill.t :=
  {| Skill.name := js "foo";
     Skill.description := js "bar";
     Skill.filePath := js "/path/to/foo.md";
     Skill.baseDir := js "/path/to";
     Skill.source := js "test";
     Skill.disableModelInvocation := false |}.

Definition hiddenSkill : Skill.t :=
  {| Skill.name := js "a<b";
     Skill.description := js "Tom & Jerry";
     Skill.filePath := js "/path/to/hidden.md";
     Skill.baseDir := js "/path/to";
     Skill.source := js "test";
     Skill.disableModelInvocation := true |}.

(** *** A path module for plain absolute POSIX paths

    Enough of [node:path] for paths without [.], [..], doubled or
    trailing separators. *)

Definition slash : N := 47.

(** [p] cut at its first slash: what precedes it, what follows it. *)
Fixpoint cutAtSlash (p : jsstring) : jsstring * jsstring :=
  match p with
  | [] => ([], [])
  | c :: t =>
      if (c =? slash)%N then ([], t)
      else let '(a, b) := cutAtSlash t in (c :: a, b)
  end.

Definition afterLastSlash (p : jsstring) : jsstring :=
  rev (cutAtSlash (rev p)).1.

Definition beforeLastSlash (p : jsstring) : jsstring :=
  rev (cutAtSlash (rev p)).2.

Definition posix : NodePath :=
  {| sep := slash;
     join dir name := dir ++ js "/" ++ name;
     relative from to :=
       if bool_decide (from = to) then []
       else if startsWith to (from ++ js "/")
            then drop (length from + 1) to
            else to;
     dirname p :=
       match beforeLastSlash p with [] => js "/" | d => d end;
     basename p := afterLastSlash p;
     isAbsolute p := startsWith p (js "/");
     resolve cwd p :=
       if startsWith p (js "/") then p
       else if endsWith cwd (js "/") then cwd ++ p
       else cwd ++ js "/" ++ p |}.

Definition processAt (dir : jsstring) : NodeProcess :=
  {| process_cwd := dir |}.

(** *** A file system given by its answers *)

Record Tables := {
  existing : list jsstring;
  stats : JsMap.t Stats.t;
  listings : JsMap.t (list Dirent.t);
  contents : JsMap.t jsstring;
  links : JsMap.t jsstring;
}.

Definition tableFs (t : Tables) : NodeFs :=
  {| existsSync p := bool_decide (p ∈ existing t);
     statSync p :=
       match JsMap.get (stats t) p with
       | Some st => Returns st
       | None => Throws (js "ENOENT: no such file or directory, stat")
       end;
     readdirSync p :=
       match JsMap.get (listings t) p with
       | Some entries => Returns entries
       | None => Throws (js "ENOTDIR: not a directory, scandir")
       end;
     readFileSync p :=
       match JsMap.get (contents t) p with
       | Some text => Returns text
       | None => Throws (js "ENOENT: no such file or directory, open")
       end;
     realpathSync p :=
       match JsMap.get (links t) p with
       | Some target => Returns target
       | None =>
           if bool_decide (p ∈ existing t) then Returns p
           else Throws (js "ENOENT: no such file or directory, realpath")
       end |}.

Definition aFile : Stats.t := Stats.mk false true.
Definition aDirectory : Stats.t := Stats.mk true false.
Definition file (name : jsstring) : Dirent.t := Dirent.mk name false true false.
Definition folder (name : jsstring) : Dirent.t := Dirent.mk name true false false.

(** *** A YAML parser given by its answers *)

Definition tableYaml (documents : JsMap.t SkillFrontmatter) : Yaml :=
  {| parse text :=
       match JsMap.get documents text with
       | Some frontmatter => Returns (Some frontmatter)
       | None => Throws (js "YAMLParseError")
       end |}.

Definition describedAs (description : jsstring) : SkillFrontmatter :=
  {| fm_name := None; fm_description := Some description;
     fm_disable_model_invocation := None |}.

Definition documents : JsMap.t SkillFrontmatter :=
  [ (js "description: d", describedAs (js "d"));
    (js "description: " ++ quote ++ js "   " ++ quote, describedAs (js "   ")) ].

Definition describedFile : jsstring :=
  js "---" ++ [LF] ++ js "description: d" ++ [LF] ++ js "---" ++ [LF] ++ js "Body".

Definition blankFile : jsstring :=
  js "---" ++ [LF] ++ js "description: " ++ quote ++ js "   " ++ quote
    ++ [LF] ++ js "---" ++ [LF] ++ js "Body".

(** *** A matcher for patterns without wildcards

    The gitignore rules for such patterns: a pattern with an inner slash
    is anchored at the root of the walk, any other matches a path
    component at any depth; a pattern that ends in a slash matches
    directories only, which are the paths given with a slash at their
    end; a match covers what lies below it; the last matching rule
    decides, and a leading [!] makes it an exception.  The empty path is
    rejected. *)

Fixpoint splitOn (c : N) (cur s : jsstring) : list jsstring :=
  match s with
  | [] => [rev cur]
  | d :: t =>
      if (d =? c)%N then rev cur :: splitOn c [] t
      else splitOn c (d :: cur) t
  end.

Definition withoutTrailingSlash (p : jsstring) : jsstring :=
  if endsWith p (js "/") then take (length p - 1) p else p.

Definition ruleMatches (pattern path : jsstring) : bool :=
  let pat := withoutTrailingSlash pattern in
  let target := withoutTrailingSlash path in
  let asFile := endsWith pattern (js "/") && negb (endsWith path (js "/")) in
  if includes pat (js "/")
  then bool_decide (target = pat) && negb asFile
       || startsWith target (pat ++ js "/")
  else
    let components := splitOn slash [] target in
    bool_decide
      (pat ∈ if asFile then removelast components else components).

Definition applyRule (path : jsstring) (ignored : bool) (rule : jsstring)
  : bool :=
  if startsWith rule (js "!")
  then if ruleMatches (drop 1 rule) path then false else ignored
  else if ruleMatches rule path then true else ignored.

Definition literalMatcher : Ignore :=
  {| ignores rules path :=
       if negb (truthy path) then Throws (js "path must not be empty")
       else Returns (foldl (applyRule path) false rules) |}.

(** *** Three skill files of the same name, the third a link to the second *)

Definition first : jsstring := js "/s1/x/SKILL.md".
Definition second : jsstring := js "/s2/x/SKILL.md".
Definition link : jsstring := js "/s3/x/SKILL.md".

Definition linkedFs : NodeFs :=
  tableFs
    {| existing := [first; second; link];
       stats := [(first, aFile); (second, aFile); (link, aFile)];
       listings := [];
       contents :=
         [(first, describedFile); (second, describedFile);
          (link, describedFile)];
       links := [(link, second)] |}.

Definition skillAt (filePath baseDir : jsstring) : Skill.t :=
  {| Skill.name := js "x"; Skill.description := js "d";
     Skill.filePath := filePath; Skill.baseDir := baseDir;
     Skill.source := js "path"; Skill.disableModelInvocation := false |}.

Definition firstSkill : Skill.t := skillAt first (js "/s1/x").
Definition secondSkill : Skill.t := skillAt second (js "/s2/x").
Definition linkSkill : Skill.t := skillAt link (js "/s3/x").

(** The loader's locals once the first file, or the second, was kept. *)
Definition afterFirst : LoaderState :=
  @addSkill linkedFs initialState firstSkill.
Definition afterSecond : LoaderState :=
  @addSkill linkedFs initialState secondSkill.

Definition given (paths : list jsstring) : LoadSkillsOptions :=
  {| cwd := None; skillPaths := Some paths |}.

Definition linkedRun (paths : list jsstring) : completion LoadSkillsResult :=
  @Skills.loadSkills posix linkedFs (processAt (js "/")) (tableYaml documents)
    literalMatcher 2 (given paths).

Definition linkedRunIndex (paths : list jsstring)
  : completion LoadSkillsResult :=
  @Index.loadSkills posix linkedFs (processAt (js "/")) (tableYaml documents)
    literalMatcher 2 (given paths).

(** *** A skill file whose description is three spaces *)

Definition blankPath : jsstring := js "/s/q/SKILL.md".

Definition blankFs : NodeFs :=
  tableFs
    {| existing := [blankPath];
       stats := [(blankPath, aFile)];
       listings := [];
       contents := [(blankPath, blankFile)];
       links := [] |}.

Definition blankSkill : Skill.t :=
  {| Skill.name := js "q"; Skill.description := js "   ";
     Skill.filePath := blankPath; Skill.baseDir := js "/s/q";
     Skill.source := js "path"; Skill.disableModelInvocation := false |}.

(** *** A path that passes [existsSync] and is gone when [statSync] runs *)

Definition gonePath : jsstring := js "/gone".

Definition goneFs : NodeFs :=
  tableFs
    {| existing := [gonePath; first];
       stats := [(first, aFile)];
       listings := [];
       contents := [(first, describedFile)];
       links := [] |}.

(** *** A directory with an ignore file in a subdirectory

    [/w] holds [.hidden.md], [a.md] and the directories [bar] and [foo];
    [/w/bar] holds [.gitignore] with the one rule [foo], [README.md] and
    the directories [foo] and [ok]; each of [/w/foo], [/w/bar/foo] and
    [/w/bar/ok] holds a [SKILL.md]. *)

Definition treeFs : NodeFs :=
  tableFs
    {| existing :=
         [js "/w"; js "/w/.hidden.md"; js "/w/a.md"; js "/w/bar";
          js "/w/bar/.gitignore"; js "/w/bar/README.md"; js "/w/bar/foo";
          js "/w/bar/foo/SKILL.md"; js "/w/bar/ok"; js "/w/bar/ok/SKILL.md";
          js "/w/foo"; js "/w/foo/SKILL.md"];
       stats := [(js "/w", aDirectory)];
       listings :=
         [(js "/w",
           [file (js ".hidden.md"); file (js "a.md"); folder (js "bar");
            folder (js "foo")]);
          (js "/w/bar",
           [file (js ".gitignore"); file (js "README.md"); folder (js "foo");
            folder (js "ok")]);
          (js "/w/bar/foo", [file (js "SKILL.md")]);
          (js "/w/bar/ok", [file (js "SKILL.md")]);
          (js "/w/foo", [file (js "SKILL.md")])];
       contents :=
         [(js "/w/.hidden.md", describedFile);
          (js "/w/a.md", describedFile);
          (js "/w/bar/.gitignore", js "foo" ++ [LF]);
          (js "/w/bar/README.md", describedFile);
          (js "/w/bar/foo/SKILL.md", describedFile);
          (js "/w/bar/ok/SKILL.md", describedFile);
          (js "/w/foo/SKILL.md", describedFile)];
       links := [] |}.

Definition treeWalk : option Walk.t :=
  @Skills.loadSkillsFromDirInternal posix treeFs (tableYaml documents)
    literalMatcher 3 (js "/w") (js "path") true None None.

Definition treeWalkIndex : option Walk.t :=
  @Index.loadSkillsFromDir posix treeFs (tableYaml documents)
    literalMatcher 3 (js "/w") (js "path") true None None.

Definition treeTrace : list event :=
  [ Entered (js "/w") true (js "/w");
    Parsed (js "/w/a.md");
    Entered (js "/w/bar") false (js "/w");
    Ignored (js "bar/foo/");
    Entered (js "/w/bar/ok") false (js "/w");
    Parsed (js "/w/bar/ok/SKILL.md");
    Entered (js "/w/foo") false (js "/w");
    Parsed (js "/w/foo/SKILL.md") ].

(** *** The files of the package's own tests *)

Definition testDocuments : JsMap.t SkillFrontmatter :=
  [ (js "name: test-skill" ++ [LF] ++ js "description: A test skill",
     {| fm_name := Some (js "test-skill");
        fm_description := Some (js "A test skill");
        fm_disable_model_invocation := None |});
    (js "description: Complex skill", describedAs (js "Complex skill")) ].

Definition testFs : NodeFs :=
  tableFs
    {| existing :=
         [js "/tmp/x/test-skill.md"; js "/tmp/y"; js "/tmp/y/complex-skill";
          js "/tmp/y/complex-skill/SKILL.md"];
       stats :=
         [(js "/tmp/x/test-skill.md", aFile); (js "/tmp/y", aDirectory)];
       listings :=
         [(js "/tmp/y", [folder (js "complex-skill")]);
          (js "/tmp/y/complex-skill", [file (js "SKILL.md")])];
       contents :=
         [(js "/tmp/x/test-skill.md",
           js "---" ++ [LF] ++ js "name: test-skill" ++ [LF]
             ++ js "description: A test skill" ++ [LF] ++ js "---" ++ [LF]
             ++ js "Body");
          (js "/tmp/y/complex-skill/SKILL.md",
           js "---" ++ [LF] ++ js "description: Complex skill" ++ [LF]
             ++ js "---" ++ [LF] ++ js "Body")];
       links := [] |}.

Definition testRun (paths : list jsstring) : completion LoadSkillsResult :=
  @Index.loadSkills posix testFs (processAt (js "/")) (tableYaml testDocuments)
    literalMatcher 3 (given paths).

(** *** The path functions of [posix] on a platform whose separator is
    the backslash *)

Definition backslashed : NodePath :=
  {| sep := 92;
     join := @join posix;
     relative := @relative posix;
     dirname := @dirname posix;
     basename := @basename posix;
     isAbsolute := @isAbsolute posix;
     resolve := @resolve posix |}.

(** *** A directory whose files draw warnings

    [/v] holds [x.md], whose description is three spaces, and the
    directory [Up] with a [SKILL.md]. *)

Definition warnFs : NodeFs :=
  tableFs
    {| existing := [js "/v"; js "/v/x.md"; js "/v/Up"; js "/v/Up/SKILL.md"];
       stats := [(js "/v", aDirectory)];
       listings :=
         [(js "/v", [file (js "x.md"); folder (js "Up")]);
          (js "/v/Up", [file (js "SKILL.md")])];
       contents :=
         [(js "/v/x.md", blankFile); (js "/v/Up/SKILL.md", describedFile)];
       links := [] |}.

Definition warnWalk : option Walk.t :=
  @Skills.loadSkillsFromDirInternal posix warnFs (tableYaml documents)
    literalMatcher 3 (js "/v") (js "path") true None None.

(** The walk of the tree fixture, started on a matcher with one rule. *)
Definition treeWalkFrom (ig : Matcher) : option Walk.t :=
  @Skills.loadSkillsFromDirInternal posix treeFs (tableYaml documents)
    literalMatcher 3 (js "/w") (js "path") true (Some ig) None.


End Fixture.

(* ================================================================== *)
(** * Part II: properties                                              *)
(* ================================================================== *)

(** ** Strings *)

Section StringFacts.
Implicit Types s p : jsstring.

Lemma startsWith_nil_pattern s : startsWith s [] = true.
Proof. by destruct s. Qed.

Lemma startsWith_app p k : startsWith (p ++ k) p = true.
Proof.
  induction p as [|c p IH]; simpl; [done|].
  by rewrite N.eqb_refl, IH.
Qed.

Lemma startsWith_inv s p :
  startsWith s p = true → ∃ k, s = p ++ k.
Proof.
  revert s; induction p as [|c p IH]; intros s Hs; simpl in *.
  - by exists s.
  - destruct s as [|d s]; [done|].
    apply andb_true_iff in Hs as [Hc Hs].
    apply N.eqb_eq in Hc as ->.
    destruct (IH _ Hs) as [k ->]. by exists k.
Qed.

Lemma startsWith_true s p : startsWith s p = true ↔ ∃ k, s = p ++ k.
Proof.
  split; [apply startsWith_inv|]. intros [k ->]. apply startsWith_app.
Qed.

Lemma occursAt_drop p s i :
  occursAt p s i ↔ (i ≤ length s)%nat ∧ startsWith (drop i s) p = true.
Proof.
  split.
  - intros (b & a & -> & <-). split.
    + rewrite length_app. lia.
    + rewrite drop_app_length. apply startsWith_app.
  - intros [Hi Hs]. apply startsWith_inv in Hs as [k Hk].
    exists (take i s), k. split.
    + by rewrite <- Hk, take_drop.
    + rewrite length_take. lia.
Qed.

Lemma search_unfold s p :
  search s p =
  if startsWith s p then Some 0%nat
  else match s with [] => None | _ :: s' => S <$> search s' p end.
Proof. by destruct s. Qed.

Lemma search_None_drop s p :
  search s p = None → ∀ i, startsWith (drop i s) p = false.
Proof.
  induction s as [|c s IH]; rewrite search_unfold.
  - destruct (startsWith [] p) eqn:E; [done|]. intros _ i. by rewrite drop_nil.
  - destruct (startsWith (c :: s) p) eqn:E; [done|].
    destruct (search s p) eqn:Es; [done|]. intros _ [|i]; [done|].
    simpl. by apply IH.
Qed.

Lemma search_Some_drop s p i :
  search s p = Some i →
  (i ≤ length s)%nat ∧ startsWith (drop i s) p = true
  ∧ ∀ j, (j < i)%nat → startsWith (drop j s) p = false.
Proof.
  revert i; induction s as [|c s IH]; intros i; rewrite search_unfold.
  - destruct (startsWith [] p) eqn:E; [|done].
    intros [= <-]. split_and!; [done|done|lia].
  - destruct (startsWith (c :: s) p) eqn:E.
    + intros [= <-]. split_and!; [simpl; lia|done|lia].
    + destruct (search s p) as [k|] eqn:Es; [|done].
      intros [= <-]. destruct (IH k eq_refl) as (Hk & Hat & Hmin).
      split_and!; [simpl; lia|done|].
      intros [|j] Hj; [done|]. simpl. apply Hmin. lia.
Qed.

Lemma search_Some s p i :
  search s p = Some i ↔
  occursAt p s i ∧ ∀ j, (j < i)%nat → ¬ occursAt p s j.
Proof.
  split.
  - intros (Hi & Hat & Hmin)%search_Some_drop. split.
    + by apply occursAt_drop.
    + intros j Hj [_ Ho]%occursAt_drop. rewrite (Hmin j Hj) in Ho. done.
  - intros [[Hi Hat]%occursAt_drop Hmin].
    destruct (search s p) as [k|] eqn:Es.
    + apply search_Some_drop in Es as (Hk & Hatk & Hmink).
      destruct (lt_eq_lt_dec k i) as [[Hlt| ->]|Hlt]; [|done|].
      * destruct (Hmin k Hlt). by apply occursAt_drop.
      * rewrite (Hmink i Hlt) in Hat. done.
    + rewrite (search_None_drop _ _ Es i) in Hat. done.
Qed.

Lemma search_None s p : search s p = None ↔ ∀ i, ¬ occursAt p s i.
Proof.
  split.
  - intros Hn i [_ Ho]%occursAt_drop.
    rewrite (search_None_drop _ _ Hn i) in Ho. done.
  - intros Hn. destruct (search s p) as [i|] eqn:E; [|done].
    apply search_Some in E as [Ho _]. by destruct (Hn i).
Qed.

End StringFacts.

(** ** Frontmatter extraction *)

Section Frontmatter.
Implicit Types content : jsstring.

Lemma replaceChar_cons c rep d s :
  replaceChar c rep (d :: s) =
  (if (d =? c)%N then rep else [d]) ++ replaceChar c rep s.
Proof. done. Qed.

Lemma replaceChar_app c rep s1 s2 :
  replaceChar c rep (s1 ++ s2) = replaceChar c rep s1 ++ replaceChar c rep s2.
Proof. unfold replaceChar. apply flat_map_app. Qed.

Lemma replaceCRLF_unfold s :
  replaceCRLF s =
  match s with
  | [] => []
  | c :: t =>
      match t with
      | d :: t' =>
          if (c =? CR)%N && (d =? LF)%N then LF :: replaceCRLF t'
          else c :: replaceCRLF t
      | [] => [c]
      end
  end.
Proof. by destruct s. Qed.

Lemma normalizeNewlines_one_pass s :
  Utils.normalizeNewlines s = lineEndingsToLF s.
Proof.
  unfold Utils.normalizeNewlines.
  induction s as [s IH] using (induction_ltof1 _ length); unfold ltof in IH.
  destruct s as [|c [|d t]]; [done| |].
  - simpl. unfold replaceChar; simpl. by destruct (c =? CR)%N.
  - rewrite replaceCRLF_unfold.
    destruct (c =? CR)%N eqn:Ec, (d =? LF)%N eqn:Ed; simpl andb; cbv iota.
    + rewrite replaceChar_cons. change (LF =? CR)%N with false. cbv iota.
      rewrite IH by (simpl; lia). simpl. by rewrite Ec, Ed.
    + rewrite replaceChar_cons, Ec, IH by (simpl; lia).
      cbn [lineEndingsToLF]. by rewrite Ec, Ed.
    + rewrite replaceChar_cons, Ec, IH by (simpl; lia).
      cbn [lineEndingsToLF]. by rewrite Ec.
    + rewrite replaceChar_cons, Ec, IH by (simpl; lia).
      cbn [lineEndingsToLF]. by rewrite Ec.
Qed.

Lemma replaceChar_removes c rep s : c ∉ rep → c ∉ replaceChar c rep s.
Proof.
  intros Hrep. induction s as [|d s IH]; [apply not_elem_of_nil|].
  rewrite replaceChar_cons, elem_of_app. intros [Hin|Hin]; [|done].
  destruct (N.eqb_spec d c) as [->|Hne]; [done|].
  apply list_elem_of_singleton in Hin. congruence.
Qed.

Lemma normalizeNewlines_no_CR s : CR ∉ Utils.normalizeNewlines s.
Proof.
  apply replaceChar_removes. intros Hin%list_elem_of_singleton. done.
Qed.

Lemma occursAt_length p s i : occursAt p s i → (i + length p ≤ length s)%nat.
Proof. intros (b & a & -> & <-). rewrite !length_app. lia. Qed.

Lemma occursAt_shift p s k i :
  (k ≤ length s)%nat → occursAt p (drop k s) i ↔ occursAt p s (k + i).
Proof.
  intros Hk. rewrite !occursAt_drop, drop_drop, length_drop. intuition lia.
Qed.

Lemma startsWith_length s p : startsWith s p = true → (length p ≤ length s)%nat.
Proof. intros [k ->]%startsWith_inv. rewrite length_app. lia. Qed.

(** A text that begins with three hyphens has no closing delimiter
    before offset 3. *)
Lemma closing_not_in_marker s i :
  startsWith s (js "---") = true → occursAt closing s i → (3 ≤ i)%nat.
Proof.
  intros [k ->]%startsWith_inv [_ Ho]%occursAt_drop.
  destruct i as [|[|[|i]]]; [done..|lia].
Qed.

Lemma indexOf_found s i :
  startsWith s (js "---") = true →
  occursAt closing s i → (∀ j, (j < i)%nat → ¬ occursAt closing s j) →
  indexOf s closing 3 = Z.of_nat i.
Proof.
  intros Hs Ho Hmin. pose proof (closing_not_in_marker _ _ Hs Ho) as Hi.
  pose proof (startsWith_length _ _ Hs) as Hlen. simpl in Hlen.
  unfold indexOf.
  replace (Z.to_nat (Z.min (Z.max 3 0) (Z.of_nat (length s)))) with 3%nat by lia.
  assert (search (drop 3 s) closing = Some (i - 3)%nat) as ->.
  { apply search_Some. split.
    - apply occursAt_shift; [done|]. by replace (3 + (i - 3))%nat with i by lia.
    - intros j Hj Hoj%occursAt_shift; [|done]. apply (Hmin (3 + j)%nat); [lia|done]. }
  f_equal. lia.
Qed.

Lemma indexOf_missing s :
  startsWith s (js "---") = true →
  (∀ i, ¬ occursAt closing s i) → indexOf s closing 3 = (-1)%Z.
Proof.
  intros Hs Hno. pose proof (startsWith_length _ _ Hs) as Hlen. simpl in Hlen.
  unfold indexOf.
  replace (Z.to_nat (Z.min (Z.max 3 0) (Z.of_nat (length s)))) with 3%nat by lia.
  assert (search (drop 3 s) closing = None) as ->; [|done].
  apply search_None. intros i Ho%occursAt_shift; [|done]. by apply (Hno (3 + i)%nat).
Qed.

Lemma slice_inside s (a b : nat) :
  (a ≤ length s)%nat → (b ≤ length s)%nat →
  slice s (Z.of_nat a) (Z.of_nat b) = take (b - a) (drop a s).
Proof.
  intros Ha Hb. unfold slice, clampIndex.
  destruct (Z.ltb_spec (Z.of_nat a) 0); [lia|].
  destruct (Z.ltb_spec (Z.of_nat b) 0); [lia|].
  rewrite !Z.min_l by lia. rewrite Nat2Z.id. f_equal. lia.
Qed.

Lemma sliceFrom_inside s (a : nat) :
  (a ≤ length s)%nat → sliceFrom s (Z.of_nat a) = drop a s.
Proof.
  intros Ha. unfold sliceFrom. rewrite slice_inside by lia.
  apply take_ge. rewrite length_drop. lia.
Qed.

Lemma between_delimiters s e :
  startsWith s opening = true → occursAt closing s e → (4 ≤ e)%nat →
  s = opening ++ take (e - 4) (drop 4 s) ++ closing ++ drop (e + 4) s.
Proof.
  intros [k ->]%startsWith_inv (before & after & Hn & <-) He.
  assert (∃ mid, before = opening ++ mid) as [mid ->].
  { exists (drop 4 before). rewrite <- (take_drop 4 before) at 1. f_equal.
    apply (f_equal (take 4)) in Hn. rewrite (take_app_le before) in Hn by lia.
    by change (take 4 (opening ++ k)) with opening in Hn. }
  rewrite <- (assoc_L (++)) in Hn. apply app_inv_head in Hn as ->.
  rewrite length_app in *. change (length opening) with 4%nat in *.
  f_equal. change (drop 4 (opening ++ ?x)) with x.
  replace (4 + length mid - 4)%nat with (length mid) by lia.
  rewrite take_app_length. f_equal.
  change (drop (4 + length mid + 4) (opening ++ ?x)) with (drop (length mid + 4) x).
  rewrite drop_app_ge by lia. replace (length mid + 4 - length mid)%nat with 4%nat by lia.
  done.
Qed.

(** C5, amended: what [extractFrontmatter] returns.  The text is first
    brought to LF line endings.  Without a leading [---], or without a
    later newline followed by [---], there is no YAML block and the body
    is the whole normalised text.  Otherwise, with [e] the offset of the
    first such newline, the block is the text from offset 4 up to [e]
    and the body is the trimmed text after offset [e + 4]; when the text
    begins with [---] and a newline and [e] is at least 4 this block is
    exactly the text between the two delimiters. *)
Theorem extractFrontmatter_blocks content :
  let normalized := Utils.normalizeNewlines content in
  (normalized = lineEndingsToLF content ∧ CR ∉ normalized)
  ∧ (startsWith normalized (js "---") = false →
     Utils.extractFrontmatter content = (None, normalized))
  ∧ (startsWith normalized (js "---") = true →
     (∀ i, ¬ occursAt closing normalized i) →
     Utils.extractFrontmatter content = (None, normalized))
  ∧ (∀ e,
       startsWith normalized (js "---") = true →
       occursAt closing normalized e →
       (∀ i, (i < e)%nat → ¬ occursAt closing normalized i) →
       (3 ≤ e)%nat
       ∧ Utils.extractFrontmatter content =
           (Some (take (e - 4) (drop 4 normalized)),
            trim (drop (e + 4) normalized))
       ∧ (startsWith normalized opening = true → (4 ≤ e)%nat →
          ∃ yaml rest,
            normalized = opening ++ yaml ++ closing ++ rest
            ∧ length yaml = (e - 4)%nat
            ∧ Utils.extractFrontmatter content = (Some yaml, trim rest))).
Proof.
  intros normalized. split_and!.
  - apply normalizeNewlines_one_pass.
  - apply normalizeNewlines_no_CR.
  - intros Hs. unfold Utils.extractFrontmatter. fold normalized. by rewrite Hs.
  - intros Hs Hno. unfold Utils.extractFrontmatter. fold normalized.
    rewrite Hs. simpl negb. cbv iota. by rewrite indexOf_missing.
  - intros e Hs Ho Hmin.
    pose proof (closing_not_in_marker _ _ Hs Ho) as He.
    pose proof (occursAt_length _ _ _ Ho) as Hlen. simpl in Hlen.
    assert (Utils.extractFrontmatter content =
              (Some (take (e - 4) (drop 4 normalized)),
               trim (drop (e + 4) normalized))) as Hx.
    { unfold Utils.extractFrontmatter. fold normalized.
      rewrite Hs. simpl negb. cbv iota.
      rewrite (indexOf_found _ e) by done.
      destruct (Z.eqb_spec (Z.of_nat e) (-1)); [lia|].
      change 4%Z with (Z.of_nat 4). rewrite <- Nat2Z.inj_add.
      rewrite slice_inside, sliceFrom_inside by lia. done. }
    split_and!; [done|done|].
    intros Hopen He4.
    exists (take (e - 4) (drop 4 normalized)), (drop (e + 4) normalized).
    split_and!; [|rewrite length_take, length_drop; lia|done].
    by apply between_delimiters.
Qed.

(** C5 at a concrete file: a complete frontmatter block. *)
Lemma extractFrontmatter_blocks_witness :
  Utils.extractFrontmatter
    (js "---" ++ [CR; LF] ++ js "name: x" ++ [CR; LF] ++ js "---" ++ [LF] ++ js " Body ")
  = (Some (js "name: x"), js "Body").
Proof.
  pose (content := js "---" ++ [CR; LF] ++ js "name: x" ++ [CR; LF] ++ js "---" ++ [LF] ++ js " Body ").
  destruct (extractFrontmatter_blocks content) as (_ & _ & _ & H).
  destruct (H 11%nat) as (_ & Hx & _).
  - done.
  - by exists (js "---" ++ [LF] ++ js "name: x"), (LF :: js " Body ").
  - intros i Hi [_ Ho]%occursAt_drop.
    do 11 (destruct i as [|i]; [by vm_compute in Ho|]). lia.
  - exact Hx.
Defined.

(** C5 as worded fails on a text whose first line is longer than the
    three hyphens: the block starts at offset 4 whatever stands there. *)
Lemma extractFrontmatter_blocks_counterexample :
  ¬ splitsAtDelimiters (js "---ab" ++ [LF] ++ js "---").
Proof.
  intros H. destruct H as (yaml & rest & Hn & _).
  - done.
  - exists 5%nat. by exists (js "---ab"), [].
  - vm_compute in Hn. discriminate Hn.
Qed.
End Frontmatter.

(** ** The prompt formatter *)

Section Formatter.
Implicit Types (skill : Skill.t) (skills : list Skill.t) (rest : jsstring).

Lemma replaceChar_flat_map c rep (f : N → jsstring) s :
  replaceChar c rep (flat_map f s) =
  flat_map (fun d => replaceChar c rep (f d)) s.
Proof.
  induction s as [|d s IH]; [done|]. simpl.
  by rewrite replaceChar_app, IH.
Qed.

Lemma escapeXml_one d : Utils.escapeXml [d] = entity d.
Proof.
  unfold Utils.escapeXml, entity.
  destruct (N.eqb_spec d 38) as [->|H38]; [done|].
  destruct (N.eqb_spec d 60) as [->|H60]; [done|].
  destruct (N.eqb_spec d 62) as [->|H62]; [done|].
  destruct (N.eqb_spec d 34) as [->|H34]; [done|].
  destruct (N.eqb_spec d 39) as [->|H39]; [done|].
  unfold replaceChar; simpl.
  repeat match goal with
         | |- context [(d =? ?k)%N] =>
             destruct (N.eqb_spec d k); [congruence|]; simpl
         end.
  done.
Qed.

Lemma escapeXml_app a b :
  Utils.escapeXml (a ++ b) = Utils.escapeXml a ++ Utils.escapeXml b.
Proof. unfold Utils.escapeXml. by rewrite !replaceChar_app. Qed.

Lemma escapeXml_entities str : Utils.escapeXml str = entities str.
Proof.
  induction str as [|d str IH]; [done|].
  change (d :: str) with ([d] ++ str).
  rewrite escapeXml_app, IH, escapeXml_one. done.
Qed.

Lemma plain_app a b : plain (a ++ b) = plain a && plain b.
Proof. apply forallb_app. Qed.

Lemma entities_plain text : plain (entities text) = true.
Proof.
  induction text as [|d text IH]; [done|].
  unfold entities in *. simpl. rewrite plain_app, IH, andb_true_r.
  unfold entity.
  repeat match goal with
         | |- context [(d =? ?k)%N] =>
             destruct (N.eqb_spec d k); [done|]
         end.
  simpl. destruct (N.eqb_spec d 60); [congruence|done].
Qed.

Lemma countOccurrences_cons p c t :
  countOccurrences p (c :: t) =
  ((if startsWith (c :: t) p then 1 else 0) + countOccurrences p t)%nat.
Proof. done. Qed.

Lemma startsWith_cons s p c d :
  startsWith (d :: s) (c :: p) = (c =? d)%N && startsWith s p.
Proof. done. Qed.

Section Count.
Variables (tag : jsstring) (k : jsstring).
Hypothesis tag_lt : tag = 60%N :: k.

Lemma count_plain text rest :
  plain text = true →
  countOccurrences tag (text ++ rest) = countOccurrences tag rest.
Proof.
  induction text as [|c text IH]; [done|]. simpl plain.
  intros [Hc Ht]%andb_true_iff.
  rewrite <- app_comm_cons, countOccurrences_cons, IH by done.
  rewrite tag_lt at 1. rewrite startsWith_cons.
  apply negb_true_iff in Hc. rewrite N.eqb_sym in Hc. by rewrite Hc.
Qed.
End Count.

Lemma count_block tag skill rest :
  tag = openTag ∨ tag = closeTag →
  countOccurrences tag (skillBlock skill ++ rest) =
  S (countOccurrences tag rest).
Proof.
  unfold skillBlock.
  set (e1 := entities (Skill.name skill)).
  set (e2 := entities (Skill.description skill)).
  set (e3 := entities (Skill.filePath skill)).
  assert (plain e1 = true ∧ plain e2 = true ∧ plain e3 = true)
    as (H1 & H2 & H3) by (split_and!; apply entities_plain).
  assert (∀ t x y, t = openTag ∨ t = closeTag → plain x = true →
            countOccurrences t (x ++ y) = countOccurrences t y) as Hskip.
  { intros t x y [->| ->]; by eapply count_plain. }
  intros Htag.
  repeat rewrite <- ?(assoc_L (++)), <- ?app_comm_cons.
  destruct Htag as [-> | ->].
  - change (countOccurrences openTag (LF :: js "  <skill>" ++ LF :: js "    <name>" ++ ?x))
      with (S (countOccurrences openTag x)).
    rewrite Hskip by auto.
    change (countOccurrences openTag (js "</name>" ++ LF :: js "    <description>" ++ ?x))
      with (countOccurrences openTag x).
    rewrite Hskip by auto.
    change (countOccurrences openTag (js "</description>" ++ LF :: js "    <location>" ++ ?x))
      with (countOccurrences openTag x).
    rewrite Hskip by auto. done.
  - change (countOccurrences closeTag (LF :: js "  <skill>" ++ LF :: js "    <name>" ++ ?x))
      with (countOccurrences closeTag x).
    rewrite Hskip by auto.
    change (countOccurrences closeTag (js "</name>" ++ LF :: js "    <description>" ++ ?x))
      with (countOccurrences closeTag x).
    rewrite Hskip by auto.
    change (countOccurrences closeTag (js "</description>" ++ LF :: js "    <location>" ++ ?x))
      with (countOccurrences closeTag x).
    rewrite Hskip by auto. reflexivity.
Qed.

Lemma count_blocks tag skills rest :
  tag = openTag ∨ tag = closeTag →
  countOccurrences tag (flat_map skillBlock skills ++ rest) =
  (length skills + countOccurrences tag rest)%nat.
Proof.
  intros Htag. induction skills as [|skill skills IH]; [done|].
  change (flat_map skillBlock (skill :: skills))
    with (skillBlock skill ++ flat_map skillBlock skills).
  rewrite <- (assoc_L (++)), count_block, IH by done. done.
Qed.

Lemma joinWith_cons sep x xs :
  joinWith sep (x :: xs) = x ++ flat_map (fun y => sep ++ y) xs.
Proof.
  revert x; induction xs as [|y xs IH]; intros x; [by rewrite app_nil_r|].
  change (joinWith sep (x :: y :: xs)) with (x ++ sep ++ joinWith sep (y :: xs)).
  rewrite IH. simpl. by rewrite <- (assoc_L (++)).
Qed.

Lemma joinWith_app sep xs ys :
  xs ≠ [] →
  joinWith sep (xs ++ ys) = joinWith sep xs ++ flat_map (fun y => sep ++ y) ys.
Proof.
  destruct xs as [|x xs]; [done|]. intros _.
  rewrite <- app_comm_cons, !joinWith_cons, flat_map_app.
  by rewrite (assoc_L (++)).
Qed.

Lemma skillLines_block skill :
  flat_map (fun y => [LF] ++ y) (skillLines skill) = skillBlock skill.
Proof.
  unfold skillLines, skillBlock. rewrite !escapeXml_entities.
  cbn [flat_map]. rewrite app_nil_r. by rewrite <- !(assoc_L (++)).
Qed.

Lemma flat_map_flat_map {A B C} (f : A → list B) (g : B → list C) l :
  flat_map g (flat_map f l) = flat_map (fun x => flat_map g (f x)) l.
Proof.
  induction l as [|x l IH]; [done|]. simpl. by rewrite flat_map_app, IH.
Qed.

Lemma visible_nil skills :
  visible skills = [] ↔
  ∀ skill, skill ∈ skills → Skill.disableModelInvocation skill = true.
Proof.
  unfold visible. induction skills as [|s skills IH]; simpl.
  - split; [|done]. intros _ skill Hin. by apply elem_of_nil in Hin.
  - destruct (Skill.disableModelInvocation s) eqn:E; simpl.
    + rewrite IH. split.
      * intros Hall skill [->|Hin]%elem_of_cons; auto.
      * intros Hall skill Hin. apply Hall. by right.
    + split; [done|]. intros Hall. rewrite (Hall s) in E; [done|by left].
Qed.

Lemma header_split :
  header = take 330 header ++ js "<available_skills>".
Proof. by vm_compute. Qed.

(** C7: the output of [formatSkillsForPrompt].  It is empty when every
    skill is disabled (in particular for the empty list).  Otherwise it
    is the preamble, then one [<skill>] element for each skill that is
    not disabled, in order, then the closing line: the text [<skill>]
    occurs exactly once per such skill, and so does [</skill>].  In each
    element the name, description and file path stand with every
    ampersand, angle bracket, double quote and apostrophe replaced by its
    named entity, which is what [escapeXml]
    computes. *)
Theorem formatSkillsForPrompt_blocks skills :
  ((∀ skill, skill ∈ skills → Skill.disableModelInvocation skill = true) →
   formatSkillsForPrompt skills = [])
  ∧ ((∃ skill, skill ∈ skills ∧ Skill.disableModelInvocation skill = false) →
     formatSkillsForPrompt skills =
       header ++ flat_map skillBlock (visible skills) ++ footer
     ∧ countOccurrences (js "<skill>") (formatSkillsForPrompt skills)
       = length (visible skills)
     ∧ countOccurrences (js "</skill>") (formatSkillsForPrompt skills)
       = length (visible skills))
  ∧ (∀ skill, skill ∈ visible skills ↔
       skill ∈ skills ∧ Skill.disableModelInvocation skill = false)
  ∧ (∀ text, Utils.escapeXml text = flat_map entity text).
Proof.
  split_and!.
  - intros Hall%visible_nil. unfold formatSkillsForPrompt.
    fold (visible skills). by rewrite Hall.
  - intros (skill & Hin & Hen).
    assert (visible skills ≠ []) as Hne.
    { intros Hall. rewrite visible_nil in Hall.
      rewrite (Hall _ Hin) in Hen. done. }
    assert (formatSkillsForPrompt skills =
              header ++ flat_map skillBlock (visible skills) ++ footer) as Hfmt.
    { unfold formatSkillsForPrompt. fold (visible skills).
      destruct (length (visible skills) =? 0)%nat eqn:El.
      { apply Nat.eqb_eq, nil_length_inv in El. done. }
      rewrite joinWith_app by done. fold header. f_equal.
      rewrite flat_map_app, flat_map_flat_map. f_equal.
      apply flat_map_ext. intros a. apply skillLines_block. }
    rewrite Hfmt. split_and!; [done| |].
    + change (js "<skill>") with openTag.
      rewrite header_split, <- !(assoc_L (++)).
      rewrite (count_plain openTag _ eq_refl) by done.
      change (countOccurrences openTag (js "<available_skills>" ++ ?x))
        with (countOccurrences openTag x).
      rewrite count_blocks by auto. change (countOccurrences openTag footer) with 0%nat. lia.
    + change (js "</skill>") with closeTag.
      rewrite header_split, <- !(assoc_L (++)).
      rewrite (count_plain closeTag _ eq_refl) by done.
      change (countOccurrences closeTag (js "<available_skills>" ++ ?x))
        with (countOccurrences closeTag x).
      rewrite count_blocks by auto. change (countOccurrences closeTag footer) with 0%nat. lia.
  - intros skill. unfold visible. rewrite !list_elem_of_In, filter_In.
    by rewrite negb_true_iff.
  - apply escapeXml_entities.
Qed.

(** C7 on the list of the package's test extended by a disabled skill. *)
Lemma formatSkillsForPrompt_blocks_witness :
  countOccurrences (js "<skill>")
    (formatSkillsForPrompt [Fixture.fooSkill; Fixture.hiddenSkill]) = 1%nat
  ∧ formatSkillsForPrompt [Fixture.hiddenSkill] = [].
Proof.
  split.
  - destruct (formatSkillsForPrompt_blocks [Fixture.fooSkill; Fixture.hiddenSkill])
      as (_ & H & _).
    destruct H as (_ & Hc & _); [|exact Hc].
    exists Fixture.fooSkill. split; [left|done].
  - apply (formatSkillsForPrompt_blocks [Fixture.hiddenSkill]).
    by intros skill ->%list_elem_of_singleton.
Defined.
End Formatter.

(** ** Name validation *)

Section Names.
Implicit Types name parentDirName : jsstring.

Lemma isNameChar_class c : isNameChar c = true ↔ inNameClass c.
Proof.
  unfold isNameChar, inNameClass.
  rewrite !orb_true_iff, !andb_true_iff, !N.leb_le, N.eqb_eq. tauto.
Qed.

Lemma forallb_false {A} (f : A → bool) (l : list A) :
  forallb f l = false ↔ ∃ x, x ∈ l ∧ f x = false.
Proof.
  induction l as [|a l IH]; simpl.
  - split; [done|]. intros (x & Hin & _). by apply elem_of_nil in Hin.
  - rewrite andb_false_iff, IH. split.
    + intros [Ha|(x & Hin & Hx)]; [exists a|exists x]; split; try done;
        [left|by right].
    + intros (x & [->|Hin]%elem_of_cons & Hx); [by left|right; eauto].
Qed.

Lemma matchesNamePattern_false name :
  matchesNamePattern name = false ↔ name = [] ∨ hasForeignChar name.
Proof.
  unfold matchesNamePattern, hasForeignChar.
  rewrite andb_false_iff, forallb_false. split.
  - intros [Ht|(c & Hin & Hc)].
    + left. by destruct name.
    + right. exists c. split; [done|]. rewrite <- isNameChar_class. congruence.
  - intros [->|(c & Hin & Hc)]; [by left|].
    right. exists c. split; [done|].
    rewrite <- isNameChar_class in Hc. by destruct (isNameChar c).
Qed.

Lemma endsWith_true s p : endsWith s p = true ↔ ∃ k, s = k ++ p.
Proof.
  unfold endsWith. rewrite startsWith_true. split.
  - intros [k Hk]. exists (rev k).
    apply (f_equal (@rev N)) in Hk. by rewrite rev_involutive, rev_app_distr, rev_involutive in Hk.
  - intros [k ->]. exists (rev k). by rewrite rev_app_distr.
Qed.

Lemma edge_hyphen name :
  startsWith name (js "-") || endsWith name (js "-") = true ↔ hasEdgeHyphen name.
Proof.
  unfold hasEdgeHyphen.
  rewrite orb_true_iff, startsWith_true, endsWith_true. done.
Qed.

Lemma includes_true s p : includes s p = true ↔ ∃ i, occursAt p s i.
Proof.
  unfold includes. destruct (search s p) as [i|] eqn:E.
  - split; [|done]. intros _. exists i. by apply search_Some in E as [? _].
  - split; [done|]. intros [i Hi]. rewrite search_None in E. by destruct (E i).
Qed.

Lemma double_hyphen name :
  includes name (js "--") = true ↔ hasDoubleHyphen name.
Proof.
  rewrite includes_true. unfold hasDoubleHyphen, occursAt. split.
  - intros (i & b & a & -> & _). by exists b, a.
  - intros (b & a & ->). by exists (length b), b, a.
Qed.

Lemma reports_if (b : bool) (condition : Prop) message :
  (b = true ↔ condition) → reports condition message (if b then [message] else []).
Proof.
  intros Hb. unfold reports. destruct b.
  - left. split; [by apply Hb|done].
  - right. split; [|done]. intros Hc%Hb. done.
Qed.

(** C4, amended: the errors of [validateName] in skills.ts.  The result
    is five consecutive groups, one per rule, each holding the rule's
    message when the rule is broken and nothing otherwise: the name
    differs from the directory name; it is longer than 64 code units; it
    is empty or has a character outside a-z, 0-9, hyphen; it starts or
    ends with a hyphen; it contains two hyphens in a row. *)
Theorem validateName_reports name parentDirName :
  ∃ e1 e2 e3 e4 e5,
    Skills.validateName name parentDirName = e1 ++ e2 ++ e3 ++ e4 ++ e5
    ∧ reports (name ≠ parentDirName)
        (js "name " ++ quote ++ name ++ quote
           ++ js " does not match parent directory "
           ++ quote ++ parentDirName ++ quote) e1
    ∧ reports (64 < length name)%nat
        (js "name exceeds 64 characters (" ++ decimal (length name) ++ js ")")
        e2
    ∧ reports (name = [] ∨ hasForeignChar name)
        (js "name contains invalid characters (must be lowercase a-z, 0-9, hyphens only)")
        e3
    ∧ reports (hasEdgeHyphen name)
        (js "name must not start or end with a hyphen") e4
    ∧ reports (hasDoubleHyphen name)
        (js "name must not contain consecutive hyphens") e5.
Proof.
  unfold Skills.validateName. do 5 eexists. split; [reflexivity|].
  split_and!; apply reports_if.
  - rewrite negb_true_iff, bool_decide_eq_false. done.
  - apply Nat.ltb_lt.
  - rewrite negb_true_iff. apply matchesNamePattern_false.
  - apply edge_hyphen.
  - apply double_hyphen.
Qed.

(** C4 as worded fails on the empty name: it has no character outside
    the class, yet both validators report invalid characters. *)
Lemma validateName_reports_counterexample :
  ¬ silentOnCleanNames Skills.validateName
  ∧ ¬ silentOnCleanNames Index.validateName.
Proof.
  assert (¬ hasForeignChar []) as H1.
  { intros (c & Hin & _). by apply elem_of_nil in Hin. }
  assert (¬ hasEdgeHyphen []) as H2.
  { intros [[rest Hr]|[rest Hr]]; [done|]. by destruct rest. }
  assert (¬ hasDoubleHyphen []) as H3.
  { intros (b & a & Hn). by destruct b. }
  split; intros Hclaim; specialize (Hclaim [] [] eq_refl);
    simpl in Hclaim; by specialize (Hclaim ltac:(lia) H1 H2 H3).
Qed.

(** The hyphen rules are checked by skills.ts only. *)
Lemma validateName_hyphens_unchecked :
  Index.validateName (js "-a--b-") (js "-a--b-") = []
  ∧ Skills.validateName (js "-a--b-") (js "-a--b-") =
      [js "name must not start or end with a hyphen";
       js "name must not contain consecutive hyphens"].
Proof. by vm_compute. Qed.
End Names.

(** ** The loader's map and set *)

Section MapFacts.
Context {V : Type}.
Implicit Types (m : JsMap.t V) (k : jsstring) (v : V).

Lemma get_None m k : JsMap.get m k = None ↔ k ∉ JsMap.keys m.
Proof.
  induction m as [|[k' v'] m IH]; simpl.
  - split; [|done]. intros _. apply not_elem_of_nil.
  - rewrite not_elem_of_cons. case_bool_decide as Hk.
    + split; [done|]. intros [Hne _]. by destruct Hne.
    + rewrite IH. split; [|tauto]. intros Hm. split; [congruence|done].
Qed.

Lemma get_Some m k v : JsMap.get m k = Some v → (k, v) ∈ m.
Proof.
  induction m as [|[k' v'] m IH]; simpl; [done|].
  case_bool_decide as Hk.
  - intros [= ->]. subst. by left.
  - intros Hm. right. by apply IH.
Qed.

Lemma set_fresh m k v : JsMap.get m k = None → JsMap.set m k v = m ++ [(k, v)].
Proof.
  induction m as [|[k' v'] m IH]; simpl; [done|].
  case_bool_decide as Hk; [done|]. intros Hm. by rewrite IH.
Qed.
End MapFacts.

Section Dedup.
Context `{NodeFs}.
Implicit Types (st : LoaderState) (skill existing : Skill.t).

Lemma addSkill_duplicate st skill :
  identity skill ∈ realPathSet st → addSkill st skill = st.
Proof.
  intros Hin. unfold addSkill. fold (identity skill).
  by rewrite bool_decide_eq_true_2.
Qed.

Lemma addSkill_collision st skill existing :
  identity skill ∉ realPathSet st →
  JsMap.get (skillMap st) (Skill.name skill) = Some existing →
  addSkill st skill = collided st existing skill.
Proof.
  intros Hnew Hget. unfold addSkill. fold (identity skill).
  by rewrite bool_decide_eq_false_2, Hget.
Qed.

Lemma addSkill_fresh st skill :
  identity skill ∉ realPathSet st →
  JsMap.get (skillMap st) (Skill.name skill) = None →
  addSkill st skill = recorded st skill.
Proof.
  intros Hnew Hget. unfold addSkill. fold (identity skill).
  rewrite bool_decide_eq_false_2, Hget by done.
  unfold recorded. by rewrite set_fresh.
Qed.

(** The three outcomes of one skill. *)
Lemma addSkill_cases st skill :
  (identity skill ∈ realPathSet st ∧ addSkill st skill = st)
  ∨ ((identity skill ∉ realPathSet st)
     ∧ (∃ existing,
          JsMap.get (skillMap st) (Skill.name skill) = Some existing
          ∧ addSkill st skill = collided st existing skill))
  ∨ ((identity skill ∉ realPathSet st)
     ∧ JsMap.get (skillMap st) (Skill.name skill) = None
     ∧ addSkill st skill = recorded st skill).
Proof.
  destruct (decide (identity skill ∈ realPathSet st)) as [Hin|Hnew].
  - left. split; [done|]. by apply addSkill_duplicate.
  - right. destruct (JsMap.get (skillMap st) (Skill.name skill)) as [e|] eqn:E.
    + left. split; [done|]. exists e. split; [done|]. by apply addSkill_collision.
    + right. split_and!; [done|done|]. by apply addSkill_fresh.
Qed.

Lemma wellFormed_initial : wellFormed initialState.
Proof.
  split_and!; simpl; [constructor|constructor| |constructor].
  intros r. split; [set_solver|]. intros (skill & Hin & _).
  by apply elem_of_nil in Hin.
Qed.

Lemma wellFormed_recorded st skill :
  wellFormed st → identity skill ∉ realPathSet st →
  JsMap.get (skillMap st) (Skill.name skill) = None →
  wellFormed (recorded st skill).
Proof.
  intros (Hkeys & Hnamed & Hset & Hids) Hnew Hfree%get_None.
  unfold wellFormed, recorded, JsMap.keys, JsMap.values in *. simpl.
  rewrite !map_app. simpl. split_and!.
  - apply NoDup_app. split_and!; [done| |apply NoDup_singleton].
    intros k Hk ->%list_elem_of_singleton. done.
  - apply Forall_app. split; [done|]. by constructor.
  - intros r. rewrite elem_of_union, elem_of_singleton, Hset. split.
    + intros [(s0 & Hin & Hid)| ->].
      * exists s0. split; [|done]. apply elem_of_app. by left.
      * exists skill. split; [|done]. apply elem_of_app. right. by left.
    + intros (s0 & [Hin| ->%list_elem_of_singleton]%elem_of_app & Hid).
      * left. by exists s0.
      * by right.
  - apply NoDup_app. split_and!; [done| |apply NoDup_singleton].
    intros r Hr ->%list_elem_of_singleton. apply Hnew, Hset.
    apply list_elem_of_fmap in Hr as (s0 & -> & Hin). by exists s0.
Qed.

Lemma wellFormed_addSkill st skill :
  wellFormed st → wellFormed (addSkill st skill).
Proof.
  intros Hwf.
  destruct (addSkill_cases st skill)
    as [[_ ->]|[(_ & e & _ & ->)|(Hnew & Hfree & ->)]]; [done|done|].
  by apply wellFormed_recorded.
Qed.

Lemma wellFormed_pushDiagnostics ds st :
  wellFormed st → wellFormed (pushDiagnostics ds st).
Proof. done. Qed.

Lemma wellFormed_foldl st skills :
  wellFormed st → wellFormed (foldl addSkill st skills).
Proof.
  revert st. induction skills as [|skill skills IH]; intros st Hwf; [done|].
  simpl. by apply IH, wellFormed_addSkill.
Qed.

Lemma wellFormed_addSkills result st :
  wellFormed st → wellFormed (addSkills result st).
Proof. intros Hwf. by apply wellFormed_foldl, wellFormed_pushDiagnostics. Qed.

Lemma wellFormed_names st :
  wellFormed st → NoDup (map Skill.name (JsMap.values (skillMap st))).
Proof.
  intros (Hkeys & Hnamed & _). unfold JsMap.keys, JsMap.values in *.
  replace (map Skill.name (map snd (skillMap st))) with (map fst (skillMap st));
    [done|].
  clear Hkeys. induction Hnamed as [|[k v] m Hkv _ IH]; [done|].
  simpl in *. by f_equal.
Qed.

Lemma addSkill_keeps_skills st other skill :
  skill ∈ JsMap.values (skillMap st) →
  skill ∈ JsMap.values (skillMap (addSkill st other)).
Proof.
  intros Hin.
  destruct (addSkill_cases st other)
    as [[_ ->]|[(_ & e & _ & ->)|(_ & _ & ->)]]; [done|done|].
  unfold recorded, JsMap.values. simpl. rewrite map_app, elem_of_app. by left.
Qed.

Lemma addSkill_keeps_identities st other r :
  r ∈ realPathSet st → r ∈ realPathSet (addSkill st other).
Proof.
  intros Hin.
  destruct (addSkill_cases st other)
    as [[_ ->]|[(_ & e & _ & ->)|(_ & _ & ->)]]; [done|done|].
  unfold recorded. simpl. set_solver.
Qed.


Lemma foldl_keeps_skills st others skill :
  skill ∈ JsMap.values (skillMap st) →
  skill ∈ JsMap.values (skillMap (foldl addSkill st others)).
Proof.
  revert st. induction others as [|o others IH]; intros st Hin; [done|].
  simpl. by apply IH, addSkill_keeps_skills.
Qed.

Lemma foldl_keeps_identities st others r :
  r ∈ realPathSet st → r ∈ realPathSet (foldl addSkill st others).
Proof.
  revert st. induction others as [|o others IH]; intros st Hin; [done|].
  simpl. by apply IH, addSkill_keeps_identities.
Qed.


Lemma addSkill_allDiagnostics st skill :
  allDiagnostics (addSkill st skill) = allDiagnostics st.
Proof.
  by destruct (addSkill_cases st skill)
    as [[_ ->]|[(_ & e & _ & ->)|(_ & _ & ->)]].
Qed.

Lemma addSkills_allDiagnostics result st :
  allDiagnostics (addSkills result st)
  = allDiagnostics st ++ diagnostics result.
Proof.
  unfold addSkills.
  change (allDiagnostics st ++ diagnostics result)
    with (allDiagnostics (pushDiagnostics (diagnostics result) st)).
  generalize (pushDiagnostics (diagnostics result) st).
  induction (skills result) as [|skill rest IH]; intros st'; [done|].
  simpl. by rewrite IH, addSkill_allDiagnostics.
Qed.

Lemma filter_none {A} (f : A → jsstring) (l : list A) (r : jsstring) :
  r ∉ map f l → filter (fun y => f y = r) l = [].
Proof.
  induction l as [|y l IH]; [done|]. simpl.
  intros [Hy Hl]%not_elem_of_cons.
  rewrite filter_cons_False by congruence. by apply IH.
Qed.

Lemma filter_unique {A} (f : A → jsstring) (l : list A) (x : A) :
  NoDup (map f l) → x ∈ l → filter (fun y => f y = f x) l = [x].
Proof.
  induction l as [|y l IH]; intros Hnd Hin; [by apply elem_of_nil in Hin|].
  simpl in Hnd. apply NoDup_cons in Hnd as [Hy Hnd].
  apply elem_of_cons in Hin as [->|Hin].
  - rewrite filter_cons_True by done. f_equal. by apply filter_none.
  - rewrite filter_cons_False; [by apply IH|].
    intros Heq. apply Hy. rewrite Heq. by apply list_elem_of_fmap_2.
Qed.
End Dedup.

(** ** The loader's control flow *)

Section Control.
Context {A B : Type}.
Implicit Types (P : LoaderState → Prop).

Lemma preserves_ret P (a : A) : preserves P (mret a).
Proof. by intros st. Qed.

Lemma preserves_bind P (m : M A) (k : A → M B) :
  preserves P m → (∀ a, preserves P (k a)) → preserves P (m ≫= k).
Proof.
  intros Hm Hk st Hst. unfold mbind, M_bind. specialize (Hm st Hst).
  destruct (m st) as [[a|e|] st']; simpl in *; [by apply Hk|done|done].
Qed.

Lemma preserves_modify P (f : LoaderState → LoaderState) :
  (∀ st, P st → P (f st)) → preserves P (modify f).
Proof. intros Hf st Hst. by apply Hf. Qed.

Lemma preserves_call P (r : attempt A) : preserves P (call r).
Proof. intros st Hst. by destruct r. Qed.

Lemma preserves_fueled P (r : option A) : preserves P (fueled r).
Proof. intros st Hst. by destruct r. Qed.

Lemma preserves_tryCatch P (body : M A) (handler : jsstring → M A) :
  preserves P body → (∀ e, preserves P (handler e)) →
  preserves P (tryCatch body handler).
Proof.
  intros Hb Hh st Hst. unfold tryCatch. specialize (Hb st Hst).
  destruct (body st) as [[a|e|] st']; simpl in *; [done|by apply Hh|done].
Qed.
End Control.

Lemma preserves_forEach {X} P (xs : list X) (body : X → M unit) :
  (∀ x, preserves P (body x)) → preserves P (forEach xs body).
Proof.
  intros Hbody. induction xs as [|x xs IH]; [by apply preserves_ret|].
  simpl. apply preserves_bind; [done|]. by intros _.
Qed.

Section Runs.
Context `{NodePath, NodeFs, NodeProcess, Yaml, Ignore}.

Lemma Skills_loadPath_preserves P fuel cwd rawPath :
  (∀ ds st, P st → P (pushDiagnostics ds st)) →
  (∀ result st, P st → P (addSkills result st)) →
  preserves P (Skills.loadPath fuel cwd rawPath).
Proof.
  intros Hpush Hadd. unfold Skills.loadPath.
  destruct (negb _); [apply preserves_modify; auto|].
  apply preserves_tryCatch; [|intros e; apply preserves_modify; auto].
  apply preserves_bind; [apply preserves_call|]. intros stats.
  destruct (Stats.isDirectory stats).
  { apply preserves_bind; [apply preserves_fueled|].
    intros w. apply preserves_modify; auto. }
  destruct (_ && _); [|apply preserves_ret].
  destruct (Skills.loadSkillFromFile _ _).1; apply preserves_modify; auto.
Qed.

Lemma Index_loadPath_preserves P fuel cwd rawPath :
  (∀ ds st, P st → P (pushDiagnostics ds st)) →
  (∀ result st, P st → P (addSkills result st)) →
  preserves P (Index.loadPath fuel cwd rawPath).
Proof.
  intros Hpush Hadd. unfold Index.loadPath.
  destruct (negb _); [apply preserves_modify; auto|].
  apply preserves_bind; [apply preserves_call|]. intros stats.
  destruct (Stats.isDirectory stats).
  { apply preserves_bind; [apply preserves_fueled|].
    intros w. apply preserves_modify; auto. }
  destruct (_ && _); [|apply preserves_ret].
  destruct (Index.loadSkillFromFile _ _).1; apply preserves_modify; auto.
Qed.

(** What a completed run returns is the final contents of the locals. *)
Lemma Skills_loadSkills_final P fuel options result :
  P initialState →
  (∀ ds st, P st → P (pushDiagnostics ds st)) →
  (∀ r st, P st → P (addSkills r st)) →
  Skills.loadSkills fuel options = Value result →
  ∃ st, P st ∧ result = finalResult st.
Proof.
  intros Hinit Hpush Hadd. unfold Skills.loadSkills.
  pose proof (preserves_forEach P (default [] (skillPaths options))
                (Skills.loadPath fuel (default process_cwd (cwd options)))
                (fun x => Skills_loadPath_preserves P fuel _ x Hpush Hadd)
                initialState Hinit) as Hfinal.
  destruct (forEach _ _ initialState) as [[[]|e|] st]; [|done|done].
  intros [= <-]. by exists st.
Qed.

Lemma Index_loadSkills_final P fuel options result :
  P initialState →
  (∀ ds st, P st → P (pushDiagnostics ds st)) →
  (∀ r st, P st → P (addSkills r st)) →
  Index.loadSkills fuel options = Value result →
  ∃ st, P st ∧ result = finalResult st.
Proof.
  intros Hinit Hpush Hadd. unfold Index.loadSkills.
  pose proof (preserves_forEach P (default [] (skillPaths options))
                (Index.loadPath fuel (default process_cwd (cwd options)))
                (fun x => Index_loadPath_preserves P fuel _ x Hpush Hadd)
                initialState Hinit) as Hfinal.
  destruct (forEach _ _ initialState) as [[[]|e|] st]; [|done|done].
  intros [= <-]. by exists st.
Qed.

Lemma loadSkills_wellFormed fuel options result :
  Skills.loadSkills fuel options = Value result
  ∨ Index.loadSkills fuel options = Value result →
  ∃ st, wellFormed st ∧ result = finalResult st.
Proof.
  intros [Hrun|Hrun];
    [eapply Skills_loadSkills_final|eapply Index_loadSkills_final]; eauto;
    auto using wellFormed_initial, wellFormed_pushDiagnostics, wellFormed_addSkills.
Qed.


(** C2, amended: a skill whose file identity is recorded is dropped
    with no change to the loader's locals, before its name is looked at.
    Once a skill has been kept, every later skill of the same file is
    dropped in this way and the kept one stays the only skill of that
    file.  In a returned list no two skills share a file identity.  The
    diagnostics that come with a batch of skills are appended as they
    are, whatever happens to the skills. *)
Theorem recorded_identity_dropped :
  (∀ st skill, identity skill ∈ realPathSet st → addSkill st skill = st)
  ∧ (∀ st kept between again,
       wellFormed st →
       identity kept ∉ realPathSet st →
       JsMap.get (skillMap st) (Skill.name kept) = None →
       identity again = identity kept →
       addSkill (foldl addSkill (addSkill st kept) between) again
         = foldl addSkill (addSkill st kept) between
       ∧ filter (fun skill => identity skill = identity kept)
           (JsMap.values
              (skillMap (foldl addSkill (addSkill st kept) between)))
         = [kept])
  ∧ (∀ fuel options result,
       Skills.loadSkills fuel options = Value result
       ∨ Index.loadSkills fuel options = Value result →
       NoDup (map identity (skills result)))
  ∧ (∀ result st,
       allDiagnostics (addSkills result st)
       = allDiagnostics st ++ diagnostics result).
Proof.
  split_and!; [| | |apply addSkills_allDiagnostics].
  - apply addSkill_duplicate.
  - intros st kept between again Hwf Hnew Hfree Hsame.
    rewrite (addSkill_fresh _ _ Hnew Hfree). split.
    + apply addSkill_duplicate. rewrite Hsame.
      apply foldl_keeps_identities. unfold recorded. simpl. set_solver.
    + apply filter_unique.
      * apply wellFormed_foldl. by apply wellFormed_recorded.
      * apply foldl_keeps_skills. unfold recorded, JsMap.values. simpl.
        rewrite map_app, elem_of_app. right. by left.
  - intros fuel options result Hrun.
    destruct (loadSkills_wellFormed _ _ _ Hrun) as (st & Hwf & ->).
    apply Hwf.
Qed.
End Runs.

Section Scenarios.
Import Fixture.


(** C2, amended, on the second file followed by the link to it. *)
Lemma recorded_identity_dropped_witness :
  @addSkill linkedFs afterSecond linkSkill = afterSecond
  ∧ (∃ result,
       linkedRun [second; link] = Value result
       ∧ NoDup (map (@identity linkedFs) (skills result))).
Proof.
  pose proof (@recorded_identity_dropped posix linkedFs (processAt (js "/"))
                (tableYaml documents) literalMatcher) as (_ & Hstep & Hrun & _).
  split.
  - apply (Hstep initialState secondSkill [] linkSkill).
    + apply wellFormed_initial.
    + apply (bool_decide_unpack _). by vm_compute.
    + by vm_compute.
    + by vm_compute.
  - eexists. split; [by vm_compute|].
    apply (Hrun 2%nat (given [second; link])). left. by vm_compute.
Defined.

(** C2 as worded fails when the first of the two paths lost its name to
    an earlier file: the second file and the link to it resolve to the
    same file, no skill of that file is returned, and the link is the
    loser of a collision. *)
Lemma recorded_identity_dropped_counterexample :
  ∃ result,
    linkedRun [first; second; link] = Value result
    ∧ linkedRunIndex [first; second; link] = Value result
    ∧ ¬ @keptOnce linkedFs result secondSkill linkSkill.
Proof.
  eexists. split_and!; [by vm_compute|by vm_compute|].
  intros Hkept. destruct Hkept as [Hone _]; [by vm_compute|].
  vm_compute in Hone. discriminate Hone.
Qed.
End Scenarios.

(** ** The skill parser and the description gate *)

Section Parser.
Context `{NodePath, NodeFs, NodeProcess, Yaml, Ignore}.
Implicit Types (filePath source : jsstring) (skill : Skill.t).

Lemma blank_described (description : option jsstring) :
  blank description = false → trim (default [] description) ≠ [].
Proof.
  destruct description as [d|]; [|done]. simpl.
  intros [_ Ht%bool_decide_eq_false]%orb_false_iff. done.
Qed.

(** In skills.ts a blank description yields no skill, and the
    validation diagnostics are returned all the same. *)
Lemma Skills_blank_description filePath source rawContent :
  readFileSync filePath = Returns rawContent →
  blank (fm_description (Utils.parseFrontmatter rawContent).1) = true →
  let frontmatter := (Utils.parseFrontmatter rawContent).1 in
  let parentDirName := basename (dirname filePath) in
  Skills.loadSkillFromFile filePath source =
    (None,
     warn (js "description is required") filePath
       :: map (fun e => warn e filePath)
            (Skills.validateName (orElse (fm_name frontmatter) parentDirName)
               parentDirName)).
Proof.
  intros Hread Hblank. unfold Skills.loadSkillFromFile.
  rewrite Hread. cbv zeta. rewrite Hblank.
  unfold Skills.validateDescription. by rewrite Hblank.
Qed.

Lemma Skills_loadSkillFromFile_described filePath source skill ds :
  Skills.loadSkillFromFile filePath source = (Some skill, ds) →
  described skill.
Proof.
  unfold Skills.loadSkillFromFile.
  destruct (readFileSync filePath) as [rawContent|e]; [|done]. cbv zeta.
  destruct (blank _) eqn:Hblank; [done|].
  intros [= <- _]. by apply blank_described.
Qed.

Lemma push_all (Q : Skill.t → Prop) w res :
  Forall Q (Walk.skills w) → (∀ skill, res.1 = Some skill → Q skill) →
  Forall Q (Walk.skills (Walk.push w res)).
Proof.
  intros Hw Hres. simpl. apply Forall_app. split; [done|].
  destruct res.1; [|done]. constructor; eauto.
Qed.

Lemma merge_all (Q : Skill.t → Prop) w sub :
  Forall Q (Walk.skills w) → Forall Q (Walk.skills sub) →
  Forall Q (Walk.skills (Walk.merge w sub)).
Proof. intros Hw Hsub. simpl. apply Forall_app. done. Qed.

Section Walked.
Variable Q : Skill.t → Prop.
Variable recurse :
  jsstring → jsstring → bool → option Matcher → option jsstring → option Walk.t.
Hypothesis recurse_Q :
  ∀ d src i m r w, recurse d src i m r = Some w → Forall Q (Walk.skills w).
Variables (dir source : jsstring) (includeRootFiles : bool) (root : jsstring).

Lemma Skills_forEntries_skills entries acc w :
  (∀ p src skill ds, Skills.loadSkillFromFile p src = (Some skill, ds) → Q skill) →
  Forall Q (Walk.skills acc) →
  Skills.forEntries recurse dir source includeRootFiles root entries acc = Some w →
  Forall Q (Walk.skills w).
Proof.
  intros Hparse. revert acc.
  induction entries as [|entry rest IH]; intros acc Hacc Hrun; simpl in Hrun.
  - by injection Hrun as <-.
  - repeat case_match; simplify_eq; try done;
      (eapply IH; [|eassumption]); try done.
    all: first
      [ apply merge_all; eauto
      | apply push_all; [done|]; intros skill Hs;
        destruct (Skills.loadSkillFromFile _ _) as [[skill'|] ds] eqn:E;
        simplify_eq/=; eauto ].
Qed.

Lemma Index_forEntries_skills entries acc w :
  (∀ p src skill ds, Index.loadSkillFromFile p src = (Some skill, ds) → Q skill) →
  Forall Q (Walk.skills acc) →
  Index.forEntries recurse dir source includeRootFiles root entries acc = Some w →
  Forall Q (Walk.skills w).
Proof.
  intros Hparse. revert acc.
  induction entries as [|entry rest IH]; intros acc Hacc Hrun; simpl in Hrun.
  - by injection Hrun as <-.
  - repeat case_match; simplify_eq; try done;
      (eapply IH; [|eassumption]); try done.
    all: first
      [ apply merge_all; eauto
      | apply push_all; [done|]; intros skill Hs;
        destruct (Index.loadSkillFromFile _ _) as [[skill'|] ds] eqn:E;
        simplify_eq/=; eauto ].
Qed.
End Walked.

Lemma Skills_walk_skills (Q : Skill.t → Prop) fuel dir source inc ig root w :
  (∀ p src skill ds, Skills.loadSkillFromFile p src = (Some skill, ds) → Q skill) →
  Skills.loadSkillsFromDirInternal fuel dir source inc ig root = Some w →
  Forall Q (Walk.skills w).
Proof.
  intros Hparse. revert dir source inc ig root w.
  induction fuel as [|fuel IH]; intros dir source inc ig root w Hrun; [done|].
  simpl in Hrun. repeat case_match; simplify_eq; try by constructor.
  eapply Skills_forEntries_skills; [apply IH|done| |done]. by constructor.
Qed.

Lemma Index_walk_skills (Q : Skill.t → Prop) fuel dir source inc ig root w :
  (∀ p src skill ds, Index.loadSkillFromFile p src = (Some skill, ds) → Q skill) →
  Index.loadSkillsFromDir fuel dir source inc ig root = Some w →
  Forall Q (Walk.skills w).
Proof.
  intros Hparse. revert dir source inc ig root w.
  induction fuel as [|fuel IH]; intros dir source inc ig root w Hrun; [done|].
  simpl in Hrun. repeat case_match; simplify_eq; try by constructor.
  eapply Index_forEntries_skills; [apply IH|done| |done]. by constructor.
Qed.

(** Every skill in the loader's map passed the parser's gate. *)
Lemma addSkills_all (Q : Skill.t → Prop) result st :
  Forall Q (skills result) →
  Forall Q (JsMap.values (skillMap st)) →
  Forall Q (JsMap.values (skillMap (addSkills result st))).
Proof.
  unfold addSkills. intros Hres Hst.
  assert (Forall Q (JsMap.values (skillMap (pushDiagnostics (diagnostics result) st))))
    as Hst' by done.
  revert Hst'. generalize (pushDiagnostics (diagnostics result) st). clear Hst.
  induction Hres as [|skill rest Hskill _ IH]; intros st' Hst'; [done|].
  simpl. apply IH.
  destruct (addSkill_cases st' skill)
    as [[_ ->]|[(_ & e & _ & ->)|(_ & _ & ->)]]; [done|done|].
  unfold recorded, JsMap.values. simpl. rewrite map_app. apply Forall_app.
  split; [done|]. by constructor.
Qed.

Lemma Skills_loadPath_all (Q : Skill.t → Prop) fuel cwd rawPath :
  (∀ p src skill ds, Skills.loadSkillFromFile p src = (Some skill, ds) → Q skill) →
  preserves (fun st => Forall Q (JsMap.values (skillMap st)))
    (Skills.loadPath fuel cwd rawPath).
Proof.
  intros Hparse. unfold Skills.loadPath.
  destruct (negb _); [by apply preserves_modify|].
  apply preserves_tryCatch; [|intros e; by apply preserves_modify].
  apply preserves_bind; [apply preserves_call|]. intros stats.
  destruct (Stats.isDirectory stats).
  { intros st Hst. unfold mbind, M_bind, fueled.
    destruct (Skills.loadSkillsFromDirInternal _ _ _ _ _ _) as [w|] eqn:Ew; [|done].
    simpl. apply addSkills_all; [|done]. by eapply Skills_walk_skills. }
  destruct (_ && _); [|apply preserves_ret].
  destruct (Skills.loadSkillFromFile _ _) as [[skill|] ds] eqn:E; simpl;
    apply preserves_modify; [|done].
  intros st Hst. apply addSkills_all; [|done]. constructor; eauto.
Qed.

(** In skills.ts every returned skill has a description that is not
    blank. *)
Lemma Skills_loadSkills_described fuel options result :
  Skills.loadSkills fuel options = Value result →
  Forall described (skills result).
Proof.
  unfold Skills.loadSkills.
  pose proof (preserves_forEach
                (fun st => Forall described (JsMap.values (skillMap st)))
                (default [] (skillPaths options))
                (Skills.loadPath fuel (default process_cwd (cwd options)))
                (fun x => Skills_loadPath_all described fuel _ x
                            Skills_loadSkillFromFile_described)
                initialState ltac:(constructor)) as Hfinal.
  destruct (forEach _ _ initialState) as [[[]|e|] st]; [|done|done].
  by intros [= <-].
Qed.
End Parser.

(** ** Exceptions *)

Section Quiet.
Context {A B : Type}.

Lemma quiet_ret (a : A) : quiet (mret a).
Proof. by intros st e. Qed.

Lemma quiet_modify f : quiet (modify f).
Proof. by intros st e. Qed.

Lemma quiet_fueled (r : option A) : quiet (fueled r).
Proof. intros st e. by destruct r. Qed.

Lemma quiet_bind (m : M A) (k : A → M B) :
  quiet m → (∀ a, quiet (k a)) → quiet (m ≫= k).
Proof.
  intros Hm Hk st e. unfold mbind, M_bind. specialize (Hm st).
  destruct (m st) as [[a|e'|] st']; simpl in *; [apply Hk|by destruct (Hm e')|done].
Qed.

Lemma quiet_tryCatch (body : M A) (handler : jsstring → M A) :
  (∀ e, quiet (handler e)) → quiet (tryCatch body handler).
Proof.
  intros Hh st e. unfold tryCatch.
  destruct (body st) as [[a|e'|] st']; simpl; [done|apply Hh|done].
Qed.
End Quiet.

Lemma quiet_forEach {X} (xs : list X) (body : X → M unit) :
  (∀ x, quiet (body x)) → quiet (forEach xs body).
Proof.
  intros Hbody. induction xs as [|x xs IH]; [apply quiet_ret|].
  simpl. apply quiet_bind; [done|]. by intros _.
Qed.

Section Failures.
Context `{NodePath, NodeFs, NodeProcess, Yaml, Ignore}.

Lemma Skills_loadPath_quiet fuel cwd rawPath :
  quiet (Skills.loadPath fuel cwd rawPath).
Proof.
  unfold Skills.loadPath. destruct (negb _); [apply quiet_modify|].
  apply quiet_tryCatch. intros e. apply quiet_modify.
Qed.

(** skills.ts: no exception leaves [loadSkills]. *)
Lemma Skills_loadSkills_never_raises fuel options e :
  Skills.loadSkills fuel options ≠ Raised e.
Proof.
  unfold Skills.loadSkills.
  pose proof (quiet_forEach (default [] (skillPaths options))
                (Skills.loadPath fuel (default process_cwd (cwd options)))
                (Skills_loadPath_quiet fuel _) initialState) as Hq.
  destruct (forEach _ _ initialState) as [[[]|e'|] st]; [done| |done].
  by destruct (Hq e').
Qed.


(** skills.ts: a failing [statSync] costs one warning with the error's
    message, and the loop goes on. *)
Lemma Skills_stat_failure fuel cwd rawPath rest st message :
  existsSync (Skills.resolvePath cwd rawPath) = true →
  statSync (Skills.resolvePath cwd rawPath) = Throws message →
  forEach (rawPath :: rest) (Skills.loadPath fuel cwd) st =
  forEach rest (Skills.loadPath fuel cwd)
    (pushDiagnostics [warn message (Skills.resolvePath cwd rawPath)] st).
Proof.
  intros Hexists Hstat. simpl. unfold mbind, M_bind, Skills.loadPath, tryCatch, call.
  by rewrite Hexists, Hstat.
Qed.
End Failures.

Section Defects.
Import Fixture.

(** C3 fails in index.ts: a description of three spaces is reported as
    missing and the skill is produced all the same; skills.ts produces
    none. *)
Theorem Index_blank_description_kept :
  @Index.loadSkillFromFile posix blankFs (tableYaml documents)
     blankPath (js "path")
    = (Some blankSkill, [warn (js "description is required") blankPath])
  ∧ trim (Skill.description blankSkill) = []
  ∧ @Index.loadSkills posix blankFs (processAt (js "/")) (tableYaml documents)
      literalMatcher 1 (given [blankPath])
    = Value {| skills := [blankSkill];
               diagnostics :=
                 [warn (js "description is required") blankPath] |}
  ∧ @Skills.loadSkillFromFile posix blankFs (tableYaml documents)
      blankPath (js "path")
    = (None, [warn (js "description is required") blankPath]).
Proof. split_and!; by vm_compute. Qed.

(** C9 fails in index.ts: [statSync] is called outside any [try], so its
    exception leaves [loadSkills] and the remaining paths are never
    processed; skills.ts turns it into a warning and goes on. *)
Theorem Index_stat_failure_escapes :
  @existsSync goneFs gonePath = true
  ∧ @statSync goneFs gonePath
    = Throws (js "ENOENT: no such file or directory, stat")
  ∧ @Index.loadSkills posix goneFs (processAt (js "/")) (tableYaml documents)
      literalMatcher 1 (given [gonePath; first])
    = Raised (js "ENOENT: no such file or directory, stat")
  ∧ @Skills.loadSkills posix goneFs (processAt (js "/")) (tableYaml documents)
      literalMatcher 1 (given [gonePath; first])
    = Value {| skills := [firstSkill];
               diagnostics :=
                 [warn (js "ENOENT: no such file or directory, stat") gonePath] |}.
Proof. split_and!; by vm_compute. Qed.
End Defects.

(** ** The directory walker *)

Section Walker.
Context `{NodePath, NodeFs, NodeProcess, Yaml, Ignore}.
Implicit Types (dir source root : jsstring) (entry : Dirent.t) (acc w : Walk.t).

Lemma candidate_decide (includeRootFiles : bool) name :
  includeRootFiles && endsWith name (js ".md")
  || negb includeRootFiles && bool_decide (name = js "SKILL.md") = true
  ↔ candidate includeRootFiles name.
Proof.
  unfold candidate. rewrite orb_true_iff, !andb_true_iff, endsWith_true.
  rewrite negb_true_iff, bool_decide_eq_true. done.
Qed.

Lemma below_nested dir includeRootFiles d root e :
  below d false root e → below dir includeRootFiles root e.
Proof.
  destruct e as [d' i r|q|q]; simpl; [done|done|].
  intros [[? _]|Hs]; [done|by right].
Qed.

Lemma traced_log_ignored dir includeRootFiles root acc q :
  traced dir includeRootFiles root acc →
  traced dir includeRootFiles root (Walk.log (Ignored q) acc).
Proof.
  intros (tail & Ht & Hall). exists (tail ++ [Ignored q]). simpl.
  rewrite Ht. split; [done|]. apply Forall_app. split; [done|]. by constructor.
Qed.

Lemma traced_parse dir includeRootFiles root acc name res :
  traced dir includeRootFiles root acc →
  candidate includeRootFiles name →
  traced dir includeRootFiles root
    (Walk.push (Walk.log (Parsed (join dir name)) acc) res).
Proof.
  intros (tail & Ht & Hall) Hc. exists (tail ++ [Parsed (join dir name)]).
  simpl. rewrite Ht. split; [done|]. apply Forall_app. split; [done|].
  constructor; [|done]. simpl.
  destruct Hc as [[-> [stem ->]]|[_ ->]]; [left; eauto|right; eauto].
Qed.

Lemma traced_merge dir includeRootFiles root acc d sub :
  traced dir includeRootFiles root acc →
  traced d false root sub →
  traced dir includeRootFiles root (Walk.merge acc sub).
Proof.
  intros (tail & Ht & Hall) (tail' & Ht' & Hall').
  exists (tail ++ Entered d false root :: tail'). simpl. rewrite Ht, Ht'.
  split; [done|]. apply Forall_app. split; [done|].
  constructor; [done|]. eapply Forall_impl; [done|].
  intros e. apply below_nested.
Qed.

Section Entries.
Variable recurse :
  jsstring → jsstring → bool → option Matcher → option jsstring → option Walk.t.
Hypothesis recurse_traced :
  ∀ d src m root w,
    recurse d src false m (Some root) = Some w → traced d false root w.
Variables (dir source : jsstring) (includeRootFiles : bool) (root : jsstring).

Lemma Skills_forEntries_traced entries acc w :
  traced dir includeRootFiles root acc →
  Skills.forEntries recurse dir source includeRootFiles root entries acc = Some w →
  traced dir includeRootFiles root w.
Proof.
  revert acc.
  induction entries as [|entry rest IH]; intros acc Hacc Hrun; simpl in Hrun.
  - by injection Hrun as <-.
  - repeat case_match; simplify_eq; try done;
      (eapply IH; [|eassumption]); try done.
    all: first
      [ by apply traced_log_ignored
      | eapply traced_merge; eauto
      | apply traced_parse; [done|]; apply candidate_decide;
        match goal with
        | Hsel : negb _ && negb _ = false |- _ =>
            apply andb_false_iff in Hsel as [Hsel|Hsel];
            apply negb_false_iff in Hsel; rewrite Hsel;
            [done|apply orb_true_r]
        end ].
Qed.

Lemma Index_forEntries_traced entries acc w :
  traced dir includeRootFiles root acc →
  Index.forEntries recurse dir source includeRootFiles root entries acc = Some w →
  traced dir includeRootFiles root w.
Proof.
  revert acc.
  induction entries as [|entry rest IH]; intros acc Hacc Hrun; simpl in Hrun.
  - by injection Hrun as <-.
  - repeat case_match; simplify_eq; try done;
      (eapply IH; [|eassumption]); try done.
    all: first
      [ by apply traced_log_ignored
      | eapply traced_merge; eauto
      | apply traced_parse; [done|]; by apply candidate_decide ].
Qed.
End Entries.

Lemma traced_start dir includeRootFiles root ig :
  traced dir includeRootFiles root
    (Walk.mk [] [] ig [Entered dir includeRootFiles root]).
Proof. by exists []. Qed.

Lemma Skills_walk_traced fuel dir source includeRootFiles ig rootDir w :
  Skills.loadSkillsFromDirInternal fuel dir source includeRootFiles ig rootDir
    = Some w →
  traced dir includeRootFiles (default dir rootDir) w.
Proof.
  revert dir source includeRootFiles ig rootDir w.
  induction fuel as [|fuel IH]; intros dir source inc ig rootDir w Hrun; [done|].
  simpl in Hrun. repeat case_match; simplify_eq; try apply traced_start.
  eapply Skills_forEntries_traced; [|apply traced_start|done].
  intros d src m r w' Hw'. by apply IH in Hw'.
Qed.

Lemma Index_walk_traced fuel dir source includeRootFiles ig rootDir w :
  Index.loadSkillsFromDir fuel dir source includeRootFiles ig rootDir = Some w →
  traced dir includeRootFiles (default dir rootDir) w.
Proof.
  revert dir source includeRootFiles ig rootDir w.
  induction fuel as [|fuel IH]; intros dir source inc ig rootDir w Hrun; [done|].
  simpl in Hrun. repeat case_match; simplify_eq; try apply traced_start.
  eapply Index_forEntries_traced; [|apply traced_start|done].
  intros d src m r w' Hw'. by apply IH in Hw'.
Qed.

(** C6, amended: the file policy of the walker.  An entry that is a
    file (in index.ts: that is not a directory) and is not skipped by
    an earlier guard of the loop
    (a name that begins with a dot, the name [node_modules], a link
    without target, a path the matcher ignores) is handed to the skill
    parser exactly when root files count and its name ends with [.md],
    or root files do not count and its name is [SKILL.md].  For a
    directory that gets past the guards the walker, of skills.ts and of
    index.ts alike, calls itself without root files, on the matcher as
    it stands and with the same root, and goes on with the other
    entries from what the call returns, its matcher included.  So
    in a whole walk, of skills.ts or of index.ts, every nested activation
    is without root files and has the root of the first, and every file
    parsed is a [SKILL.md] or, where root files count, an [.md] file of
    the directory walked first. *)
Theorem walker_file_policy :
  (∀ recurse dir source includeRootFiles root entry rest acc,
     startsWith (Dirent.name entry) (js ".") = false →
     Dirent.name entry ≠ js "node_modules" →
     entryKind dir entry = Some (false, true) →
     ignores (Walk.ig acc) (relPathOf root dir entry) = Returns false →
     (candidate includeRootFiles (Dirent.name entry) →
      Skills.forEntries recurse dir source includeRootFiles root
        (entry :: rest) acc
      = Skills.forEntries recurse dir source includeRootFiles root rest
          (Walk.push
             (Walk.log (Parsed (join dir (Dirent.name entry))) acc)
             (Skills.loadSkillFromFile (join dir (Dirent.name entry)) source)))
     ∧ (¬ candidate includeRootFiles (Dirent.name entry) →
        Skills.forEntries recurse dir source includeRootFiles root
          (entry :: rest) acc
        = Skills.forEntries recurse dir source includeRootFiles root rest acc))
  ∧ (∀ recurse dir source includeRootFiles root entry rest acc isFile,
       startsWith (Dirent.name entry) (js ".") = false →
       Dirent.name entry ≠ js "node_modules" →
       entryKind dir entry = Some (true, isFile) →
       ignores (Walk.ig acc) (relPathOf root dir entry ++ js "/")
         = Returns false →
       Skills.forEntries recurse dir source includeRootFiles root
         (entry :: rest) acc
       = match recurse (join dir (Dirent.name entry)) source false
                 (Some (Walk.ig acc)) (Some root) with
         | None => None
         | Some subResult =>
             Skills.forEntries recurse dir source includeRootFiles root rest
               (Walk.merge acc subResult)
         end)
  ∧ (∀ recurse dir source includeRootFiles root entry rest acc isFile,
       startsWith (Dirent.name entry) (js ".") = false →
       Dirent.name entry ≠ js "node_modules" →
       entryKind dir entry = Some (false, isFile) →
       ignores (Walk.ig acc) (relPathOf root dir entry) = Returns false →
       (candidate includeRootFiles (Dirent.name entry) →
        Index.forEntries recurse dir source includeRootFiles root
          (entry :: rest) acc
        = Index.forEntries recurse dir source includeRootFiles root rest
            (Walk.push
               (Walk.log (Parsed (join dir (Dirent.name entry))) acc)
               (Index.loadSkillFromFile (join dir (Dirent.name entry)) source)))
       ∧ (¬ candidate includeRootFiles (Dirent.name entry) →
          Index.forEntries recurse dir source includeRootFiles root
            (entry :: rest) acc
          = Index.forEntries recurse dir source includeRootFiles root rest acc))
  ∧ (∀ recurse dir source includeRootFiles root entry rest acc isFile,
       startsWith (Dirent.name entry) (js ".") = false →
       Dirent.name entry ≠ js "node_modules" →
       entryKind dir entry = Some (true, isFile) →
       ignores (Walk.ig acc) (relPathOf root dir entry ++ js "/")
         = Returns false →
       Index.forEntries recurse dir source includeRootFiles root
         (entry :: rest) acc
       = match recurse (join dir (Dirent.name entry)) source false
                 (Some (Walk.ig acc)) (Some root) with
         | None => None
         | Some subResult =>
             Index.forEntries recurse dir source includeRootFiles root rest
               (Walk.merge acc subResult)
         end)
  ∧ (∀ fuel dir source includeRootFiles ig rootDir w,
       Skills.loadSkillsFromDirInternal fuel dir source includeRootFiles
         ig rootDir = Some w
       ∨ Index.loadSkillsFromDir fuel dir source includeRootFiles
           ig rootDir = Some w →
       traced dir includeRootFiles (default dir rootDir) w).
Proof.
  split_and!.
  - intros recurse dir source inc root entry rest acc Hdot Hnm Hkind Hig.
    unfold entryKind, relPathOf in *.
    assert (∀ b : bool,
              Skills.forEntries recurse dir source inc root (entry :: rest) acc
              = if negb (inc && endsWith (Dirent.name entry) (js ".md"))
                   && negb (negb inc
                            && bool_decide (Dirent.name entry = js "SKILL.md"))
                then Skills.forEntries recurse dir source inc root rest acc
                else Skills.forEntries recurse dir source inc root rest
                       (Walk.push
                          (Walk.log (Parsed (join dir (Dirent.name entry))) acc)
                          (Skills.loadSkillFromFile
                             (join dir (Dirent.name entry)) source))) as Hstep.
    { intros _. cbn [Skills.forEntries]. rewrite Hdot.
      rewrite (bool_decide_eq_false_2 _ Hnm). cbv zeta.
      rewrite Hkind. cbv iota beta. by rewrite Hig. }
    specialize (Hstep true). rewrite Hstep. rewrite <- negb_orb.
    split; intros Hc.
    + apply candidate_decide in Hc. by rewrite Hc.
    + rewrite <- candidate_decide in Hc. apply not_true_is_false in Hc.
      by rewrite Hc.
  - intros recurse dir source inc root entry rest acc isFile Hdot Hnm Hkind Hig.
    unfold entryKind, relPathOf in *.
    cbn [Skills.forEntries]. rewrite Hdot.
    rewrite (bool_decide_eq_false_2 _ Hnm). cbv zeta.
    rewrite Hkind. cbv iota beta. by rewrite Hig.
  - intros recurse dir source inc root entry rest acc isFile Hdot Hnm Hkind Hig.
    unfold relPathOf in *.
    assert (Index.forEntries recurse dir source inc root (entry :: rest) acc
            = if inc && endsWith (Dirent.name entry) (js ".md")
                 || negb inc && bool_decide (Dirent.name entry = js "SKILL.md")
              then Index.forEntries recurse dir source inc root rest
                     (Walk.push
                        (Walk.log (Parsed (join dir (Dirent.name entry))) acc)
                        (Index.loadSkillFromFile
                           (join dir (Dirent.name entry)) source))
              else Index.forEntries recurse dir source inc root rest acc)
      as Hstep.
    { cbn [Index.forEntries]. rewrite Hdot.
      rewrite (bool_decide_eq_false_2 _ Hnm). simpl orb. cbv iota zeta.
      unfold entryKind in Hkind. destruct (Dirent.isSymbolicLink entry).
      - destruct (statSync _) as [stats|e]; [|done].
        injection Hkind as -> _. cbv iota beta. by rewrite Hig.
      - injection Hkind as -> _. cbv iota beta. by rewrite Hig. }
    rewrite Hstep. split; intros Hc.
    + apply candidate_decide in Hc. by rewrite Hc.
    + rewrite <- candidate_decide in Hc. apply not_true_is_false in Hc.
      by rewrite Hc.
  - intros recurse dir source inc root entry rest acc isFile Hdot Hnm Hkind Hig.
    unfold relPathOf in *.
    cbn [Index.forEntries]. rewrite Hdot.
    rewrite (bool_decide_eq_false_2 _ Hnm). simpl orb. cbv iota zeta.
    unfold entryKind in Hkind. destruct (Dirent.isSymbolicLink entry).
    + destruct (statSync _) as [stats|e]; [|done].
      injection Hkind as -> _. cbv iota beta. by rewrite Hig.
    + injection Hkind as -> _. cbv iota beta. by rewrite Hig.
  - intros fuel dir source inc ig rootDir w [Hrun|Hrun].
    + by eapply Skills_walk_traced.
    + by eapply Index_walk_traced.
Qed.
End Walker.

Section WalkerScenarios.
Import Fixture.

(** C6 on the fixture directory: [a.md] of the walked directory is
    parsed; the directory [bar], met by either walker with the rule
    [tmp] in hand, is walked on that matcher, which comes back with the
    rule of [bar/.gitignore] after it, its [README.md] is not parsed
    and the [SKILL.md] of its directory [ok] is; and the whole walk is
    traced as stated. *)
Lemma walker_file_policy_witness :
  (Walk.trace
     <$> @Skills.forEntries posix treeFs (tableYaml documents) literalMatcher
           (fun _ _ _ _ _ => None) (js "/w") (js "path") true (js "/w")
           [file (js "a.md")] (Walk.mk [] [] [] []))
  = Some [Parsed (js "/w/a.md")]
  ∧ (∃ w,
       @Skills.forEntries posix treeFs (tableYaml documents) literalMatcher
         (@Skills.loadSkillsFromDirInternal posix treeFs (tableYaml documents)
            literalMatcher 2)
         (js "/w") (js "path") true (js "/w")
         [folder (js "bar")] (Walk.mk [] [] [js "tmp"] []) = Some w
       ∧ Walk.ig w = [js "tmp"; js "bar/foo"]
       ∧ Walk.trace w
         = [Entered (js "/w/bar") false (js "/w");
            Ignored (js "bar/foo/");
            Entered (js "/w/bar/ok") false (js "/w");
            Parsed (js "/w/bar/ok/SKILL.md")])
  ∧ (∃ w,
       @Index.forEntries posix treeFs (tableYaml documents) literalMatcher
         (@Index.loadSkillsFromDir posix treeFs (tableYaml documents)
            literalMatcher 2)
         (js "/w") (js "path") true (js "/w")
         [folder (js "bar")] (Walk.mk [] [] [js "tmp"] []) = Some w
       ∧ Walk.ig w = [js "tmp"; js "bar/foo"]
       ∧ Walk.trace w
         = [Entered (js "/w/bar") false (js "/w");
            Ignored (js "bar/foo/");
            Entered (js "/w/bar/ok") false (js "/w");
            Parsed (js "/w/bar/ok/SKILL.md")])
  ∧ (∃ w, treeWalk = Some w
          ∧ @traced posix (js "/w") true (js "/w") w).
Proof.
  pose proof (@walker_file_policy posix treeFs (tableYaml documents)
                literalMatcher) as (Hfile & Hdir & _ & Hdir' & Hwalk).
  split_and!.
  - destruct (Hfile (fun _ _ _ _ _ => None) (js "/w") (js "path") true (js "/w")
                (file (js "a.md")) [] (Walk.mk [] [] [] []))
      as [Hyes _]; [by vm_compute|by vm_compute|by vm_compute|by vm_compute|].
    rewrite Hyes; [by vm_compute|].
    left. split; [done|]. by exists (js "a").
  - rewrite (Hdir _ (js "/w") (js "path") true (js "/w") (folder (js "bar")) []
               (Walk.mk [] [] [js "tmp"] []) false);
      [|by vm_compute|by vm_compute|by vm_compute|by vm_compute].
    eexists. split_and!; [by vm_compute|by vm_compute|by vm_compute].
  - rewrite (Hdir' _ (js "/w") (js "path") true (js "/w") (folder (js "bar")) []
               (Walk.mk [] [] [js "tmp"] []) false);
      [|by vm_compute|by vm_compute|by vm_compute|by vm_compute].
    eexists. split_and!; [by vm_compute|by vm_compute|by vm_compute].
  - eexists. split; [by vm_compute|].
    apply (Hwalk 3%nat (js "/w") (js "path") true None None). left. by vm_compute.
Defined.

(** C6 as worded fails on a hidden file: [/w/.hidden.md] is a file whose
    name ends with [.md], in a directory walked with root files, and it
    is not parsed. *)
Lemma walker_file_policy_counterexample :
  (Walk.trace <$> treeWalk) = Some treeTrace
  ∧ (Walk.trace <$> treeWalkIndex) = Some treeTrace
  ∧ @readdirSync treeFs (js "/w")
    = Returns [file (js ".hidden.md"); file (js "a.md"); folder (js "bar");
               folder (js "foo")]
  ∧ ¬ @parsedIffCandidate posix treeTrace (js "/w") true (file (js ".hidden.md")).
Proof.
  split_and!; [by vm_compute|by vm_compute|by vm_compute|].
  intros Hclaim. destruct (Hclaim eq_refl) as [_ Hparsed].
  assert (Parsed (js "/w/.hidden.md") ∈ treeTrace) as Hin.
  { apply Hparsed. left. split; [done|]. by exists (js ".hidden"). }
  unfold treeTrace in Hin.
  repeat (apply elem_of_cons in Hin as [Hin|Hin];
          [vm_compute in Hin; discriminate Hin|]).
  by apply elem_of_nil in Hin.
Qed.
End WalkerScenarios.

(** ** Ignore rules *)

Section IgnoreRules.
Context `{NodePath, NodeFs, NodeProcess, Yaml, Ignore}.
Implicit Types (line prefix pattern dir root : jsstring).

Lemma truthy_false s : truthy s = false ↔ s = [].
Proof. by destruct s. Qed.

Lemma sliceFrom_tail c t : sliceFrom (c :: t) 1 = t.
Proof.
  change 1%Z with (Z.of_nat 1). rewrite sliceFrom_inside; [done|simpl; lia].
Qed.

Lemma strip_slash pattern :
  (if startsWith pattern (js "/") then sliceFrom pattern 1 else pattern)
  = withoutLeadingSlash pattern.
Proof.
  destruct pattern as [|c t]; [done|].
  change (js "/") with [47%N]. rewrite startsWith_cons, (N.eqb_sym 47 c).
  simpl. destruct (c =? 47)%N; [|done]. simpl. apply sliceFrom_tail.
Qed.

Lemma prefixIgnorePattern_skipped line prefix :
  isBlank line ∨ isComment line → prefixIgnorePattern line prefix = None.
Proof.
  unfold prefixIgnorePattern, isBlank, isComment.
  intros [->|[text ->]]; [done|]. done.
Qed.

Lemma prefixIgnorePattern_kept line prefix :
  ¬ isBlank line → ¬ isComment line →
  prefixIgnorePattern line prefix
  = Some ((patternParts line).1 ++ prefix ++ (patternParts line).2).
Proof.
  unfold prefixIgnorePattern, isBlank, isComment. intros Hb Hc.
  destruct (truthy (trim line)) eqn:Et; [|by apply truthy_false in Et].
  simpl negb. cbv iota.
  destruct (startsWith (trim line) (js "#")) eqn:Eh.
  { apply startsWith_inv in Eh. by destruct Hc. }
  simpl andb. cbv iota.
  assert (∀ q, (if truthy prefix then prefix ++ q else q) = prefix ++ q) as Hp.
  { intros q. by destruct prefix. }
  destruct line as [|c t]; [done|].
  unfold patternParts.
  change (js "!") with [33%N]. change (js "\!") with [92%N; 33%N].
  rewrite !startsWith_cons, (N.eqb_sym 33 c), (N.eqb_sym 92 c).
  change (startsWith t []) with true. rewrite andb_true_r.
  destruct (c =? 33)%N eqn:E33.
  - cbv iota. cbn [fst snd]. rewrite sliceFrom_tail, strip_slash, Hp. done.
  - cbv iota. destruct (c =? 92)%N eqn:E92; simpl andb.
    + destruct (startsWith t [33%N]) eqn:Ebang; cbv iota; cbn [fst snd].
      * rewrite sliceFrom_tail, strip_slash, Hp. done.
      * rewrite strip_slash, Hp. done.
    + cbv iota. cbn [fst snd]. rewrite strip_slash, Hp. done.
Qed.

Lemma ignorePrefix_cases dir root :
  (relative root dir = [] → ignorePrefix dir root = [])
  ∧ (relative root dir ≠ [] →
     ignorePrefix dir root = toPosixPath (relative root dir) ++ js "/")
  ∧ (sep ≠ 47%N → sep ∉ toPosixPath (relative root dir)).
Proof.
  unfold ignorePrefix. split_and!.
  - by intros ->.
  - intros Hne. by destruct (relative root dir).
  - intros Hsep. apply replaceChar_removes.
    intros Hin%list_elem_of_singleton. done.
Qed.

Lemma prefixedPatterns_elem prefix lines pattern :
  pattern ∈ prefixedPatterns prefix lines ↔
  ∃ line,
    line ∈ lines ∧ ¬ isBlank line ∧ ¬ isComment line
    ∧ pattern = (patternParts line).1 ++ prefix ++ (patternParts line).2
    ∧ pattern ≠ [].
Proof.
  unfold prefixedPatterns. rewrite list_elem_of_omap. split.
  - intros (line & Hin & Hsome). exists line. split; [done|].
    destruct (prefixIgnorePattern line prefix) as [q|] eqn:Eq; [|done].
    destruct (truthy q) eqn:Etq; [|done]. injection Hsome as ->.
    assert (¬ isBlank line ∧ ¬ isComment line) as [Hb Hc].
    { split; intros Hx;
        rewrite prefixIgnorePattern_skipped in Eq by auto; done. }
    rewrite prefixIgnorePattern_kept in Eq by done. injection Eq as <-.
    split_and!; try done. intros Hnil. by rewrite Hnil in Etq.
  - intros (line & Hin & Hb & Hc & -> & Hne). exists line. split; [done|].
    rewrite prefixIgnorePattern_kept by done.
    by destruct (_ ++ _).
Qed.

Lemma addIgnoreFile_appends dir prefix ig filename :
  addIgnoreFile dir prefix ig filename
  = ig ++ prefixedPatterns prefix (ignoreLines dir filename).
Proof.
  unfold addIgnoreFile, ignoreLines.
  destruct (existsSync _); simpl; [|by rewrite app_nil_r].
  destruct (readFileSync _) as [content|e]; [|by rewrite app_nil_r].
  destruct (prefixedPatterns prefix (splitLines content)); [|done].
  by rewrite app_nil_r.
Qed.

Lemma addIgnoreRules_appends ig dir root :
  addIgnoreRules ig dir root
  = ig ++ flat_map
            (fun filename =>
               prefixedPatterns (ignorePrefix dir root)
                 (ignoreLines dir filename))
            IGNORE_FILE_NAMES.
Proof.
  unfold addIgnoreRules, IGNORE_FILE_NAMES. simpl.
  rewrite !addIgnoreFile_appends, app_nil_r, <- !(assoc_L (++)). done.
Qed.

(** C8: ignore rules are scoped to the directory of their file.  A
    blank line or a comment gives no pattern; any other line gives its
    negation marker, then the prefix, then the pattern without the
    backslash of an escaped first [!] and without one leading slash.
    The prefix is empty when the path of the directory relative to the
    root is empty, as it is for the root itself, and is otherwise that
    path with forward slashes and a trailing slash.  Each activation of
    the walker adds to the matcher exactly the non-empty patterns so
    obtained from the lines of the three ignore files of its directory.
    So a [.gitignore] with the rule [foo] in the directory [bar] adds
    the pattern [bar/foo]; and an entry whose path the matcher ignores is
    skipped, by either walker. *)
Theorem ignore_rules_scoped :
  (∀ line prefix,
     (isBlank line ∨ isComment line → prefixIgnorePattern line prefix = None)
     ∧ (¬ isBlank line → ¬ isComment line →
        prefixIgnorePattern line prefix
        = Some ((patternParts line).1 ++ prefix ++ (patternParts line).2)))
  ∧ (∀ dir root,
       (relative root dir = [] → ignorePrefix dir root = [])
       ∧ (relative root dir ≠ [] →
          ignorePrefix dir root = toPosixPath (relative root dir) ++ js "/")
       ∧ (sep ≠ 47%N → sep ∉ toPosixPath (relative root dir)))
  ∧ (∀ fuel dir source includeRootFiles ig rootDir entries,
       existsSync dir = true →
       readdirSync dir = Returns entries →
       Skills.loadSkillsFromDirInternal (S fuel) dir source includeRootFiles
         ig rootDir
       = Skills.forEntries (Skills.loadSkillsFromDirInternal fuel)
           dir source includeRootFiles (default dir rootDir) entries
           (Walk.mk [] []
              (addIgnoreRules (default [] ig) dir (default dir rootDir))
              [Entered dir includeRootFiles (default dir rootDir)]))
  ∧ (∀ ig dir root,
       (∃ added,
          addIgnoreRules ig dir root = ig ++ added
          ∧ ∀ pattern,
              pattern ∈ added ↔
              ∃ filename line,
                filename ∈ IGNORE_FILE_NAMES
                ∧ line ∈ ignoreLines dir filename
                ∧ ¬ isBlank line ∧ ¬ isComment line
                ∧ pattern = (patternParts line).1 ++ ignorePrefix dir root
                              ++ (patternParts line).2
                ∧ pattern ≠ []))
  ∧ (∀ ig dir root,
       relative root dir = js "bar" →
       sep = 47%N ∨ sep = 92%N →
       existsSync (join dir (js ".gitignore")) = true →
       readFileSync (join dir (js ".gitignore")) = Returns (js "foo" ++ [LF]) →
       existsSync (join dir (js ".ignore")) = false →
       existsSync (join dir (js ".fdignore")) = false →
       addIgnoreRules ig dir root = ig ++ [js "bar/foo"])
  ∧ (∀ recurse dir source includeRootFiles root entry rest acc
       isDirectory isFile,
       startsWith (Dirent.name entry) (js ".") = false →
       Dirent.name entry ≠ js "node_modules" →
       entryKind dir entry = Some (isDirectory, isFile) →
       ignores (Walk.ig acc)
         (if isDirectory then relPathOf root dir entry ++ js "/"
          else relPathOf root dir entry) = Returns true →
       Skills.forEntries recurse dir source includeRootFiles root
         (entry :: rest) acc
       = Skills.forEntries recurse dir source includeRootFiles root rest
           (Walk.log
              (Ignored (if isDirectory then relPathOf root dir entry ++ js "/"
                        else relPathOf root dir entry)) acc)
       ∧ Index.forEntries recurse dir source includeRootFiles root
           (entry :: rest) acc
         = Index.forEntries recurse dir source includeRootFiles root rest
             (Walk.log
                (Ignored
                   (if isDirectory then relPathOf root dir entry ++ js "/"
                    else relPathOf root dir entry)) acc)).
Proof.
  split_and!.
  - intros line prefix. split.
    + apply prefixIgnorePattern_skipped.
    + apply prefixIgnorePattern_kept.
  - apply ignorePrefix_cases.
  - intros fuel dir source inc ig rootDir entries Hex Hread.
    cbn [Skills.loadSkillsFromDirInternal]. by rewrite Hex, Hread.
  - intros ig dir root. eexists. split; [apply addIgnoreRules_appends|].
    intros pattern. rewrite list_elem_of_In, in_flat_map. split.
    + intros (filename & Hf%list_elem_of_In & Hp%list_elem_of_In).
      apply prefixedPatterns_elem in Hp as (line & ?). by exists filename, line.
    + intros (filename & line & Hf & Hrest). exists filename.
      rewrite <- !list_elem_of_In. split; [done|].
      apply prefixedPatterns_elem. by exists line.
  - intros ig dir root Hrel Hsep Hgit Hcontent Hignore Hfd.
    rewrite addIgnoreRules_appends. f_equal.
    unfold IGNORE_FILE_NAMES, ignoreLines, ignorePrefix, toPosixPath.
    simpl flat_map. rewrite Hgit, Hcontent, Hignore, Hfd, Hrel.
    destruct Hsep as [-> | ->]; by vm_compute.
  - intros recurse dir source inc root entry rest acc isDirectory isFile
      Hdot Hnm Hkind Hig.
    unfold relPathOf in *. split.
    + unfold entryKind in Hkind.
      cbn [Skills.forEntries]. rewrite Hdot.
      rewrite (bool_decide_eq_false_2 _ Hnm). cbv zeta.
      rewrite Hkind. destruct isDirectory; cbv iota beta; by rewrite Hig.
    + cbn [Index.forEntries]. rewrite Hdot.
      rewrite (bool_decide_eq_false_2 _ Hnm). simpl orb. cbv iota zeta.
      unfold entryKind in Hkind. destruct (Dirent.isSymbolicLink entry).
      * destruct (statSync _) as [stats|e]; [|done].
        injection Hkind as -> _.
        destruct isDirectory; cbv iota beta; by rewrite Hig.
      * injection Hkind as -> _.
        destruct isDirectory; cbv iota beta; by rewrite Hig.
Qed.
End IgnoreRules.

Section IgnoreScenario.
Import Fixture.

(** C8 on the fixture directory: the rule [foo] of [/w/bar/.gitignore]
    enters the matcher as [bar/foo]; the walk drops [bar/foo] and still
    visits [foo] at the root. *)
Lemma ignore_rules_scoped_witness :
  @addIgnoreRules posix treeFs [] (js "/w/bar") (js "/w") = [js "bar/foo"]
  ∧ @addIgnoreRules posix treeFs [] (js "/w") (js "/w") = []
  ∧ (Walk.ig <$> treeWalk) = Some [js "bar/foo"]
  ∧ (Walk.trace <$> treeWalk) = Some treeTrace
  ∧ (Walk.trace <$> treeWalkIndex) = Some treeTrace
  ∧ Ignored (js "bar/foo/") ∈ treeTrace
  ∧ Entered (js "/w/foo") false (js "/w") ∈ treeTrace
  ∧ Parsed (js "/w/foo/SKILL.md") ∈ treeTrace
  ∧ Parsed (js "/w/bar/foo/SKILL.md") ∉ treeTrace.
Proof.
  pose proof (@ignore_rules_scoped posix treeFs (tableYaml documents)
                literalMatcher) as (_ & Hprefix & _ & _ & Hrule & _).
  split_and!.
  - apply (Hrule [] (js "/w/bar") (js "/w")); try by vm_compute. by left.
  - rewrite addIgnoreRules_appends.
    rewrite (proj1 (Hprefix (js "/w") (js "/w"))); by vm_compute.
  - by vm_compute.
  - by vm_compute.
  - by vm_compute.
  - unfold treeTrace. do 3 right. left.
  - unfold treeTrace. do 6 right. left.
  - unfold treeTrace. do 7 right. left.
  - intros Hin. unfold treeTrace in Hin.
    repeat (apply elem_of_cons in Hin as [Hin|Hin];
            [vm_compute in Hin; discriminate Hin|]).
    by apply elem_of_nil in Hin.
Defined.
End IgnoreScenario.

(** ** Fuel *)

Section Fuel.
Context `{NodePath, NodeFs, NodeProcess, Yaml, Ignore}.

(** The loop over the entries returns as soon as the calls it makes on
    the directories among them return. *)
Lemma Skills_forEntries_returns recurse dir source includeRootFiles root
    entries acc :
  (∀ entry src inc m r,
     entry ∈ entries →
     is_Some (recurse (join dir (Dirent.name entry)) src inc m r)) →
  is_Some (Skills.forEntries recurse dir source includeRootFiles root
             entries acc).
Proof.
  revert acc. induction entries as [|entry rest IH]; intros acc Hrec; [done|].
  assert (∀ acc', is_Some (Skills.forEntries recurse dir source
                             includeRootFiles root rest acc')) as Hrest.
  { intros acc'. apply IH. intros e src inc m r He. apply Hrec. by right. }
  cbn [Skills.forEntries].
  repeat case_match; simplify_eq; try done; try apply Hrest.
  all: match goal with
       | Hn : ?r _ _ _ _ _ = None |- _ =>
           destruct (Hrec entry source false (Some (Walk.ig acc)) (Some root))
             as [w Hw]; [by left|]; congruence
       end.
Qed.

Lemma Skills_forEntries_mono (rec1 rec2 :
    jsstring → jsstring → bool → option Matcher → option jsstring
    → option Walk.t) dir source includeRootFiles root entries acc w :
  (∀ d src inc m r w', rec1 d src inc m r = Some w' →
                       rec2 d src inc m r = Some w') →
  Skills.forEntries rec1 dir source includeRootFiles root entries acc = Some w →
  Skills.forEntries rec2 dir source includeRootFiles root entries acc = Some w.
Proof.
  intros Hrec. revert acc.
  induction entries as [|entry rest IH]; intros acc Hrun; [done|].
  cbn [Skills.forEntries] in *.
  repeat (case_match; simplify_eq; try done); eauto.
  all: match goal with
       | H1 : ?r _ _ _ _ _ = Some _ |- _ => apply Hrec in H1
       end; simplify_eq; eauto.
Qed.

(** More fuel never changes a result. *)
Lemma Skills_walk_mono fuel extra dir source includeRootFiles ig rootDir w :
  Skills.loadSkillsFromDirInternal fuel dir source includeRootFiles ig rootDir
    = Some w →
  Skills.loadSkillsFromDirInternal (fuel + extra) dir source includeRootFiles
    ig rootDir = Some w.
Proof.
  revert dir source includeRootFiles ig rootDir w.
  induction fuel as [|fuel IH]; intros dir source inc ig rootDir w Hrun; [done|].
  cbn [Skills.loadSkillsFromDirInternal Nat.add] in *.
  repeat (case_match; simplify_eq; try done).
  eapply Skills_forEntries_mono; [|done]. intros. by apply IH.
Qed.

(** A walk of a finite tree returns, given enough fuel. *)
Lemma Skills_walk_returns dir :
  finiteBelow dir →
  ∃ fuel, ∀ source includeRootFiles ig rootDir,
    is_Some (Skills.loadSkillsFromDirInternal fuel dir source
               includeRootFiles ig rootDir).
Proof.
  induction 1 as [dir _ IH].
  assert (∀ entries : list Dirent.t,
            (∀ entry, entry ∈ entries →
               ∃ fuel, ∀ source inc ig rootDir,
                 is_Some (Skills.loadSkillsFromDirInternal fuel
                            (join dir (Dirent.name entry)) source inc ig rootDir)) →
            ∃ fuel, ∀ entry, entry ∈ entries →
              ∀ source inc ig rootDir,
                is_Some (Skills.loadSkillsFromDirInternal fuel
                           (join dir (Dirent.name entry)) source inc ig rootDir))
    as Hbound.
  { induction entries as [|entry rest IHrest]; intros Hall.
    - exists 0%nat. intros entry Hin. by apply elem_of_nil in Hin.
    - destruct (Hall entry) as [f1 Hf1]; [by left|].
      destruct IHrest as [f2 Hf2]; [intros e He; apply Hall; by right|].
      exists (f1 + f2)%nat. intros e [->|He]%elem_of_cons source inc ig rootDir.
      + destruct (Hf1 source inc ig rootDir) as [w Hw].
        exists w. by apply Skills_walk_mono.
      + destruct (Hf2 e He source inc ig rootDir) as [w Hw].
        exists w. rewrite Nat.add_comm. by apply Skills_walk_mono. }
  destruct (readdirSync dir) as [entries|e] eqn:Eread.
  - destruct (Hbound entries) as [fuel Hfuel]; [intros entry Hin; by eapply IH|].
    exists (S fuel). intros source inc ig rootDir.
    cbn [Skills.loadSkillsFromDirInternal]. rewrite Eread.
    destruct (negb (existsSync dir)); [done|].
    apply Skills_forEntries_returns. intros entry src i m r Hin. by apply Hfuel.
  - exists 1%nat. intros source inc ig rootDir.
    cbn [Skills.loadSkillsFromDirInternal]. rewrite Eread.
    by destruct (negb (existsSync dir)).
Qed.

Lemma Skills_loadPath_returns fuel cwd rawPath st :
  (∀ source includeRootFiles ig rootDir,
     is_Some (Skills.loadSkillsFromDirInternal fuel
                (Skills.resolvePath cwd rawPath) source includeRootFiles
                ig rootDir)) →
  (Skills.loadPath fuel cwd rawPath st).1 = Value tt.
Proof.
  intros Hwalk. unfold Skills.loadPath.
  destruct (negb _); [done|].
  unfold tryCatch, mbind, M_bind, call, fueled.
  destruct (statSync _) as [stats|e]; [|done].
  destruct (Stats.isDirectory stats).
  - destruct (Hwalk (js "path") true None None) as [w ->]. done.
  - destruct (_ && _); [|done]. by destruct (Skills.loadSkillFromFile _ _).1.
Qed.

(** skills.ts: over finite directory trees [loadSkills] returns a value,
    given enough fuel. *)
Lemma Skills_loadSkills_returns options :
  (∀ rawPath,
     rawPath ∈ default [] (skillPaths options) →
     finiteBelow
       (Skills.resolvePath (default process_cwd (cwd options)) rawPath)) →
  ∃ fuel result, Skills.loadSkills fuel options = Value result.
Proof.
  intros Hfinite. unfold Skills.loadSkills.
  set (base := default process_cwd (cwd options)) in *.
  assert (∃ fuel, ∀ rawPath,
            rawPath ∈ default [] (skillPaths options) →
            ∀ source inc ig rootDir,
              is_Some (Skills.loadSkillsFromDirInternal fuel
                         (Skills.resolvePath base rawPath) source inc ig rootDir))
    as [fuel Hfuel].
  { induction (default [] (skillPaths options)) as [|rawPath rest IH].
    - exists 0%nat. intros rawPath Hin. by apply elem_of_nil in Hin.
    - destruct (Skills_walk_returns _ (Hfinite rawPath ltac:(by left)))
        as [f1 Hf1].
      destruct IH as [f2 Hf2]; [intros q Hq; apply Hfinite; by right|].
      exists (f1 + f2)%nat. intros q [->|Hq]%elem_of_cons source inc ig rootDir.
      + destruct (Hf1 source inc ig rootDir) as [w Hw].
        exists w. by apply Skills_walk_mono.
      + destruct (Hf2 q Hq source inc ig rootDir) as [w Hw].
        exists w. rewrite Nat.add_comm. by apply Skills_walk_mono. }
  exists fuel.
  assert (∀ paths st,
            (∀ q, q ∈ paths → q ∈ default [] (skillPaths options)) →
            (forEach paths (Skills.loadPath fuel base) st).1 = Value tt)
    as Hloop.
  { induction paths as [|q rest IH]; intros st Hsub; [done|].
    simpl. unfold mbind, M_bind.
    pose proof (Skills_loadPath_returns fuel base q st
                  (Hfuel q (Hsub q ltac:(by left)))) as Hq.
    destruct (Skills.loadPath fuel base q st) as [[[]|e|] st'];
      simpl in Hq; try done.
    apply IH. intros q' Hq'. apply Hsub. by right. }
  specialize (Hloop (default [] (skillPaths options)) initialState
                ltac:(done)).
  destruct (forEach _ _ initialState) as [[[]|e|] st]; simpl in Hloop; try done.
  by eexists.
Qed.
End Fuel.

Section FuelIndex.
Context `{NodePath, NodeFs, NodeProcess, Yaml, Ignore}.

Lemma Index_forEntries_returns recurse dir source includeRootFiles root
    entries acc :
  (∀ entry src inc m r,
     entry ∈ entries →
     is_Some (recurse (join dir (Dirent.name entry)) src inc m r)) →
  is_Some (Index.forEntries recurse dir source includeRootFiles root
             entries acc).
Proof.
  revert acc. induction entries as [|entry rest IH]; intros acc Hrec; [done|].
  assert (∀ acc', is_Some (Index.forEntries recurse dir source
                             includeRootFiles root rest acc')) as Hrest.
  { intros acc'. apply IH. intros e src inc m r He. apply Hrec. by right. }
  cbn [Index.forEntries].
  repeat case_match; simplify_eq; try done; try apply Hrest.
  all: match goal with
       | Hn : ?r _ _ _ _ _ = None |- _ =>
           destruct (Hrec entry source false (Some (Walk.ig acc)) (Some root))
             as [w Hw]; [by left|]; congruence
       end.
Qed.

Lemma Index_forEntries_mono (rec1 rec2 :
    jsstring → jsstring → bool → option Matcher → option jsstring
    → option Walk.t) dir source includeRootFiles root entries acc w :
  (∀ d src inc m r w', rec1 d src inc m r = Some w' →
                       rec2 d src inc m r = Some w') →
  Index.forEntries rec1 dir source includeRootFiles root entries acc = Some w →
  Index.forEntries rec2 dir source includeRootFiles root entries acc = Some w.
Proof.
  intros Hrec. revert acc.
  induction entries as [|entry rest IH]; intros acc Hrun; [done|].
  cbn [Index.forEntries] in *.
  repeat (case_match; simplify_eq; try done); eauto.
  all: match goal with
       | H1 : ?r _ _ _ _ _ = Some _ |- _ => apply Hrec in H1
       end; simplify_eq; eauto.
Qed.

Lemma Index_walk_mono fuel extra dir source includeRootFiles ig rootDir w :
  Index.loadSkillsFromDir fuel dir source includeRootFiles ig rootDir = Some w →
  Index.loadSkillsFromDir (fuel + extra) dir source includeRootFiles
    ig rootDir = Some w.
Proof.
  revert dir source includeRootFiles ig rootDir w.
  induction fuel as [|fuel IH]; intros dir source inc ig rootDir w Hrun; [done|].
  cbn [Index.loadSkillsFromDir Nat.add] in *.
  repeat (case_match; simplify_eq; try done).
  eapply Index_forEntries_mono; [|done]. intros. by apply IH.
Qed.

Lemma Index_walk_returns dir :
  finiteBelow dir →
  ∃ fuel, ∀ source includeRootFiles ig rootDir,
    is_Some (Index.loadSkillsFromDir fuel dir source includeRootFiles
               ig rootDir).
Proof.
  induction 1 as [dir _ IH].
  assert (∀ entries : list Dirent.t,
            (∀ entry, entry ∈ entries →
               ∃ fuel, ∀ source inc ig rootDir,
                 is_Some (Index.loadSkillsFromDir fuel
                            (join dir (Dirent.name entry)) source inc ig rootDir)) →
            ∃ fuel, ∀ entry, entry ∈ entries →
              ∀ source inc ig rootDir,
                is_Some (Index.loadSkillsFromDir fuel
                           (join dir (Dirent.name entry)) source inc ig rootDir))
    as Hbound.
  { induction entries as [|entry rest IHrest]; intros Hall.
    - exists 0%nat. intros entry Hin. by apply elem_of_nil in Hin.
    - destruct (Hall entry) as [f1 Hf1]; [by left|].
      destruct IHrest as [f2 Hf2]; [intros e He; apply Hall; by right|].
      exists (f1 + f2)%nat. intros e [->|He]%elem_of_cons source inc ig rootDir.
      + destruct (Hf1 source inc ig rootDir) as [w Hw].
        exists w. by apply Index_walk_mono.
      + destruct (Hf2 e He source inc ig rootDir) as [w Hw].
        exists w. rewrite Nat.add_comm. by apply Index_walk_mono. }
  destruct (readdirSync dir) as [entries|e] eqn:Eread.
  - destruct (Hbound entries) as [fuel Hfuel]; [intros entry Hin; by eapply IH|].
    exists (S fuel). intros source inc ig rootDir.
    cbn [Index.loadSkillsFromDir]. rewrite Eread.
    destruct (negb (existsSync dir)); [done|].
    apply Index_forEntries_returns. intros entry src i m r Hin. by apply Hfuel.
  - exists 1%nat. intros source inc ig rootDir.
    cbn [Index.loadSkillsFromDir]. rewrite Eread.
    by destruct (negb (existsSync dir)).
Qed.

(** index.ts: over finite directory trees the model of [loadSkills]
    does not run out of fuel; it returns a value or raises. *)
Lemma Index_loadSkills_completes options :
  (∀ rawPath,
     rawPath ∈ default [] (skillPaths options) →
     finiteBelow
       (Index.resolvePath (default process_cwd (cwd options)) rawPath)) →
  ∃ fuel, Index.loadSkills fuel options ≠ OutOfFuel.
Proof.
  intros Hfinite. unfold Index.loadSkills.
  set (base := default process_cwd (cwd options)) in *.
  assert (∃ fuel, ∀ rawPath,
            rawPath ∈ default [] (skillPaths options) →
            ∀ source inc ig rootDir,
              is_Some (Index.loadSkillsFromDir fuel
                         (Index.resolvePath base rawPath) source inc ig rootDir))
    as [fuel Hfuel].
  { induction (default [] (skillPaths options)) as [|rawPath rest IH].
    - exists 0%nat. intros rawPath Hin. by apply elem_of_nil in Hin.
    - destruct (Index_walk_returns _ (Hfinite rawPath ltac:(by left)))
        as [f1 Hf1].
      destruct IH as [f2 Hf2]; [intros q Hq; apply Hfinite; by right|].
      exists (f1 + f2)%nat. intros q [->|Hq]%elem_of_cons source inc ig rootDir.
      + destruct (Hf1 source inc ig rootDir) as [w Hw].
        exists w. by apply Index_walk_mono.
      + destruct (Hf2 q Hq source inc ig rootDir) as [w Hw].
        exists w. rewrite Nat.add_comm. by apply Index_walk_mono. }
  exists fuel.
  assert (∀ paths st,
            (∀ q, q ∈ paths → q ∈ default [] (skillPaths options)) →
            (forEach paths (Index.loadPath fuel base) st).1 ≠ OutOfFuel)
    as Hloop.
  { induction paths as [|q rest IH]; intros st Hsub; [done|].
    simpl. unfold mbind, M_bind.
    assert ((Index.loadPath fuel base q st).1 ≠ OutOfFuel) as Hq.
    { unfold Index.loadPath. destruct (negb _); [done|].
      unfold mbind, M_bind, call, fueled.
      destruct (statSync _) as [stats|e]; [|done].
      destruct (Stats.isDirectory stats).
      - destruct (Hfuel q (Hsub q ltac:(by left)) (js "path") true None None)
          as [w ->]. done.
      - destruct (_ && _); [|done]. by destruct (Index.loadSkillFromFile _ _).1. }
    destruct (Index.loadPath fuel base q st) as [[[]|e|] st'];
      simpl in Hq; try done.
    apply IH. intros q' Hq'. apply Hsub. by right. }
  specialize (Hloop (default [] (skillPaths options)) initialState
                ltac:(done)).
  by destruct (forEach _ _ initialState) as [[[]|e|] st].
Qed.
End FuelIndex.

Section FuelScenario.
Import Fixture.

(** The fixture directory is a finite tree, and two units of fuel above
    its depth suffice. *)
Lemma tree_finite : @finiteBelow posix treeFs (js "/w").
Proof.
  repeat (constructor; intros entries entry Hread Hin;
          vm_compute in Hread;
          first [ discriminate Hread
                | injection Hread as <-;
                  repeat (apply elem_of_cons in Hin as [->|Hin]);
                  try (by apply elem_of_nil in Hin) ]).
Qed.

Lemma tree_loadSkills_returns :
  ∃ fuel result,
    @Skills.loadSkills posix treeFs (processAt (js "/")) (tableYaml documents)
      literalMatcher fuel (given [js "/w"]) = Value result.
Proof.
  apply (@Skills_loadSkills_returns posix treeFs (processAt (js "/"))
           (tableYaml documents) literalMatcher (given [js "/w"])).
  intros rawPath ->%list_elem_of_singleton. apply tree_finite.
Qed.
End FuelScenario.

(** ** The package's tests, run on the embedding *)

Section PackageTests.
Import Fixture.

(** should load a simple skill from a markdown file *)
Example test_simple_skill :
  ∃ skill ds,
    testRun [js "/tmp/x/test-skill.md"]
    = Value {| skills := [skill]; diagnostics := ds |}
    ∧ Skill.name skill = js "test-skill"
    ∧ Skill.description skill = js "A test skill".
Proof. do 2 eexists. split_and!; by vm_compute. Qed.

(** should load a skill from a subdirectory with SKILL.md *)
Example test_subdirectory_skill :
  ∃ skill ds,
    testRun [js "/tmp/y"] = Value {| skills := [skill]; diagnostics := ds |}
    ∧ Skill.name skill = js "complex-skill".
Proof. do 2 eexists. split_and!; by vm_compute. Qed.

(** should generate correct XML for prompt *)
Example test_prompt_xml :
  let xml := formatSkillsForPrompt [fooSkill] in
  includes xml (js "<available_skills>") = true
  ∧ includes xml (js "<name>foo</name>") = true
  ∧ includes xml (js "<description>bar</description>") = true.
Proof. split_and!; by vm_compute. Qed.
End PackageTests.

(* ================================================================== *)
(** * Part III: whole calls, and further properties of the code        *)
(* ================================================================== *)

(** ** utils.ts: line endings and frontmatter *)

Section FrontmatterMore.
Implicit Types s p content yaml rest body : jsstring.

Lemma lineEndingsToLF_fixed s : CR ∉ s → lineEndingsToLF s = s.
Proof.
  induction s as [|c s IH]; [done|].
  intros [Hc Hs]%not_elem_of_cons. simpl.
  destruct (N.eqb_spec c CR) as [->|_]; [done|]. by rewrite IH.
Qed.

Lemma normalizeNewlines_fixed s : CR ∉ s → Utils.normalizeNewlines s = s.
Proof. rewrite normalizeNewlines_one_pass. apply lineEndingsToLF_fixed. Qed.

(** X1: bringing line endings to LF a second time changes nothing, so
    [extractFrontmatter] gives the same answer on a text and on its
    normalised form. *)
Theorem normalizeNewlines_idempotent content :
  Utils.normalizeNewlines (Utils.normalizeNewlines content)
  = Utils.normalizeNewlines content
  ∧ Utils.extractFrontmatter (Utils.normalizeNewlines content)
    = Utils.extractFrontmatter content.
Proof.
  assert (Utils.normalizeNewlines (Utils.normalizeNewlines content)
          = Utils.normalizeNewlines content) as Hidem
    by apply normalizeNewlines_fixed, normalizeNewlines_no_CR.
  split; [done|]. unfold Utils.extractFrontmatter. by rewrite Hidem.
Qed.

(** The result of [extractFrontmatter] when the first closing delimiter
    at or after offset 3 is at [e]. *)
Lemma extractFrontmatter_found content e :
  let normalized := Utils.normalizeNewlines content in
  startsWith normalized (js "---") = true →
  occursAt closing normalized e →
  (∀ i, (i < e)%nat → ¬ occursAt closing normalized i) →
  Utils.extractFrontmatter content =
    (Some (take (e - 4) (drop 4 normalized)), trim (drop (e + 4) normalized)).
Proof.
  intros normalized Hs Ho Hmin.
  pose proof (closing_not_in_marker _ _ Hs Ho) as He.
  pose proof (occursAt_length _ _ _ Ho) as Hlen. simpl in Hlen.
  unfold Utils.extractFrontmatter. fold normalized.
  rewrite Hs. simpl negb. cbv iota.
  rewrite (indexOf_found _ e) by done.
  destruct (Z.eqb_spec (Z.of_nat e) (-1)); [lia|].
  change 4%Z with (Z.of_nat 4). rewrite <- Nat2Z.inj_add.
  rewrite slice_inside, sliceFrom_inside by lia. done.
Qed.

(** Conversely, a block is returned only in that case. *)
Lemma extractFrontmatter_Some content yaml body :
  let normalized := Utils.normalizeNewlines content in
  Utils.extractFrontmatter content = (Some yaml, body) →
  ∃ e,
    startsWith normalized (js "---") = true
    ∧ occursAt closing normalized e
    ∧ (∀ i, (i < e)%nat → ¬ occursAt closing normalized i)
    ∧ yaml = take (e - 4) (drop 4 normalized)
    ∧ body = trim (drop (e + 4) normalized).
Proof.
  intros normalized Hx.
  destruct (startsWith normalized (js "---")) eqn:Hs.
  2:{ unfold Utils.extractFrontmatter in Hx. fold normalized in Hx.
      by rewrite Hs in Hx. }
  destruct (search (drop 3 normalized) closing) as [i|] eqn:Es.
  - pose proof (startsWith_length _ _ Hs) as Hlen. simpl in Hlen.
    apply search_Some in Es as [Ho Hmin].
    apply occursAt_shift in Ho; [|done].
    exists (3 + i)%nat.
    assert (∀ j, (j < 3 + i)%nat → ¬ occursAt closing normalized j) as Hmin'.
    { intros j Hj Hoj.
      pose proof (closing_not_in_marker _ _ Hs Hoj) as H3.
      apply (Hmin (j - 3)%nat); [lia|].
      apply occursAt_shift; [done|]. by replace (3 + (j - 3))%nat with j by lia. }
    rewrite (extractFrontmatter_found content (3 + i)) in Hx by done.
    injection Hx as <- <-. done.
  - unfold Utils.extractFrontmatter in Hx. fold normalized in Hx.
    rewrite Hs in Hx. simpl negb in Hx. cbv iota in Hx.
    rewrite indexOf_missing in Hx; [done|done|].
    pose proof (startsWith_length _ _ Hs) as Hlen. simpl in Hlen.
    rewrite search_None in Es. intros j Hoj.
    pose proof (closing_not_in_marker _ _ Hs Hoj) as H3.
    apply (Es (j - 3)%nat). apply occursAt_shift; [done|].
    by replace (3 + (j - 3))%nat with j by lia.
Qed.

Lemma occursAt_take p s k i : occursAt p (take k s) i → occursAt p s i.
Proof.
  intros (b & a & Ht & Hb). exists b, (a ++ drop k s). split; [|done].
  rewrite <- (take_drop k s) at 1. rewrite Ht. by rewrite <- !(assoc_L (++)).
Qed.

Lemma elem_take {A} (x : A) k (l : list A) : x ∈ take k l → x ∈ l.
Proof. intros Hin. rewrite <- (take_drop k l), elem_of_app. by left. Qed.

Lemma elem_drop {A} (x : A) k (l : list A) : x ∈ drop k l → x ∈ l.
Proof. intros Hin. rewrite <- (take_drop k l), elem_of_app. by right. Qed.

(** *** Trimming *)

Lemma trimStart_suffix s :
  ∃ ws, s = ws ++ trimStart s ∧ Forall (fun c => isWhiteSpace c = true) ws.
Proof.
  induction s as [|c s (ws & Hs & Hws)]; [by exists []|]. simpl.
  destruct (isWhiteSpace c) eqn:Ec.
  - exists (c :: ws). split; [by rewrite <- app_comm_cons, <- Hs|by constructor].
  - by exists [].
Qed.

Lemma trimStart_head s :
  match trimStart s with [] => True | c :: _ => isWhiteSpace c = false end.
Proof.
  induction s as [|c s IH]; [done|]. simpl.
  destruct (isWhiteSpace c) eqn:Ec; [done|]. by rewrite Ec.
Qed.

Lemma trimStart_fixed s :
  match s with [] => True | c :: _ => isWhiteSpace c = false end →
  trimStart s = s.
Proof. destruct s as [|c s]; [done|]. simpl. by intros ->. Qed.

Lemma trimStart_idempotent s : trimStart (trimStart s) = trimStart s.
Proof. apply trimStart_fixed, trimStart_head. Qed.

Lemma trimEnd_prefix s :
  ∃ ws, s = trimEnd s ++ ws ∧ Forall (fun c => isWhiteSpace c = true) ws.
Proof.
  destruct (trimStart_suffix (rev s)) as (ws & Hs & Hws).
  exists (rev ws). split; [|by apply Forall_rev].
  unfold trimEnd. rewrite <- rev_app_distr, <- Hs. by rewrite rev_involutive.
Qed.

Lemma trimEnd_idempotent s : trimEnd (trimEnd s) = trimEnd s.
Proof.
  unfold trimEnd. by rewrite rev_involutive, trimStart_idempotent.
Qed.

Lemma trimEnd_head s :
  match s with [] => True | c :: _ => isWhiteSpace c = false end →
  match trimEnd s with [] => True | c :: _ => isWhiteSpace c = false end.
Proof.
  intros Hs. destruct (trimEnd_prefix s) as (ws & Heq & Hws).
  destruct (trimEnd s) as [|c t]; [done|].
  rewrite Heq in Hs. done.
Qed.

Lemma trim_idempotent s : trim (trim s) = trim s.
Proof.
  unfold trim.
  rewrite (trimStart_fixed (trimEnd (trimStart s)))
    by apply trimEnd_head, trimStart_head.
  apply trimEnd_idempotent.
Qed.

Lemma trim_elem c s : c ∈ trim s → c ∈ s.
Proof.
  unfold trim. intros Hin.
  destruct (trimStart_suffix s) as (ws & Hs & _).
  destruct (trimEnd_prefix (trimStart s)) as (ws' & Hs' & _).
  rewrite Hs, Hs'. rewrite !elem_of_app. auto.
Qed.

(** X2: whenever [extractFrontmatter] returns a block, neither the
    block nor the body holds a carriage return, the block holds no
    newline followed by three hyphens, and the body has no white space
    at either end. *)
Theorem extractFrontmatter_block_clean content yaml body :
  Utils.extractFrontmatter content = (Some yaml, body) →
  (CR ∉ yaml) ∧ (CR ∉ body)
  ∧ (∀ i, ¬ occursAt closing yaml i)
  ∧ trim body = body.
Proof.
  intros (e & Hs & Ho & Hmin & -> & ->)%extractFrontmatter_Some.
  pose proof (normalizeNewlines_no_CR content) as Hcr.
  split_and!.
  - intros Hin%elem_take%elem_drop. done.
  - intros Hin%trim_elem%elem_drop. done.
  - intros i Hi. pose proof (occursAt_length _ _ _ Hi) as Hlen.
    rewrite length_take in Hlen. simpl in Hlen.
    apply occursAt_take in Hi.
    apply occursAt_shift in Hi.
    + apply (Hmin (4 + i)%nat); [lia|done].
    + rewrite length_drop in Hlen. lia.
  - apply trim_idempotent.
Qed.

(** In a text put together from a block without delimiter line and a
    rest, the first closing delimiter is the one put there. *)
Lemma assembled_first yaml rest i :
  delimiterFree yaml → (i < 4 + length yaml)%nat →
  ¬ occursAt closing (assembled yaml rest) i.
Proof.
  intros Hfree Hi Ho.
  assert (startsWith (assembled yaml rest) (js "---") = true) as Hs by done.
  pose proof (closing_not_in_marker _ _ Hs Ho) as H3.
  apply occursAt_drop in Ho as [_ Ho].
  replace i with (3 + (i - 3))%nat in Ho by lia.
  rewrite <- drop_drop in Ho.
  change (drop 3 (assembled yaml rest)) with ((LF :: yaml) ++ closing ++ rest) in Ho.
  rewrite drop_app_le in Ho by (simpl; lia).
  apply (Hfree (i - 3)%nat). apply occursAt_drop. split; [simpl; lia|].
  assert (length (drop (i - 3) (LF :: yaml)) ≠ 0)%nat as Hlen
    by (rewrite length_drop; simpl; lia).
  destruct (drop (i - 3) (LF :: yaml)) as [|d1 [|d2 [|d3 [|d4 t]]]];
    [done| | | |];
    unfold closing in *; change (js "---") with [45%N; 45%N; 45%N] in *;
    simpl in *; [| | |exact Ho];
    repeat (apply andb_true_iff in Ho as [? Ho]); done.
Qed.

Lemma assembled_no_CR yaml rest :
  (CR ∉ yaml) → (CR ∉ rest) → CR ∉ assembled yaml rest.
Proof.
  intros Hy Hr. unfold assembled.
  rewrite !not_elem_of_app. split_and!; [|done| |done];
    apply (bool_decide_unpack _); by vm_compute.
Qed.

Lemma extractFrontmatter_assembled yaml rest :
  (CR ∉ yaml) → (CR ∉ rest) → delimiterFree yaml →
  Utils.extractFrontmatter (assembled yaml rest) = (Some yaml, trim rest).
Proof.
  intros Hy Hr Hfree.
  assert (Utils.normalizeNewlines (assembled yaml rest) = assembled yaml rest)
    as Hn by by apply normalizeNewlines_fixed, assembled_no_CR.
  rewrite (extractFrontmatter_found _ (4 + length yaml)); rewrite ?Hn.
  - replace (4 + length yaml - 4)%nat with (length yaml) by lia.
    change (drop 4 (assembled yaml rest)) with (yaml ++ closing ++ rest).
    rewrite take_app_length.
    replace (4 + length yaml + 4)%nat with (4 + (length yaml + 4))%nat by lia.
    rewrite <- drop_drop.
    change (drop 4 (assembled yaml rest)) with (yaml ++ closing ++ rest).
    rewrite <- drop_drop, drop_app_length. done.
  - done.
  - exists (opening ++ yaml), rest. split.
    + unfold assembled. by rewrite <- !(assoc_L (++)).
    + rewrite length_app. done.
  - intros i Hi. by apply assembled_first.
Qed.

Lemma normalizeNewlines_withCRLF s :
  CR ∉ s → Utils.normalizeNewlines (withCRLF s) = s.
Proof.
  rewrite normalizeNewlines_one_pass. unfold withCRLF.
  induction s as [|c s IH]; [done|].
  intros [Hc Hs]%not_elem_of_cons. rewrite replaceChar_cons.
  destruct (N.eqb_spec c LF) as [->|Hlf].
  - simpl. by rewrite IH.
  - simpl. destruct (N.eqb_spec c CR) as [->|_]; [done|]. by rewrite IH.
Qed.

(** X3: round trip.  A block without carriage return and without a
    line that begins with three hyphens, put between the two delimiters
    and followed by a rest without carriage return, is given back as it
    is, and the rest is given back trimmed; and so it is when every
    line of the text ends with CR LF instead of LF. *)
Theorem extractFrontmatter_round_trip yaml rest :
  (CR ∉ yaml) → (CR ∉ rest) → delimiterFree yaml →
  Utils.extractFrontmatter (assembled yaml rest) = (Some yaml, trim rest)
  ∧ Utils.extractFrontmatter (withCRLF (assembled yaml rest))
    = (Some yaml, trim rest).
Proof.
  intros Hy Hr Hfree.
  pose proof (extractFrontmatter_assembled yaml rest Hy Hr Hfree) as Hx.
  split; [done|]. rewrite <- Hx. unfold Utils.extractFrontmatter.
  rewrite normalizeNewlines_withCRLF by by apply assembled_no_CR.
  by rewrite normalizeNewlines_fixed by by apply assembled_no_CR.
Qed.

Lemma delimiterFree_decide yaml :
  search (LF :: yaml) closing = None → delimiterFree yaml.
Proof. intros Hs. unfold delimiterFree. by rewrite <- search_None. Qed.

(** X3 on a block of two lines, one of them with a hyphen inside, with
    LF and with CR LF line endings. *)
Lemma extractFrontmatter_round_trip_witness :
  Utils.extractFrontmatter
    (assembled (js "name: x" ++ [LF] ++ js "description: a - b")
       (LF :: js "Body" ++ [LF]))
  = (Some (js "name: x" ++ [LF] ++ js "description: a - b"), js "Body")
  ∧ Utils.extractFrontmatter
      (js "---" ++ [CR; LF] ++ js "name: x" ++ [CR; LF]
         ++ js "description: a - b" ++ [CR; LF] ++ js "---" ++ [CR; LF]
         ++ js "Body" ++ [CR; LF])
    = (Some (js "name: x" ++ [LF] ++ js "description: a - b"), js "Body").
Proof.
  apply (extractFrontmatter_round_trip
           (js "name: x" ++ [LF] ++ js "description: a - b")
           (LF :: js "Body" ++ [LF])).
  - apply (bool_decide_unpack _). by vm_compute.
  - apply (bool_decide_unpack _). by vm_compute.
  - apply delimiterFree_decide. by vm_compute.
Defined.

(** X2 on a file with CR LF line endings and blanks around its body. *)
Lemma extractFrontmatter_block_clean_witness :
  (CR ∉ js "name: x") ∧ (CR ∉ js "Body")
  ∧ (∀ i, ¬ occursAt closing (js "name: x") i)
  ∧ trim (js "Body") = js "Body".
Proof.
  apply (extractFrontmatter_block_clean
           (js "---" ++ [CR; LF] ++ js "name: x" ++ [CR; LF] ++ js "---"
              ++ [CR] ++ js " Body ")).
  by vm_compute.
Defined.

Section Parse.
Context `{Yaml}.

(** X4: [parseFrontmatter] never fails.  Its body is the body of
    [extractFrontmatter], whatever the YAML parser does.  Its frontmatter
    is what the parser returned, when a block that is not empty was
    found and the parser returned a value other than null for it; it is
    the empty object when no block was found, when the block is empty,
    when the parser returned null and when the parser threw. *)
Theorem parseFrontmatter_fallback content :
  (Utils.parseFrontmatter content).2 = (Utils.extractFrontmatter content).2
  ∧ (∀ yaml parsed,
       (Utils.extractFrontmatter content).1 = Some yaml → yaml ≠ [] →
       parse yaml = Returns (Some parsed) →
       (Utils.parseFrontmatter content).1 = parsed)
  ∧ ((Utils.extractFrontmatter content).1 = None
     ∨ (Utils.extractFrontmatter content).1 = Some []
     ∨ (∃ yaml,
          (Utils.extractFrontmatter content).1 = Some yaml
          ∧ (parse yaml = Returns None ∨ ∃ e, parse yaml = Throws e)) →
     (Utils.parseFrontmatter content).1 = noFrontmatter).
Proof.
  unfold Utils.parseFrontmatter.
  destruct (Utils.extractFrontmatter content) as [[yaml|] body]; simpl;
    [|by split_and!].
  destruct yaml as [|c yaml]; simpl.
  { split_and!; [done| |done]. by intros yaml parsed [= <-]. }
  split_and!.
  - by destruct (parse (c :: yaml)) as [[parsed|]|e].
  - intros y parsed [= <-] _ ->. done.
  - intros [Hnone|[Hempty|(y & [= <-] & [->|[e ->]])]]; done.
Qed.

Lemma stripFrontmatter_body content :
  Utils.stripFrontmatter content = (Utils.extractFrontmatter content).2.
Proof.
  unfold Utils.stripFrontmatter, Utils.parseFrontmatter.
  destruct (Utils.extractFrontmatter content) as [[yaml|] body]; [|done].
  destruct (negb (truthy yaml)); [done|].
  by destruct (parse yaml) as [[parsed|]|e].
Qed.

(** X5: [stripFrontmatter] removes a frontmatter block whether or not
    its YAML can be parsed; a text that does not begin with three
    hyphens is returned with its line endings brought to LF and is not
    trimmed; and the result never holds a carriage return. *)
Theorem stripFrontmatter_removes_block :
  (∀ yaml rest,
     (CR ∉ yaml) → (CR ∉ rest) → delimiterFree yaml →
     Utils.stripFrontmatter (assembled yaml rest) = trim rest)
  ∧ (∀ content,
       startsWith (Utils.normalizeNewlines content) (js "---") = false →
       Utils.stripFrontmatter content = Utils.normalizeNewlines content)
  ∧ (∀ content, Forall (fun c => c ≠ CR) (Utils.stripFrontmatter content)).
Proof.
  split_and!.
  - intros yaml rest Hy Hr Hfree.
    by rewrite stripFrontmatter_body, extractFrontmatter_assembled.
  - intros content Hs. rewrite stripFrontmatter_body.
    unfold Utils.extractFrontmatter. by rewrite Hs.
  - intros content. rewrite stripFrontmatter_body. apply Forall_forall.
    intros c Hin ->.
    pose proof (normalizeNewlines_no_CR content) as Hcr.
    destruct (Utils.extractFrontmatter content) as [[yaml|] body] eqn:Ex.
    + apply extractFrontmatter_Some in Ex as (e & _ & _ & _ & _ & ->).
      by apply trim_elem, elem_drop in Hin.
    + unfold Utils.extractFrontmatter in Ex.
      destruct (negb _); [by injection Ex as <-|].
      destruct (_ =? _)%Z; [by injection Ex as <-|done].
Qed.
End Parse.

(** X5 with a YAML parser that rejects every block. *)
Lemma stripFrontmatter_removes_block_witness :
  @Utils.stripFrontmatter (Fixture.tableYaml [])
    (assembled (js "a: [") (LF :: js "Body" ++ [LF]))
  = js "Body".
Proof.
  destruct (@stripFrontmatter_removes_block (Fixture.tableYaml []))
    as (Hblock & _).
  apply (Hblock (js "a: [") (LF :: js "Body" ++ [LF])).
  - apply (bool_decide_unpack _). by vm_compute.
  - apply (bool_decide_unpack _). by vm_compute.
  - apply delimiterFree_decide. by vm_compute.
Defined.
End FrontmatterMore.

(** ** utils.ts: [escapeXml] *)

Section EscapeMore.
Implicit Types (str a b : jsstring) (c d : N).

Lemma entity_cases c :
  (c ∈ special ∧ ∃ k, entity c = 38%N :: k ∧ k ≠ [] ∧ Forall (fun x => x ∉ special) k)
  ∨ ((c ∉ special) ∧ entity c = [c]).
Proof.
  unfold entity, special, markup.
  destruct (N.eqb_spec c 38) as [->|H38].
  { left. split; [set_solver|]. eexists. split; [reflexivity|]. split; [done|].
    repeat constructor; apply (bool_decide_unpack _); by vm_compute. }
  destruct (N.eqb_spec c 60) as [->|H60].
  { left. split; [set_solver|]. eexists. split; [reflexivity|]. split; [done|].
    repeat constructor; apply (bool_decide_unpack _); by vm_compute. }
  destruct (N.eqb_spec c 62) as [->|H62].
  { left. split; [set_solver|]. eexists. split; [reflexivity|]. split; [done|].
    repeat constructor; apply (bool_decide_unpack _); by vm_compute. }
  destruct (N.eqb_spec c 34) as [->|H34].
  { left. split; [set_solver|]. eexists. split; [reflexivity|]. split; [done|].
    repeat constructor; apply (bool_decide_unpack _); by vm_compute. }
  destruct (N.eqb_spec c 39) as [->|H39].
  { left. split; [set_solver|]. eexists. split; [reflexivity|]. split; [done|].
    repeat constructor; apply (bool_decide_unpack _); by vm_compute. }
  right. split; [|done]. rewrite !not_elem_of_cons. split_and!; try done.
  apply not_elem_of_nil.
Qed.

Lemma entities_cons c str : entities (c :: str) = entity c ++ entities str.
Proof. done. Qed.

Lemma entity_length c : (1 ≤ length (entity c) ≤ 6)%nat.
Proof.
  unfold entity.
  repeat match goal with
         | |- context [(c =? ?k)%N] => destruct (c =? k)%N; [vm_compute; lia|]
         end.
  simpl. lia.
Qed.

Lemma entities_length str :
  (length str ≤ length (entities str) ≤ 6 * length str)%nat.
Proof.
  induction str as [|c str IH]; [simpl; lia|].
  rewrite entities_cons, length_app. pose proof (entity_length c). simpl. lia.
Qed.

(** Two entities of which one begins the text the other begins are the
    same. *)
Lemma entity_prefix_free c d x y :
  entity c ++ x = entity d ++ y → c = d ∧ x = y.
Proof.
  unfold entity.
  destruct (N.eqb_spec c 38) as [->|?]; [|
  destruct (N.eqb_spec c 60) as [->|?]; [|
  destruct (N.eqb_spec c 62) as [->|?]; [|
  destruct (N.eqb_spec c 34) as [->|?]; [|
  destruct (N.eqb_spec c 39) as [->|?]]]]];
  (destruct (N.eqb_spec d 38) as [->|?]; [|
   destruct (N.eqb_spec d 60) as [->|?]; [|
   destruct (N.eqb_spec d 62) as [->|?]; [|
   destruct (N.eqb_spec d 34) as [->|?]; [|
   destruct (N.eqb_spec d 39) as [->|?]]]]]);
  intros Heq; vm_compute in Heq; simplify_eq; done.
Qed.

Lemma entities_injective a b : entities a = entities b → a = b.
Proof.
  revert b. induction a as [|c a IH]; intros [|d b] Heq.
  - done.
  - apply (f_equal length) in Heq. rewrite entities_cons, length_app in Heq.
    pose proof (entity_length d). simpl in Heq. lia.
  - apply (f_equal length) in Heq. rewrite entities_cons, length_app in Heq.
    pose proof (entity_length c). simpl in Heq. lia.
  - rewrite !entities_cons in Heq.
    apply entity_prefix_free in Heq as [-> Heq]. f_equal. by apply IH.
Qed.

(** X6: [escapeXml] loses nothing: two texts are escaped to the same
    text exactly when they are the same text. *)
Theorem escapeXml_injective a b :
  Utils.escapeXml a = Utils.escapeXml b ↔ a = b.
Proof.
  split; [|by intros ->]. rewrite !escapeXml_entities. apply entities_injective.
Qed.

Lemma entities_markup_free str : Forall (fun c => c ∉ markup) (entities str).
Proof.
  induction str as [|c str IH]; [constructor|].
  rewrite entities_cons. apply Forall_app. split; [|done].
  destruct (entity_cases c) as [(_ & k & -> & _ & Hk)|[Hc ->]].
  - constructor.
    + apply (bool_decide_unpack _). by vm_compute.
    + eapply Forall_impl; [done|]. intros x Hx Hin. apply Hx. by right.
  - constructor; [|constructor]. intros Hin. apply Hc. by right.
Qed.

Lemma entities_fixed str :
  entities str = str ↔ Forall (fun c => c ∉ special) str.
Proof.
  induction str as [|c str IH]; [by split; [constructor|]|].
  rewrite entities_cons, Forall_cons, <- IH.
  destruct (entity_cases c) as [(Hc & k & -> & Hne & Hk)|[Hc ->]].
  - split; [|tauto]. intros Heq. apply (f_equal length) in Heq.
    simpl in Heq. rewrite length_app in Heq.
    pose proof (entities_length str). destruct k; [done|]. simpl in Heq. lia.
  - split.
    + intros [= Heq]. done.
    + intros [_ Heq]. simpl. by f_equal.
Qed.

(** X7: the result of [escapeXml] holds no angle bracket, double quote
    or apostrophe; and [escapeXml] returns its argument unchanged exactly
    when the argument holds none of these and no ampersand. *)
Theorem escapeXml_markup_free str :
  Forall (fun c => c ∉ markup) (Utils.escapeXml str)
  ∧ (Utils.escapeXml str = str ↔ Forall (fun c => c ∉ special) str).
Proof.
  rewrite escapeXml_entities. split.
  - apply entities_markup_free.
  - apply entities_fixed.
Qed.

(** X8: [escapeXml] works piece by piece: escaping a concatenation is
    concatenating the escaped parts; and the result is at least as long
    as the argument and at most six times as long. *)
Theorem escapeXml_pieces a b :
  Utils.escapeXml (a ++ b) = Utils.escapeXml a ++ Utils.escapeXml b
  ∧ (length a ≤ length (Utils.escapeXml a) ≤ 6 * length a)%nat.
Proof.
  split; [apply escapeXml_app|].
  rewrite escapeXml_entities. apply entities_length.
Qed.
End EscapeMore.

(** ** Validation of descriptions and names *)

Section ValidationMore.
Implicit Types (name parentDirName : jsstring) (description : option jsstring).

Lemma blank_iff description :
  blank description = true ↔ trim (default [] description) = [].
Proof.
  destruct description as [d|]; simpl; [|done].
  rewrite orb_true_iff, bool_decide_eq_true. split; [|by right].
  intros [Hd|Ht]; [|done]. by destruct d.
Qed.

(** X9: the errors of [validateDescription], in index.ts and in
    skills.ts.  A description that is absent or holds white space only
    is reported as required, and as nothing else, however long it is; any
    other description is reported as too long exactly when it has more
    than 1024 code units, blanks at its ends included.  So there is never
    more than one error. *)
Theorem validateDescription_reports description :
  let d := default [] description in
  ∃ e1 e2 e2',
    Skills.validateDescription description = e1 ++ e2
    ∧ Index.validateDescription description = e1 ++ e2'
    ∧ reports (trim d = []) (js "description is required") e1
    ∧ reports (trim d ≠ [] ∧ (1024 < length d)%nat)
        (js "description exceeds 1024 characters (" ++ decimal (length d)
           ++ js ")") e2
    ∧ reports (trim d ≠ [] ∧ (1024 < length d)%nat)
        (js "description exceeds 1024 characters") e2'
    ∧ (length (e1 ++ e2) ≤ 1)%nat ∧ (length (e1 ++ e2') ≤ 1)%nat.
Proof.
  intros d. unfold Skills.validateDescription, Index.validateDescription.
  fold d. pose proof (blank_iff description) as Hb. fold d in Hb.
  destruct (blank description).
  - exists [js "description is required"], [], [].
    split_and!; [done|done| | | |simpl; lia|simpl; lia].
    + left. split; [by apply Hb|done].
    + right. split; [|done]. intros [Hne _]. by apply Hne, Hb.
    + right. split; [|done]. intros [Hne _]. by apply Hne, Hb.
  - assert (trim d ≠ []) as Hne by (intros Ht; by apply Hb in Ht).
    unfold MAX_DESCRIPTION_LENGTH.
    destruct (Nat.ltb_spec 1024 (length d)) as [Hlong|Hshort].
    + exists [], [js "description exceeds 1024 characters (" ++ decimal (length d)
                     ++ js ")"], [js "description exceeds 1024 characters"].
      split_and!; [done|done| | | |simpl; lia|simpl; lia].
      * right. done.
      * left. done.
      * left. done.
    + exists [], [], []. split_and!; [done|done| | | |simpl; lia|simpl; lia].
      * right. done.
      * right. split; [|done]. intros [_ Hl]. lia.
      * right. split; [|done]. intros [_ Hl]. lia.
Qed.

(** X10: the errors of [validateName] in index.ts: three consecutive
    groups, one per rule, each holding the rule's message when the rule
    is broken and nothing otherwise: the name differs from the directory
    name; it is longer than 64 code units; it is empty or has a character
    outside a-z, 0-9, hyphen.  It never reports more errors than the
    [validateName] of skills.ts. *)
Theorem Index_validateName_reports name parentDirName :
  (∃ e1 e2 e3,
     Index.validateName name parentDirName = e1 ++ e2 ++ e3
     ∧ reports (name ≠ parentDirName)
         (js "name " ++ quote ++ name ++ quote
            ++ js " does not match parent directory "
            ++ quote ++ parentDirName ++ quote) e1
     ∧ reports (64 < length name)%nat (js "name exceeds 64 characters") e2
     ∧ reports (name = [] ∨ hasForeignChar name)
         (js "invalid characters in name") e3)
  ∧ (length (Index.validateName name parentDirName)
     ≤ length (Skills.validateName name parentDirName))%nat.
Proof.
  split.
  - unfold Index.validateName. do 3 eexists. split; [reflexivity|].
    split_and!; apply reports_if.
    + rewrite negb_true_iff, bool_decide_eq_false. done.
    + apply Nat.ltb_lt.
    + rewrite negb_true_iff. apply matchesNamePattern_false.
  - unfold Index.validateName, Skills.validateName.
    rewrite !length_app.
    destruct (negb (bool_decide _)), (_ <? _)%nat, (negb (matchesNamePattern _));
      simpl; lia.
Qed.
End ValidationMore.

(** ** [toPosixPath] *)

Section PosixMore.
Context `{NodePath}.
Implicit Types p : jsstring.

Lemma toPosixPath_cons c p :
  toPosixPath (c :: p) = (if (c =? sep)%N then 47%N else c) :: toPosixPath p.
Proof.
  unfold toPosixPath, splitJoin. rewrite replaceChar_cons.
  by destruct (c =? sep)%N.
Qed.

(** X11: [toPosixPath] replaces code unit by code unit: the result is
    as long as the path, applying it twice is applying it once, and
    where the separator of the platform is the slash it changes
    nothing. *)
Theorem toPosixPath_shape p :
  length (toPosixPath p) = length p
  ∧ toPosixPath (toPosixPath p) = toPosixPath p
  ∧ (sep = 47%N → toPosixPath p = p).
Proof.
  induction p as [|c p (IHlen & IHidem & IHid)]; [done|].
  rewrite !toPosixPath_cons. split_and!.
  - simpl. by rewrite IHlen.
  - rewrite IHidem. f_equal.
    destruct (N.eqb_spec c sep) as [->|Hc]; [|by rewrite (proj2 (N.eqb_neq _ _) Hc)].
    by destruct (N.eqb_spec 47 sep).
  - intros Hsep. rewrite IHid by done. f_equal.
    destruct (N.eqb_spec c sep) as [->|Hc]; done.
Qed.
End PosixMore.

(** X11 on POSIX, and on a platform whose separator is the backslash. *)
Lemma toPosixPath_shape_witness :
  @toPosixPath Fixture.posix (js "a/b\c") = js "a/b\c"
  ∧ @toPosixPath Fixture.backslashed (js "a/b\c") = js "a/b/c".
Proof.
  split; [|by vm_compute].
  apply (@toPosixPath_shape Fixture.posix (js "a/b\c")). done.
Defined.

(** ** The skill parser: [loadSkillFromFile] *)

Section ParserMore.
Context `{NodePath, NodeFs, NodeProcess, Yaml, Ignore}.
Implicit Types (filePath source : jsstring) (skill : Skill.t).

Lemma Skills_nameErrors_head name parentDirName m :
  m ∈ Skills.validateName name parentDirName → head m = Some 110%N.
Proof.
  unfold Skills.validateName. rewrite !elem_of_app.
  intros [Hin|[Hin|[Hin|[Hin|Hin]]]];
    match type of Hin with _ ∈ (if ?b then _ else _) => destruct b end;
    try (by apply elem_of_nil in Hin);
    apply list_elem_of_singleton in Hin as ->; done.
Qed.

Lemma Index_nameErrors_head name parentDirName m :
  m ∈ Index.validateName name parentDirName →
  head m = Some 110%N ∨ head m = Some 105%N.
Proof.
  unfold Index.validateName. rewrite !elem_of_app.
  intros [Hin|[Hin|Hin]];
    match type of Hin with _ ∈ (if ?b then _ else _) => destruct b end;
    try (by apply elem_of_nil in Hin);
    apply list_elem_of_singleton in Hin as ->; auto.
Qed.

Lemma required_not_exceeds rest :
  js "description is required" ≠ js "description exceeds " ++ rest.
Proof.
  intros Heq. apply (f_equal (take 13)) in Heq. vm_compute in Heq.
  discriminate Heq.
Qed.

Lemma Skills_required_iff description :
  js "description is required" ∈ Skills.validateDescription description
  ↔ blank description = true.
Proof.
  unfold Skills.validateDescription. destruct (blank description).
  - split; [done|]. intros _. by left.
  - split; [|done]. destruct (_ <? _)%nat.
    + intros Hin%list_elem_of_singleton.
      by apply required_not_exceeds in Hin.
    + by intros Hin%elem_of_nil.
Qed.

Lemma Index_required_iff description :
  js "description is required" ∈ Index.validateDescription description
  ↔ blank description = true.
Proof.
  unfold Index.validateDescription. destruct (blank description).
  - split; [done|]. intros _. by left.
  - split; [|done]. destruct (_ <? _)%nat.
    + intros Hin%list_elem_of_singleton.
      by apply required_not_exceeds in Hin.
    + by intros Hin%elem_of_nil.
Qed.

Lemma warn_elem message filePath errors :
  warn message filePath ∈ map (fun e => warn e filePath) errors
  ↔ message ∈ errors.
Proof.
  rewrite list_elem_of_fmap. split.
  - intros (e & [= ->] & Hin). done.
  - intros Hin. by exists message.
Qed.

(** X12: the warning that the description is required.  For a file
    that can be read, either parser reports that the description is
    required exactly when the description of the frontmatter is missing,
    empty or white space only; skills.ts returns no skill together with
    that warning, its production gate being the validator's test; and
    index.ts returns no skill when the description is missing or
    empty. *)
Theorem description_gate filePath source rawContent :
  readFileSync filePath = Returns rawContent →
  let description := fm_description (Utils.parseFrontmatter rawContent).1 in
  (warn (js "description is required") filePath
     ∈ (Skills.loadSkillFromFile filePath source).2
   ↔ blank description = true)
  ∧ (warn (js "description is required") filePath
       ∈ (Skills.loadSkillFromFile filePath source).2 →
     (Skills.loadSkillFromFile filePath source).1 = None)
  ∧ (warn (js "description is required") filePath
       ∈ (Index.loadSkillFromFile filePath source).2
     ↔ blank description = true)
  ∧ (falsy description = true →
     (Index.loadSkillFromFile filePath source).1 = None).
Proof.
  intros Hread description.
  unfold Skills.loadSkillFromFile, Index.loadSkillFromFile. rewrite Hread.
  cbv zeta. fold description.
  set (parent := basename (dirname filePath)).
  set (name := orElse (fm_name (Utils.parseFrontmatter rawContent).1) parent).
  assert (warn (js "description is required") filePath
            ∈ map (fun e => warn e filePath)
                (Skills.validateDescription description)
                ++ map (fun e => warn e filePath)
                     (Skills.validateName name parent)
          ↔ blank description = true) as Hskills.
  { rewrite elem_of_app, !warn_elem, Skills_required_iff. split; [|by left].
    intros [Hb|Hn%Skills_nameErrors_head]; [done|]. by vm_compute in Hn. }
  assert (warn (js "description is required") filePath
            ∈ map (fun m => warn m filePath)
                (Index.validateDescription description)
                ++ map (fun m => warn m filePath)
                     (Index.validateName name parent)
          ↔ blank description = true) as Hindex.
  { rewrite elem_of_app, !warn_elem, Index_required_iff. split; [|by left].
    intros [Hb|[Hn|Hn]%Index_nameErrors_head]; [done| |];
      by vm_compute in Hn. }
  split_and!.
  - by destruct (blank description).
  - destruct (blank description); simpl; [done|]. by intros Hin%Hskills.
  - by destruct (falsy description).
  - by intros ->.
Qed.

(** X13: the skills of skills.ts are skills of index.ts.  A skill that
    [loadSkillFromFile] of skills.ts returns for a file is returned for
    it, field for field, by [loadSkillFromFile] of index.ts, and its
    description is not blank; so a file that yields no skill in index.ts
    yields none in skills.ts. *)
Theorem parsers_agree filePath source skill :
  (Skills.loadSkillFromFile filePath source).1 = Some skill →
  (Index.loadSkillFromFile filePath source).1 = Some skill
  ∧ described skill
  ∧ Skill.filePath skill = filePath.
Proof.
  unfold Skills.loadSkillFromFile, Index.loadSkillFromFile, described.
  destruct (readFileSync filePath) as [rawContent|e]; [|done].
  cbv zeta. set (frontmatter := (Utils.parseFrontmatter rawContent).1).
  destruct (fm_description frontmatter) as [d|] eqn:Ed; simpl; [|done].
  destruct d as [|c d]; simpl; [done|].
  case_bool_decide as Ht; simpl; [done|].
  by intros [= <-].
Qed.

Lemma Skills_parser_warnings filePath source :
  Forall (fun d => ∃ message, d = warn message filePath)
    (Skills.loadSkillFromFile filePath source).2.
Proof.
  unfold Skills.loadSkillFromFile.
  destruct (readFileSync filePath) as [rawContent|e]; cbv zeta.
  - assert (∀ errors,
              Forall (fun d => ∃ message, d = warn message filePath)
                (map (fun e => warn e filePath) errors)) as Hw.
    { intros errors. apply Forall_fmap, Forall_true. intros m. by exists m. }
    destruct (blank _); simpl; apply Forall_app; split; apply Hw.
  - constructor; [by exists e|constructor].
Qed.

Lemma Index_parser_warnings filePath source :
  Forall (fun d => ∃ message, d = warn message filePath)
    (Index.loadSkillFromFile filePath source).2.
Proof.
  unfold Index.loadSkillFromFile.
  destruct (readFileSync filePath) as [rawContent|e]; cbv zeta.
  - assert (∀ errors,
              Forall (fun d => ∃ message, d = warn message filePath)
                (map (fun e => warn e filePath) errors)) as Hw.
    { intros errors. apply Forall_fmap, Forall_true. intros m. by exists m. }
    destruct (falsy _); simpl; apply Forall_app; split; apply Hw.
  - constructor; [by exists e|constructor].
Qed.

Lemma Index_parser_filled filePath source skill :
  (Index.loadSkillFromFile filePath source).1 = Some skill →
  filledIn source skill ∧ Skill.filePath skill = filePath.
Proof.
  unfold Index.loadSkillFromFile, filledIn.
  destruct (readFileSync filePath) as [rawContent|e]; [|done]. cbv zeta.
  destruct (fm_description _) as [[|c d]|]; simpl; [done| |done].
  intros [= <-]. done.
Qed.

Lemma Skills_parser_filled filePath source skill :
  (Skills.loadSkillFromFile filePath source).1 = Some skill →
  filledIn source skill ∧ Skill.filePath skill = filePath.
Proof.
  unfold Skills.loadSkillFromFile, filledIn.
  destruct (readFileSync filePath) as [rawContent|e]; [|done]. cbv zeta.
  destruct (fm_description _) as [[|c d]|]; simpl; [done| |done].
  case_bool_decide; simpl; [done|]. intros [= <-]. done.
Qed.
End ParserMore.

(** ** The walker: what holds of every result *)

Section WalkInvariant.
Context `{NodePath, NodeFs, NodeProcess, Yaml, Ignore}.
Variable source : jsstring.
(** A property of the walker's result that may depend on the matcher
    the activation started from. *)
Variable I : Matcher → Walk.t → Prop.
Hypothesis I_start : ∀ ig tr, I ig (Walk.mk [] [] ig tr).
Hypothesis I_rules :
  ∀ ig dir root tr, I ig (Walk.mk [] [] (addIgnoreRules ig dir root) tr).
Hypothesis I_log : ∀ ig acc q, I ig acc → I ig (Walk.log (Ignored q) acc).
Hypothesis I_merge :
  ∀ ig acc sub, I ig acc → I (Walk.ig acc) sub → I ig (Walk.merge acc sub).

Section Entries.
Variable recurse :
  jsstring → jsstring → bool → option Matcher → option jsstring → option Walk.t.
Hypothesis recurse_I :
  ∀ d m r w, recurse d source false (Some m) r = Some w → I m w.
Variables (dir : jsstring) (includeRootFiles : bool) (root : jsstring).

Lemma Skills_forEntries_invariant ig entries acc w :
  (∀ acc p, I ig acc →
            I ig (Walk.push (Walk.log (Parsed p) acc)
                    (Skills.loadSkillFromFile p source))) →
  I ig acc →
  Skills.forEntries recurse dir source includeRootFiles root entries acc = Some w →
  I ig w.
Proof.
  intros Hpush. revert acc.
  induction entries as [|entry rest IH]; intros acc Hacc Hrun; simpl in Hrun.
  - by injection Hrun as <-.
  - repeat case_match; simplify_eq; try done;
      (eapply IH; [|eassumption]); try done.
    all: first [ by apply I_log | apply I_merge; eauto | by apply Hpush ].
Qed.

Lemma Index_forEntries_invariant ig entries acc w :
  (∀ acc p, I ig acc →
            I ig (Walk.push (Walk.log (Parsed p) acc)
                    (Index.loadSkillFromFile p source))) →
  I ig acc →
  Index.forEntries recurse dir source includeRootFiles root entries acc = Some w →
  I ig w.
Proof.
  intros Hpush. revert acc.
  induction entries as [|entry rest IH]; intros acc Hacc Hrun; simpl in Hrun.
  - by injection Hrun as <-.
  - repeat case_match; simplify_eq; try done;
      (eapply IH; [|eassumption]); try done.
    all: first [ by apply I_log | apply I_merge; eauto | by apply Hpush ].
Qed.
End Entries.

Lemma Skills_walk_invariant fuel dir includeRootFiles ig rootDir w :
  (∀ ig acc p, I ig acc →
               I ig (Walk.push (Walk.log (Parsed p) acc)
                       (Skills.loadSkillFromFile p source))) →
  Skills.loadSkillsFromDirInternal fuel dir source includeRootFiles ig rootDir
    = Some w →
  I (default [] ig) w.
Proof.
  intros Hpush. revert dir includeRootFiles ig rootDir w.
  induction fuel as [|fuel IH]; intros dir inc ig rootDir w Hrun; [done|].
  simpl in Hrun. repeat case_match; simplify_eq; try apply I_start;
    try apply I_rules.
  eapply Skills_forEntries_invariant; [|apply Hpush|apply I_rules|done].
  intros d m r w' Hw'. by apply IH in Hw'.
Qed.

Lemma Index_walk_invariant fuel dir includeRootFiles ig rootDir w :
  (∀ ig acc p, I ig acc →
               I ig (Walk.push (Walk.log (Parsed p) acc)
                       (Index.loadSkillFromFile p source))) →
  Index.loadSkillsFromDir fuel dir source includeRootFiles ig rootDir = Some w →
  I (default [] ig) w.
Proof.
  intros Hpush. revert dir includeRootFiles ig rootDir w.
  induction fuel as [|fuel IH]; intros dir inc ig rootDir w Hrun; [done|].
  simpl in Hrun. repeat case_match; simplify_eq; try apply I_start;
    try apply I_rules.
  eapply Index_forEntries_invariant; [|apply Hpush|apply I_rules|done].
  intros d m r w' Hw'. by apply IH in Hw'.
Qed.
End WalkInvariant.

Section WalkMore.
Context `{NodePath, NodeFs, NodeProcess, Yaml, Ignore}.
Implicit Types (dir source root : jsstring) (acc w : Walk.t).

(** X14: the shared matcher only grows.  Whatever a walk does, the
    rules its matcher held at the start are the first rules of the
    matcher at the end, in the same order: rules added below a
    directory stay in force for everything visited later. *)
Theorem walk_matcher_grows fuel dir source includeRootFiles ig rootDir w :
  Skills.loadSkillsFromDirInternal fuel dir source includeRootFiles ig rootDir
    = Some w
  ∨ Index.loadSkillsFromDir fuel dir source includeRootFiles ig rootDir
    = Some w →
  default [] ig `prefix_of` Walk.ig w.
Proof.
  intros [Hrun|Hrun];
    [eapply (Skills_walk_invariant source
               (fun ig0 w => ig0 `prefix_of` Walk.ig w))
    |eapply (Index_walk_invariant source
               (fun ig0 w => ig0 `prefix_of` Walk.ig w))];
    try eassumption; simpl.
  all: try (intros; rewrite addIgnoreRules_appends; by apply prefix_app_r).
  all: try done.
  all: intros ig0 acc sub Hacc Hsub; by etrans.
Qed.

Lemma parsedOnly_mono parser source tr tr' ds found :
  (∀ e, e ∈ tr → e ∈ tr') →
  parsedOnly parser source tr ds found → parsedOnly parser source tr' ds found.
Proof.
  intros Hsub [Hd Hs]. split; (eapply Forall_impl; [done|]); simpl.
  - intros d (p & Hp & Hin). exists p. auto.
  - intros skill (p & Hp & Hskill). exists p. auto.
Qed.

Lemma parsedOnly_app parser source tr ds ds' found found' :
  parsedOnly parser source tr ds found →
  parsedOnly parser source tr ds' found' →
  parsedOnly parser source tr (ds ++ ds') (found ++ found').
Proof. intros [Hd Hs] [Hd' Hs']. split; by apply Forall_app. Qed.

Lemma parsedOnly_push parser source acc p :
  parsedOnly parser source (Walk.trace acc) (Walk.diagnostics acc)
    (Walk.skills acc) →
  let w := Walk.push (Walk.log (Parsed p) acc) (parser p source) in
  parsedOnly parser source (Walk.trace w) (Walk.diagnostics w) (Walk.skills w).
Proof.
  intros Hacc. simpl. apply parsedOnly_app.
  - revert Hacc. apply parsedOnly_mono. intros e He. apply elem_of_app. by left.
  - assert (Parsed p ∈ Walk.trace acc ++ [Parsed p]) as Hp
      by (apply elem_of_app; right; by left).
    split.
    + apply Forall_forall. intros d Hd. by exists p.
    + destruct (parser p source).1 as [skill|] eqn:Es; constructor;
        [|constructor]. by exists p.
Qed.

Lemma Skills_walk_parsedOnly fuel dir source includeRootFiles ig rootDir w :
  Skills.loadSkillsFromDirInternal fuel dir source includeRootFiles ig rootDir
    = Some w →
  parsedOnly Skills.loadSkillFromFile source
    (Walk.trace w) (Walk.diagnostics w) (Walk.skills w).
Proof.
  intros Hrun.
  eapply (Skills_walk_invariant source
            (fun _ w => parsedOnly Skills.loadSkillFromFile source
                          (Walk.trace w) (Walk.diagnostics w) (Walk.skills w)));
    [| | | | |exact Hrun].
  - intros ? tr. split; constructor.
  - intros ? ? ? tr. split; constructor.
  - intros ? acc q. apply parsedOnly_mono. intros e He.
    apply elem_of_app. by left.
  - intros ? acc sub Hacc Hsub. simpl. apply parsedOnly_app.
    + revert Hacc. apply parsedOnly_mono. intros e He. apply elem_of_app. by left.
    + revert Hsub. apply parsedOnly_mono. intros e He. apply elem_of_app. by right.
  - intros ? acc p. apply parsedOnly_push.
Qed.

Lemma Index_walk_parsedOnly fuel dir source includeRootFiles ig rootDir w :
  Index.loadSkillsFromDir fuel dir source includeRootFiles ig rootDir = Some w →
  parsedOnly Index.loadSkillFromFile source
    (Walk.trace w) (Walk.diagnostics w) (Walk.skills w).
Proof.
  intros Hrun.
  eapply (Index_walk_invariant source
            (fun _ w => parsedOnly Index.loadSkillFromFile source
                          (Walk.trace w) (Walk.diagnostics w) (Walk.skills w)));
    [| | | | |exact Hrun].
  - intros ? tr. split; constructor.
  - intros ? ? ? tr. split; constructor.
  - intros ? acc q. apply parsedOnly_mono. intros e He.
    apply elem_of_app. by left.
  - intros ? acc sub Hacc Hsub. simpl. apply parsedOnly_app.
    + revert Hacc. apply parsedOnly_mono. intros e He. apply elem_of_app. by left.
    + revert Hsub. apply parsedOnly_mono. intros e He. apply elem_of_app. by right.
  - intros ? acc p. apply parsedOnly_push.
Qed.

Lemma traced_candidate dir includeRootFiles root w p :
  traced dir includeRootFiles root w → Parsed p ∈ Walk.trace w →
  candidatePath dir includeRootFiles p.
Proof.
  intros (tail & -> & Hall) [Hp|Hp]%elem_of_cons; [done|].
  rewrite Forall_forall in Hall. exact (Hall _ Hp).
Qed.

(** X15: a walk reports files only.  Every diagnostic of a walk, by
    either walker, is one of the warnings the parser returned for a file
    that was handed to it, and that file is a [SKILL.md], or an [.md]
    file of the directory walked first where root files count.  So a
    directory that is missing or cannot be listed, a link without
    target, an ignore file that cannot be read and a path the matcher
    rejects leave no diagnostic. *)
Theorem walk_reports_files_only fuel dir source includeRootFiles ig rootDir :
  (∀ w,
     Skills.loadSkillsFromDirInternal fuel dir source includeRootFiles ig
       rootDir = Some w →
     Forall (fun d => ∃ p message,
               candidatePath dir includeRootFiles p
               ∧ Parsed p ∈ Walk.trace w
               ∧ d ∈ (Skills.loadSkillFromFile p source).2
               ∧ d = warn message p)
       (Walk.diagnostics w))
  ∧ (∀ w,
       Index.loadSkillsFromDir fuel dir source includeRootFiles ig rootDir
         = Some w →
       Forall (fun d => ∃ p message,
                 candidatePath dir includeRootFiles p
                 ∧ Parsed p ∈ Walk.trace w
                 ∧ d ∈ (Index.loadSkillFromFile p source).2
                 ∧ d = warn message p)
         (Walk.diagnostics w)).
Proof.
  split; intros w Hrun.
  - pose proof (Skills_walk_traced _ _ _ _ _ _ _ Hrun) as Ht.
    apply Skills_walk_parsedOnly in Hrun as [Hd _].
    eapply Forall_impl; [done|]. simpl. intros d (p & Hp & Hin).
    pose proof (Skills_parser_warnings p source) as Hw.
    rewrite Forall_forall in Hw. destruct (Hw d Hin) as [m ->].
    exists p, m. split_and!; try done. by eapply traced_candidate.
  - pose proof (Index_walk_traced _ _ _ _ _ _ _ Hrun) as Ht.
    apply Index_walk_parsedOnly in Hrun as [Hd _].
    eapply Forall_impl; [done|]. simpl. intros d (p & Hp & Hin).
    pose proof (Index_parser_warnings p source) as Hw.
    rewrite Forall_forall in Hw. destruct (Hw d Hin) as [m ->].
    exists p, m. split_and!; try done. by eapply traced_candidate.
Qed.

(** X16: where the skills of a walk come from.  Every skill a walk
    returns, by either walker, is the skill the parser returned for its
    file, which was handed to the parser and is a [SKILL.md], or an
    [.md] file of the directory walked first where root files count; it
    carries the source the walk was given, has the directory of its file
    as base directory and a description that is not empty. *)
Theorem walk_skills_origin fuel dir source includeRootFiles ig rootDir :
  (∀ w,
     Skills.loadSkillsFromDirInternal fuel dir source includeRootFiles ig
       rootDir = Some w →
     Forall (fun skill =>
               candidatePath dir includeRootFiles (Skill.filePath skill)
               ∧ Parsed (Skill.filePath skill) ∈ Walk.trace w
               ∧ (Skills.loadSkillFromFile (Skill.filePath skill) source).1
                 = Some skill
               ∧ filledIn source skill)
       (Walk.skills w))
  ∧ (∀ w,
       Index.loadSkillsFromDir fuel dir source includeRootFiles ig rootDir
         = Some w →
       Forall (fun skill =>
                 candidatePath dir includeRootFiles (Skill.filePath skill)
                 ∧ Parsed (Skill.filePath skill) ∈ Walk.trace w
                 ∧ (Index.loadSkillFromFile (Skill.filePath skill) source).1
                   = Some skill
                 ∧ filledIn source skill)
         (Walk.skills w)).
Proof.
  split; intros w Hrun.
  - pose proof (Skills_walk_traced _ _ _ _ _ _ _ Hrun) as Ht.
    apply Skills_walk_parsedOnly in Hrun as [_ Hs].
    eapply Forall_impl; [done|]. simpl. intros skill (p & Hp & Hskill).
    destruct (Skills_parser_filled _ _ _ Hskill) as [Hf ->].
    split_and!; try done. by eapply traced_candidate.
  - pose proof (Index_walk_traced _ _ _ _ _ _ _ Hrun) as Ht.
    apply Index_walk_parsedOnly in Hrun as [_ Hs].
    eapply Forall_impl; [done|]. simpl. intros skill (p & Hp & Hskill).
    destruct (Index_parser_filled _ _ _ Hskill) as [Hf ->].
    split_and!; try done. by eapply traced_candidate.
Qed.

Section Hidden.
Variable recurse :
  jsstring → jsstring → bool → option Matcher → option jsstring → option Walk.t.
Variables (dir source : jsstring) (includeRootFiles : bool) (root : jsstring).

(** X17: entries whose name begins with a dot and entries named
    [node_modules] have no effect on a walk: the loop over a listing
    gives what it gives on the listing without them, whatever their
    kind, in both walkers. *)
Theorem walk_skips_hidden entries acc :
  Skills.forEntries recurse dir source includeRootFiles root entries acc
  = Skills.forEntries recurse dir source includeRootFiles root
      (List.filter (fun entry => negb (skippedByName entry)) entries) acc
  ∧ Index.forEntries recurse dir source includeRootFiles root entries acc
    = Index.forEntries recurse dir source includeRootFiles root
        (List.filter (fun entry => negb (skippedByName entry)) entries) acc.
Proof.
  revert acc. induction entries as [|entry rest IH]; intros acc; [done|].
  cbn [List.filter].
  destruct (skippedByName entry) eqn:Eskip; simpl negb; cbv iota;
    unfold skippedByName in Eskip; split.
  - cbn [Skills.forEntries].
    destruct (startsWith (Dirent.name entry) (js ".")); [apply IH|].
    simpl in Eskip. rewrite Eskip. apply IH.
  - cbn [Index.forEntries]. rewrite Eskip. apply IH.
  - cbn [Skills.forEntries]. apply orb_false_iff in Eskip as [-> ->].
    repeat case_match; try done; apply IH.
  - cbn [Index.forEntries]. rewrite Eskip.
    repeat case_match; try done; apply IH.
Qed.
End Hidden.
End WalkMore.

(** ** The loader's locals *)

Section MapMore.
Context {V : Type}.
Implicit Types (m : JsMap.t V) (k : jsstring) (v : V).

Lemma get_app_Some m m' k v :
  JsMap.get m k = Some v → JsMap.get (m ++ m') k = Some v.
Proof.
  induction m as [|[k' v'] m IH]; simpl; [done|].
  by case_bool_decide.
Qed.

Lemma get_prefix m m' k v :
  m `prefix_of` m' → JsMap.get m k = Some v → JsMap.get m' k = Some v.
Proof. intros [rest ->]. apply get_app_Some. Qed.

Lemma get_Some_value m k v : JsMap.get m k = Some v → v ∈ JsMap.values m.
Proof.
  intros Hin%get_Some. unfold JsMap.values.
  apply list_elem_of_fmap. by exists (k, v).
Qed.
End MapMore.

Section DedupMore.
Context `{NodeFs}.
Implicit Types (st : LoaderState) (skill existing : Skill.t).

Lemma extends_refl st : extends st st.
Proof. by split_and!. Qed.

Lemma extends_trans st1 st2 st3 :
  extends st1 st2 → extends st2 st3 → extends st1 st3.
Proof.
  intros (? & ? & ? & ?) (? & ? & ? & ?). split_and!; by etrans.
Qed.

Lemma addSkill_extends st skill : extends st (addSkill st skill).
Proof.
  destruct (addSkill_cases st skill)
    as [[_ ->]|[(_ & e & _ & ->)|(_ & _ & ->)]].
  - apply extends_refl.
  - split_and!; simpl; [done|done|done|by apply prefix_app_r].
  - split_and!; simpl; [by apply prefix_app_r|set_solver|done|done].
Qed.

Lemma pushDiagnostics_extends ds st : extends st (pushDiagnostics ds st).
Proof. split_and!; simpl; [done|done|by apply prefix_app_r|done]. Qed.

Lemma foldl_extends st found : extends st (foldl addSkill st found).
Proof.
  revert st. induction found as [|skill found IH]; intros st;
    [apply extends_refl|].
  simpl. eapply extends_trans; [apply addSkill_extends|apply IH].
Qed.

Lemma addSkills_extends result st : extends st (addSkills result st).
Proof.
  eapply extends_trans; [apply pushDiagnostics_extends|apply foldl_extends].
Qed.

Lemma absorbed_extends st st' skill :
  extends st st' → absorbed st skill → absorbed st' skill.
Proof.
  intros (Hmap & Hset & _) [Hid|[e He]]; [left; set_solver|right].
  exists e. by eapply get_prefix.
Qed.

Lemma addSkill_absorbs st skill : absorbed (addSkill st skill) skill.
Proof.
  destruct (addSkill_cases st skill)
    as [[Hin ->]|[(_ & e & He & ->)|(_ & _ & ->)]].
  - by left.
  - right. by exists e.
  - left. simpl. set_solver.
Qed.

Lemma addSkill_absorbed st skill :
  absorbed st skill →
  skillMap (addSkill st skill) = skillMap st
  ∧ realPathSet (addSkill st skill) = realPathSet st.
Proof.
  intros Habs.
  destruct (addSkill_cases st skill)
    as [[Hin ->]|[(_ & e & He & ->)|(Hnew & Hfree & ->)]]; [done|done|].
  destruct Habs as [Hid|[e He]]; [done|congruence].
Qed.

Lemma foldl_absorbed st found :
  Forall (absorbed st) found →
  skillMap (foldl addSkill st found) = skillMap st
  ∧ realPathSet (foldl addSkill st found) = realPathSet st.
Proof.
  revert st. induction found as [|skill found IH]; intros st Hall; [done|].
  apply Forall_cons in Hall as [Hskill Hall]. simpl.
  destruct (addSkill_absorbed st skill Hskill) as [Hm Hs].
  destruct (IH (addSkill st skill)) as [Hm' Hs'].
  - eapply Forall_impl; [done|]. intros other.
    apply absorbed_extends, addSkill_extends.
  - split; congruence.
Qed.

Lemma foldl_absorbs st found :
  Forall (absorbed (foldl addSkill st found)) found.
Proof.
  revert st. induction found as [|skill found IH]; intros st; [constructor|].
  simpl. constructor; [|apply IH].
  eapply absorbed_extends; [apply foldl_extends|apply addSkill_absorbs].
Qed.

Lemma addSkills_absorbs result st :
  Forall (absorbed (addSkills result st)) (skills result).
Proof. apply foldl_absorbs. Qed.

Lemma addSkills_absorbed result st :
  Forall (absorbed st) (skills result) →
  skillMap (addSkills result st) = skillMap st
  ∧ realPathSet (addSkills result st) = realPathSet st.
Proof. intros Hall. by apply (foldl_absorbed (pushDiagnostics _ st)). Qed.

(** X18: no skill is lost without trace.  After [addSkills], of every
    skill that was handed in either the file is recorded, because the
    skill was kept or because its file was recorded before, or a
    collision diagnostic names it as the loser. *)
Theorem addSkills_accounts result st skill :
  skill ∈ skills result →
  identity skill ∈ realPathSet (addSkills result st)
  ∨ ∃ existing,
      collisionDiagnostic existing skill
        ∈ collisionDiagnostics (addSkills result st).
Proof.
  unfold addSkills. generalize (pushDiagnostics (diagnostics result) st).
  induction (skills result) as [|other found IH]; intros st' Hin;
    [by apply elem_of_nil in Hin|].
  apply elem_of_cons in Hin as [->|Hin]; [|by apply IH]. simpl.
  destruct (foldl_extends (addSkill st' other) found) as (_ & Hset & _ & Hcoll).
  destruct (addSkill_cases st' other)
    as [[Hdup Heq]|[(_ & e & _ & Heq)|(_ & _ & Heq)]]; rewrite Heq in *.
  - left. set_solver.
  - right. exists e. destruct Hcoll as [rest ->]. simpl.
    rewrite !elem_of_app. left. right. by left.
  - left. apply Hset. simpl. set_solver.
Qed.

(** X19: handing the same skills to [addSkills] a second time keeps
    nothing more: the map of kept skills and the set of recorded files
    are as after the first time. *)
Theorem addSkills_twice result st :
  skillMap (addSkills result (addSkills result st))
  = skillMap (addSkills result st)
  ∧ realPathSet (addSkills result (addSkills result st))
    = realPathSet (addSkills result st).
Proof. apply addSkills_absorbed, addSkills_absorbs. Qed.

(** *** Diagnostics in two lists *)

Lemma wonBy_extends st st' d : extends st st' → wonBy st d → wonBy st' d.
Proof.
  intros (Hmap & _) (e & skill & -> & He & Hne). exists e, skill.
  split_and!; [done| |done]. by eapply get_prefix.
Qed.

Lemma orderly_initial : orderly initialState.
Proof. split_and!; [apply wellFormed_initial|constructor|constructor]. Qed.

Lemma orderly_addSkill st skill : orderly st → orderly (addSkill st skill).
Proof.
  intros (Hwf & Hall & Hcoll). split_and!.
  - by apply wellFormed_addSkill.
  - by rewrite addSkill_allDiagnostics.
  - pose proof (addSkill_extends st skill) as Hext.
    destruct (addSkill_cases st skill)
      as [[_ Heq]|[(Hnew & e & He & Heq)|(_ & _ & Heq)]]; rewrite Heq in *.
    + done.
    + simpl. apply Forall_app. split; [done|]. constructor; [|constructor].
      exists e, skill. split_and!; [done|done|].
      intros Hpath. apply Hnew.
      destruct Hwf as (_ & _ & Hset & _). apply Hset. exists e. split.
      * by eapply get_Some_value.
      * unfold identity. by rewrite Hpath.
    + simpl. eapply Forall_impl; [done|]. intros d. by apply wonBy_extends.
Qed.

Lemma orderly_pushDiagnostics ds st :
  Forall isWarning ds → orderly st → orderly (pushDiagnostics ds st).
Proof.
  intros Hds (Hwf & Hall & Hcoll). split_and!; [done| |done].
  simpl. by apply Forall_app.
Qed.

Lemma orderly_foldl st found : orderly st → orderly (foldl addSkill st found).
Proof.
  revert st. induction found as [|skill found IH]; intros st Hst; [done|].
  simpl. by apply IH, orderly_addSkill.
Qed.

Lemma orderly_addSkills result st :
  Forall isWarning (diagnostics result) → orderly st →
  orderly (addSkills result st).
Proof. intros Hds Hst. by apply orderly_foldl, orderly_pushDiagnostics. Qed.
End DedupMore.

(** ** [loadSkills]: what holds of every run *)

Section RunInvariant.
Context `{NodePath, NodeFs, NodeProcess, Yaml, Ignore}.
(** A property of the locals that is kept when warnings are appended
    and when skills filled in for the source [path] are added. *)
Variable P : LoaderState → Prop.
Hypothesis P_push :
  ∀ ds st, Forall isWarning ds → P st → P (pushDiagnostics ds st).
Hypothesis P_add :
  ∀ result st,
    Forall isWarning (diagnostics result) →
    Forall (filledIn (js "path")) (skills result) →
    P st → P (addSkills result st).

Lemma warnings_of filePath ds :
  Forall (fun d => ∃ message, d = warn message filePath) ds →
  Forall isWarning ds.
Proof.
  intros Hds. eapply Forall_impl; [done|]. intros d [m ->]. by exists m, filePath.
Qed.

Lemma parsedOnly_result parser source tr ds found :
  (∀ p, Forall (fun d => ∃ message, d = warn message p) (parser p source).2) →
  (∀ p skill, (parser p source).1 = Some skill →
              filledIn source skill ∧ Skill.filePath skill = p) →
  parsedOnly parser source tr ds found →
  Forall isWarning ds ∧ Forall (filledIn source) found.
Proof.
  intros Hwarn Hfilled [Hd Hs]. split; (eapply Forall_impl; [done|]); simpl.
  - intros d (p & _ & Hin). specialize (Hwarn p).
    rewrite Forall_forall in Hwarn. destruct (Hwarn d Hin) as [m ->].
    by exists m, p.
  - intros skill (p & _ & Hskill). by apply Hfilled in Hskill as [Hf _].
Qed.

Lemma Skills_loadPath_keeps fuel cwd rawPath :
  preserves P (Skills.loadPath fuel cwd rawPath).
Proof.
  unfold Skills.loadPath.
  destruct (negb _).
  { apply preserves_modify. intros st. apply P_push.
    constructor; [by eexists _, _|constructor]. }
  apply preserves_tryCatch.
  2:{ intros e. apply preserves_modify. intros st. apply P_push.
      constructor; [by eexists _, _|constructor]. }
  apply preserves_bind; [apply preserves_call|]. intros stats.
  destruct (Stats.isDirectory stats).
  { intros st Hst. unfold mbind, M_bind, fueled.
    destruct (Skills.loadSkillsFromDirInternal _ _ _ _ _ _) as [w|] eqn:Ew;
      [|done].
    simpl.
    apply Skills_walk_parsedOnly, parsedOnly_result in Ew as [Hd Hs];
      [|intros; apply Skills_parser_warnings
       |intros p skill; apply Skills_parser_filled].
    by apply P_add. }
  destruct (_ && _); [|apply preserves_ret].
  pose proof (Skills_parser_warnings (Skills.resolvePath cwd rawPath) (js "path"))
    as Hd%warnings_of.
  destruct (Skills.loadSkillFromFile _ _).1 as [skill|] eqn:Es;
    apply preserves_modify; intros st Hst.
  - apply P_add; simpl; [done| |done].
    apply Skills_parser_filled in Es as [Hf _]. by constructor.
  - by apply P_push.
Qed.

Lemma Index_loadPath_keeps fuel cwd rawPath :
  preserves P (Index.loadPath fuel cwd rawPath).
Proof.
  unfold Index.loadPath.
  destruct (negb _).
  { apply preserves_modify. intros st. apply P_push.
    constructor; [by eexists _, _|constructor]. }
  apply preserves_bind; [apply preserves_call|]. intros stats.
  destruct (Stats.isDirectory stats).
  { intros st Hst. unfold mbind, M_bind, fueled.
    destruct (Index.loadSkillsFromDir _ _ _ _ _ _) as [w|] eqn:Ew; [|done].
    simpl.
    apply Index_walk_parsedOnly, parsedOnly_result in Ew as [Hd Hs];
      [|intros; apply Index_parser_warnings
       |intros p skill; apply Index_parser_filled].
    by apply P_add. }
  destruct (_ && _); [|apply preserves_ret].
  pose proof (Index_parser_warnings (Index.resolvePath cwd rawPath) (js "path"))
    as Hd%warnings_of.
  destruct (Index.loadSkillFromFile _ _).1 as [skill|] eqn:Es;
    apply preserves_modify; intros st Hst.
  - apply P_add; simpl; [done| |done].
    apply Index_parser_filled in Es as [Hf _]. by constructor.
  - by apply P_push.
Qed.

Lemma loadSkills_keeps fuel options result :
  P initialState →
  Skills.loadSkills fuel options = Value result
  ∨ Index.loadSkills fuel options = Value result →
  ∃ st, P st ∧ result = finalResult st.
Proof.
  intros Hinit [Hrun|Hrun].
  - unfold Skills.loadSkills in Hrun.
    pose proof (preserves_forEach P (default [] (skillPaths options))
                  (Skills.loadPath fuel (default process_cwd (cwd options)))
                  (Skills_loadPath_keeps fuel _) initialState Hinit) as Hfinal.
    destruct (forEach _ _ initialState) as [[[]|e|] st]; [|done|done].
    injection Hrun as <-. by exists st.
  - unfold Index.loadSkills in Hrun.
    pose proof (preserves_forEach P (default [] (skillPaths options))
                  (Index.loadPath fuel (default process_cwd (cwd options)))
                  (Index_loadPath_keeps fuel _) initialState Hinit) as Hfinal.
    destruct (forEach _ _ initialState) as [[[]|e|] st]; [|done|done].
    injection Hrun as <-. by exists st.
Qed.
End RunInvariant.

Section RunMore.
Context `{NodePath, NodeFs, NodeProcess, Yaml, Ignore}.

(** X20: what every returned skill looks like.  In both loaders each
    skill of the result has the source [path], the directory of its
    file as base directory, and a description that is not empty. *)
Theorem loadSkills_skill_fields fuel options result :
  Skills.loadSkills fuel options = Value result
  ∨ Index.loadSkills fuel options = Value result →
  Forall (filledIn (js "path")) (skills result).
Proof.
  intros Hrun.
  apply (loadSkills_keeps
           (fun st => Forall (filledIn (js "path")) (JsMap.values (skillMap st))))
    in Hrun as (st & Hst & ->); [done| | |constructor].
  - done.
  - intros r st _ Hr Hst. by apply addSkills_all.
Qed.

Lemma loadSkills_orderly fuel options result :
  Skills.loadSkills fuel options = Value result
  ∨ Index.loadSkills fuel options = Value result →
  ∃ st, orderly st ∧ result = finalResult st.
Proof.
  apply loadSkills_keeps.
  - apply orderly_pushDiagnostics.
  - intros r st Hd _. by apply orderly_addSkills.
  - apply orderly_initial.
Qed.

(** X21: the order of the diagnostics.  The diagnostics of a result
    are warnings, each with the path it is about, followed by collisions:
    no collision stands before a warning, whatever the order in which
    the paths produced them, and there is no diagnostic of another
    kind. *)
Theorem loadSkills_diagnostics_order fuel options result :
  Skills.loadSkills fuel options = Value result
  ∨ Index.loadSkills fuel options = Value result →
  ∃ warnings collisions,
    diagnostics result = warnings ++ collisions
    ∧ Forall isWarning warnings ∧ Forall isCollision collisions.
Proof.
  intros (st & (_ & Hall & Hcoll) & ->)%loadSkills_orderly.
  exists (allDiagnostics st), (collisionDiagnostics st).
  split_and!; [done|done|].
  eapply Forall_impl; [done|]. intros d (e & skill & -> & _). by exists e, skill.
Qed.

(** X22: the winner of a collision is returned.  For every collision
    diagnostic of a result, the winner path is the file of a returned
    skill that has the name in dispute, and the loser path is another
    path. *)
Theorem collision_winner_returned fuel options result :
  Skills.loadSkills fuel options = Value result
  ∨ Index.loadSkills fuel options = Value result →
  Forall (fun d =>
            ∀ c, Diagnostic.collision d = Some c →
                 Collision.winnerPath c ≠ Collision.loserPath c
                 ∧ ∃ winner,
                     winner ∈ skills result
                     ∧ Skill.name winner = Collision.name c
                     ∧ Skill.filePath winner = Collision.winnerPath c)
    (diagnostics result).
Proof.
  intros (st & ((_ & Hnamed & _) & Hall & Hcoll) & ->)%loadSkills_orderly.
  simpl. apply Forall_app. split.
  - eapply Forall_impl; [done|]. by intros d (m & p & ->) c.
  - eapply Forall_impl; [done|].
    intros d (e & skill & -> & He & Hne) c [= <-]. simpl. split; [done|].
    exists e. split_and!; [by eapply get_Some_value| |done].
    apply get_Some in He. rewrite Forall_forall in Hnamed.
    exact (Hnamed _ He).
Qed.
End RunMore.

(** ** [loadSkills]: the list of paths *)

Lemma forEach_app {X} (xs ys : list X) (body : X → M unit) st :
  forEach (xs ++ ys) body st =
  match forEach xs body st with
  | (Value _, st') => forEach ys body st'
  | other => other
  end.
Proof.
  revert st. induction xs as [|x xs IH]; intros st; [done|].
  simpl. unfold mbind, M_bind.
  destruct (body x st) as [[[]|e|] st']; [apply IH|done|done].
Qed.

Lemma pushDiagnostics_nil st : pushDiagnostics [] st = st.
Proof. destruct st. unfold pushDiagnostics. simpl. by rewrite app_nil_r. Qed.


Section PathsMore.
Context `{NodePath, NodeFs, NodeProcess, Yaml, Ignore}.
Implicit Types (paths more : list jsstring) (base : option jsstring).




Lemma extends_push ds st0 st :
  extends st0 st → extends st0 (pushDiagnostics ds st).
Proof.
  intros Hext. eapply extends_trans; [done|apply pushDiagnostics_extends].
Qed.

Lemma extends_add result st0 st :
  extends st0 st → extends st0 (addSkills result st).
Proof.
  intros Hext. eapply extends_trans; [done|apply addSkills_extends].
Qed.

Lemma extends_result st st' :
  extends st st' →
  skills (finalResult st) `prefix_of` skills (finalResult st')
  ∧ Forall (fun d => d ∈ diagnostics (finalResult st'))
      (diagnostics (finalResult st)).
Proof.
  intros ([m Hm] & _ & [a Ha] & [c Hc]). unfold finalResult. simpl. split.
  - rewrite Hm. unfold JsMap.values. rewrite map_app. by apply prefix_app_r.
  - rewrite Ha, Hc. apply Forall_forall. intros d.
    rewrite !elem_of_app. tauto.
Qed.

(** X24: earlier paths win.  Giving more paths after the ones given
    changes nothing about what the first ones yield: the skills of the
    shorter call are the first skills of the longer call, in the same
    order, and every diagnostic of the shorter call is a diagnostic of
    the longer one.  So of two skills of one name the one from the
    earlier path is returned. *)
Theorem earlier_paths_win fuel base paths more result result' :
  (Skills.loadSkills fuel (withPaths base paths) = Value result
   ∧ Skills.loadSkills fuel (withPaths base (paths ++ more)) = Value result')
  ∨ (Index.loadSkills fuel (withPaths base paths) = Value result
     ∧ Index.loadSkills fuel (withPaths base (paths ++ more)) = Value result') →
  skills result `prefix_of` skills result'
  ∧ Forall (fun d => d ∈ diagnostics result') (diagnostics result).
Proof.
  unfold Skills.loadSkills, Index.loadSkills. simpl.
  set (dir := default process_cwd base).
  intros [[Hrun Hrun']|[Hrun Hrun']]; rewrite forEach_app in Hrun'.
  - destruct (forEach paths (Skills.loadPath fuel dir) initialState)
      as [[[]|e|] st]; [|done|done].
    injection Hrun as <-.
    pose proof (preserves_forEach (extends st) more (Skills.loadPath fuel dir)
                  (fun x => Skills_loadPath_preserves (extends st) fuel dir x
                              (fun ds st' => extends_push ds st st')
                              (fun r st' => extends_add r st st'))
                  st (extends_refl st)) as Hext.
    destruct (forEach more _ st) as [[[]|e|] st']; [|done|done].
    injection Hrun' as <-. by apply extends_result.
  - destruct (forEach paths (Index.loadPath fuel dir) initialState)
      as [[[]|e|] st]; [|done|done].
    injection Hrun as <-.
    pose proof (preserves_forEach (extends st) more (Index.loadPath fuel dir)
                  (fun x => Index_loadPath_preserves (extends st) fuel dir x
                              (fun ds st' => extends_push ds st st')
                              (fun r st' => extends_add r st st'))
                  st (extends_refl st)) as Hext.
    destruct (forEach more _ st) as [[[]|e|] st']; [|done|done].
    injection Hrun' as <-. by apply extends_result.
Qed.

(** *** A path given twice *)

(** What one path does to the locals does not depend on them: it adds
    one result, and how it completes is fixed. *)
Lemma Skills_loadPath_effect fuel dir rawPath :
  ∃ outcome result,
    ∀ st, Skills.loadPath fuel dir rawPath st = (outcome, addSkills result st).
Proof.
  unfold Skills.loadPath, tryCatch, mbind, M_bind, call, fueled, modify.
  destruct (negb _).
  { by exists (Value tt),
      {| skills := [];
         diagnostics := [warn (js "skill path does not exist")
                           (Skills.resolvePath dir rawPath)] |}. }
  destruct (statSync _) as [stats|e].
  2:{ by exists (Value tt),
        {| skills := [];
           diagnostics := [warn e (Skills.resolvePath dir rawPath)] |}. }
  destruct (Stats.isDirectory stats).
  { destruct (Skills.loadSkillsFromDirInternal _ _ _ _ _ _) as [w|].
    - by exists (Value tt), (Walk.result w).
    - exists OutOfFuel, {| skills := []; diagnostics := [] |}. intros st.
      unfold addSkills. simpl. by rewrite pushDiagnostics_nil. }
  destruct (_ && _).
  - destruct (Skills.loadSkillFromFile _ _) as [[skill|] ds]; simpl.
    + by exists (Value tt), {| skills := [skill]; diagnostics := ds |}.
    + by exists (Value tt), {| skills := []; diagnostics := ds |}.
  - exists (Value tt), {| skills := []; diagnostics := [] |}. intros st.
    unfold addSkills. simpl. by rewrite pushDiagnostics_nil.
Qed.

Lemma Index_loadPath_effect fuel dir rawPath :
  ∃ outcome result,
    ∀ st, Index.loadPath fuel dir rawPath st = (outcome, addSkills result st).
Proof.
  unfold Index.loadPath, mbind, M_bind, call, fueled, modify.
  destruct (negb _).
  { by exists (Value tt),
      {| skills := [];
         diagnostics := [warn (js "path not found")
                           (Index.resolvePath dir rawPath)] |}. }
  destruct (statSync _) as [stats|e].
  2:{ exists (Raised e), {| skills := []; diagnostics := [] |}. intros st.
      unfold addSkills. simpl. by rewrite pushDiagnostics_nil. }
  destruct (Stats.isDirectory stats).
  { destruct (Index.loadSkillsFromDir _ _ _ _ _ _) as [w|].
    - by exists (Value tt), (Walk.result w).
    - exists OutOfFuel, {| skills := []; diagnostics := [] |}. intros st.
      unfold addSkills. simpl. by rewrite pushDiagnostics_nil. }
  destruct (_ && _).
  - destruct (Index.loadSkillFromFile _ _) as [[skill|] ds]; simpl.
    + by exists (Value tt), {| skills := [skill]; diagnostics := ds |}.
    + by exists (Value tt), {| skills := []; diagnostics := ds |}.
  - exists (Value tt), {| skills := []; diagnostics := [] |}. intros st.
    unfold addSkills. simpl. by rewrite pushDiagnostics_nil.
Qed.

Section Repeated.
Context {X : Type}.
Variable body : X → M unit.
Hypothesis body_effect :
  ∀ x, ∃ outcome result, ∀ st, body x st = (outcome, addSkills result st).

Lemma forEach_extends xs st : extends st (forEach xs body st).2.
Proof.
  apply (preserves_forEach (extends st)); [|apply extends_refl].
  intros x st' Hext. destruct (body_effect x) as (outcome & result & ->).
  simpl. by apply extends_add.
Qed.

Lemma forEach_repeated x xs st0 st1 :
  x ∈ xs → forEach xs body st0 = (Value tt, st1) →
  ∃ st2, body x st1 = (Value tt, st2) ∧ skillMap st2 = skillMap st1.
Proof.
  revert st0. induction xs as [|y ys IH]; intros st0 Hin Hrun;
    [by apply elem_of_nil in Hin|].
  simpl in Hrun. unfold mbind, M_bind in Hrun.
  destruct (body y st0) as [[[]|e|] st'] eqn:Ey; [|done|done].
  apply elem_of_cons in Hin as [->|Hin]; [|by eapply IH].
  destruct (body_effect y) as (outcome & result & Heff).
  rewrite Heff in Ey. injection Ey as -> <-.
  exists (addSkills result st1). split; [by rewrite Heff|].
  apply addSkills_absorbed.
  eapply Forall_impl; [apply (addSkills_absorbs result st0)|].
  intros skill. apply absorbed_extends.
  pose proof (forEach_extends ys (addSkills result st0)) as Hext.
  by rewrite Hrun in Hext.
Qed.
End Repeated.

(** X25: a path given twice.  Giving once more, at the end, a path
    that is already among the paths adds no skill: the call returns, and
    its skills are those of the call without the repetition.  (Its
    diagnostics are reported again.) *)
Theorem repeated_path fuel base paths rawPath :
  rawPath ∈ paths →
  (∀ result,
     Skills.loadSkills fuel (withPaths base paths) = Value result →
     ∃ result',
       Skills.loadSkills fuel (withPaths base (paths ++ [rawPath]))
       = Value result'
       ∧ skills result' = skills result)
  ∧ (∀ result,
       Index.loadSkills fuel (withPaths base paths) = Value result →
       ∃ result',
         Index.loadSkills fuel (withPaths base (paths ++ [rawPath]))
         = Value result'
         ∧ skills result' = skills result).
Proof.
  intros Hin. unfold Skills.loadSkills, Index.loadSkills. simpl.
  set (dir := default process_cwd base).
  split; intros result Hrun; rewrite forEach_app.
  - destruct (forEach paths (Skills.loadPath fuel dir) initialState)
      as [[[]|e|] st] eqn:Erun; [|done|done].
    injection Hrun as <-.
    destruct (forEach_repeated (Skills.loadPath fuel dir)
                (Skills_loadPath_effect fuel dir) rawPath paths _ _ Hin Erun)
      as (st2 & Hagain & Hmap).
    simpl. unfold mbind, M_bind. rewrite Hagain. eexists. split; [done|].
    simpl. by rewrite Hmap.
  - destruct (forEach paths (Index.loadPath fuel dir) initialState)
      as [[[]|e|] st] eqn:Erun; [|done|done].
    injection Hrun as <-.
    destruct (forEach_repeated (Index.loadPath fuel dir)
                (Index_loadPath_effect fuel dir) rawPath paths _ _ Hin Erun)
      as (st2 & Hagain & Hmap).
    simpl. unfold mbind, M_bind. rewrite Hagain. eexists. split; [done|].
    simpl. by rewrite Hmap.
Qed.

(** *** Termination and exceptions in skills.ts *)

Lemma Skills_loadPath_mono fuel extra dir rawPath st :
  (Skills.loadPath fuel dir rawPath st).1 ≠ OutOfFuel →
  Skills.loadPath (fuel + extra) dir rawPath st
  = Skills.loadPath fuel dir rawPath st.
Proof.
  unfold Skills.loadPath, tryCatch, mbind, M_bind, call, fueled.
  destruct (negb _); [done|].
  destruct (statSync _) as [stats|e]; [|done].
  destruct (Stats.isDirectory stats); [|done].
  destruct (Skills.loadSkillsFromDirInternal fuel _ _ _ _ _) as [w|] eqn:Ew;
    [|done].
  intros _. by rewrite (Skills_walk_mono _ extra _ _ _ _ _ _ Ew).
Qed.

Lemma Skills_forEach_mono fuel extra dir paths st :
  (forEach paths (Skills.loadPath fuel dir) st).1 ≠ OutOfFuel →
  forEach paths (Skills.loadPath (fuel + extra) dir) st
  = forEach paths (Skills.loadPath fuel dir) st.
Proof.
  revert st. induction paths as [|rawPath rest IH]; intros st; [done|].
  simpl. unfold mbind, M_bind. intros Hrun.
  rewrite Skills_loadPath_mono.
  - destruct (Skills.loadPath fuel dir rawPath st) as [[[]|e|] st'];
      [by apply IH|done|done].
  - intros Hout.
    destruct (Skills.loadPath fuel dir rawPath st) as [[[]|e|] st'];
      simpl in *; done.
Qed.

Lemma Skills_loadSkills_mono fuel extra options result :
  Skills.loadSkills fuel options = Value result →
  Skills.loadSkills (fuel + extra) options = Value result.
Proof.
  unfold Skills.loadSkills. intros Hrun. rewrite Skills_forEach_mono; [done|].
  by destruct (forEach _ _ initialState) as [[[]|e|] st].
Qed.

(** X26: skills.ts returns.  Called with a working directory that
    is an absolute path, so that the directory of the process is never
    asked for, and over directory trees that are finite, [loadSkills] of
    skills.ts returns a result, the same for every depth allowed that is
    large enough, and at no depth does it throw: a run cut short by the
    depth allowed is the only other outcome. *)
Theorem Skills_loadSkills_total options dir :
  cwd options = Some dir → isAbsolute dir = true →
  (∀ rawPath,
     rawPath ∈ default [] (skillPaths options) →
     finiteBelow (Skills.resolvePath dir rawPath)) →
  ∃ fuel result,
    (∀ extra, Skills.loadSkills (fuel + extra) options = Value result)
    ∧ (∀ less,
         Skills.loadSkills less options = Value result
         ∨ Skills.loadSkills less options = OutOfFuel).
Proof.
  intros Hcwd _ Hfinite.
  destruct (Skills_loadSkills_returns options) as (fuel & result & Hrun).
  { by rewrite Hcwd. }
  exists fuel, result. split.
  - intros extra. by apply Skills_loadSkills_mono.
  - intros less.
    destruct (Skills.loadSkills less options) as [result'|e|] eqn:Eless.
    + left. apply (Skills_loadSkills_mono _ fuel) in Eless.
      apply (Skills_loadSkills_mono _ less) in Hrun.
      rewrite Nat.add_comm in Eless. congruence.
    + by apply Skills_loadSkills_never_raises in Eless.
    + by right.
Qed.

(** *** The working directory *)

Lemma forEach_ext {X} (xs : list X) (body body' : X → M unit) :
  Forall (fun x => body x = body' x) xs → forEach xs body = forEach xs body'.
Proof.
  induction 1 as [|x xs Hx _ IH]; [done|]. simpl. by rewrite Hx, IH.
Qed.

(** X27: the working directory serves relative paths only.  When
    every given path is absolute, [loadSkills] completes in the same
    way, with the same result, for any two working directories it is
    given, in both loaders. *)
Theorem cwd_only_for_relative fuel dir dir' paths :
  Forall (fun rawPath => isAbsolute rawPath = true) paths →
  Skills.loadSkills fuel (withPaths (Some dir) paths)
  = Skills.loadSkills fuel (withPaths (Some dir') paths)
  ∧ Index.loadSkills fuel (withPaths (Some dir) paths)
    = Index.loadSkills fuel (withPaths (Some dir') paths).
Proof.
  intros Habs. unfold Skills.loadSkills, Index.loadSkills. simpl.
  split.
  - rewrite (forEach_ext paths _ (Skills.loadPath fuel dir')); [done|].
    eapply Forall_impl; [done|]. intros rawPath Hp. simpl.
    unfold Skills.loadPath, Skills.resolvePath. by rewrite Hp.
  - rewrite (forEach_ext paths _ (Index.loadPath fuel dir')); [done|].
    eapply Forall_impl; [done|]. intros rawPath Hp. simpl.
    unfold Index.loadPath, Index.resolvePath. by rewrite Hp.
Qed.

(** *** Exceptions in index.ts *)

Lemma Index_loadPath_raises fuel dir rawPath st e :
  (Index.loadPath fuel dir rawPath st).1 = Raised e →
  existsSync (Index.resolvePath dir rawPath) = true
  ∧ statSync (Index.resolvePath dir rawPath) = Throws e.
Proof.
  unfold Index.loadPath, mbind, M_bind, call, fueled, modify.
  destruct (existsSync _); simpl; [|done].
  destruct (statSync _) as [stats|e'].
  - destruct (Stats.isDirectory stats).
    + by destruct (Index.loadSkillsFromDir _ _ _ _ _ _).
    + destruct (_ && _); [|done]. by destruct (Index.loadSkillFromFile _ _).1.
  - by intros [= ->].
Qed.

(** X28: what index.ts throws on files.  When [loadSkills] of
    index.ts is called with a working directory that is an absolute
    path and none of the given paths is a directory, the only exception
    that leaves it is one thrown by [statSync] on a given path that
    [existsSync] had found; its message is passed on unchanged.  What
    the parser, [realpathSync] and the reading of files throw does not
    leave the call. *)
Theorem Index_raises_only_stat fuel options dir e :
  cwd options = Some dir → isAbsolute dir = true →
  Forall (fun rawPath =>
            ∀ stats,
              statSync (Index.resolvePath dir rawPath) = Returns stats →
              Stats.isDirectory stats = false)
    (default [] (skillPaths options)) →
  Index.loadSkills fuel options = Raised e →
  ∃ rawPath,
    rawPath ∈ default [] (skillPaths options)
    ∧ existsSync (Index.resolvePath dir rawPath) = true
    ∧ statSync (Index.resolvePath dir rawPath) = Throws e.
Proof.
  intros Hcwd _ _. unfold Index.loadSkills. rewrite Hcwd. simpl.
  generalize initialState.
  induction (default [] (skillPaths options)) as [|rawPath rest IH];
    intros st Hrun; [done|].
  simpl in Hrun. unfold mbind, M_bind in Hrun.
  destruct (Index.loadPath fuel dir rawPath st) as [[[]|e'|] st'] eqn:Estep.
  - destruct (IH st' Hrun) as (q & Hq & Hfound). exists q. split; [by right|done].
  - injection Hrun as ->. exists rawPath. split; [by left|].
    apply (Index_loadPath_raises fuel dir rawPath st). by rewrite Estep.
  - done.
Qed.
End PathsMore.

(** ** [loadSkills]: the first writer wins *)

Section Kinds.
Context {A : Type}.
Implicit Types (f : A → bool) (l : list A).

Lemma filter_all f l : Forall (fun x => f x = true) l → List.filter f l = l.
Proof.
  induction 1 as [|x l Hx _ IH]; [done|]. simpl. by rewrite Hx, IH.
Qed.

Lemma filter_nothing f l :
  Forall (fun x => f x = false) l → List.filter f l = [].
Proof.
  induction 1 as [|x l Hx _ IH]; [done|]. simpl. by rewrite Hx, IH.
Qed.
End Kinds.

Section NamesOfMap.
Implicit Types (m : JsMap.t Skill.t) (skill existing : Skill.t).

Lemma keys_names m :
  Forall (fun entry => Skill.name entry.2 = entry.1) m →
  JsMap.keys m = map Skill.name (JsMap.values m).
Proof.
  induction 1 as [|[k v] m Hk _ IH]; [done|].
  simpl in *. by rewrite Hk, <- IH.
Qed.

Lemma get_of_value m existing :
  NoDup (JsMap.keys m) →
  Forall (fun entry => Skill.name entry.2 = entry.1) m →
  existing ∈ JsMap.values m →
  JsMap.get m (Skill.name existing) = Some existing.
Proof.
  intros Hnd Hnamed. induction Hnamed as [|[k v] m Hk Hnamed IH];
    intros Hin; [by apply elem_of_nil in Hin|].
  simpl in *. apply NoDup_cons in Hnd as [Hfresh Hnd].
  apply elem_of_cons in Hin as [->|Hin].
  - by rewrite bool_decide_true.
  - rewrite bool_decide_false; [by apply IH|].
    intros ->. apply Hfresh. rewrite (keys_names m Hnamed).
    by apply list_elem_of_fmap_2.
Qed.

Lemma find_get m k :
  Forall (fun entry => Skill.name entry.2 = entry.1) m →
  List.find (fun e => bool_decide (Skill.name e = k)) (JsMap.values m)
  = JsMap.get m k.
Proof.
  induction 1 as [|[k' v] m Hk _ IH]; [done|].
  simpl in *. rewrite Hk. by case_bool_decide.
Qed.
End NamesOfMap.

Section FirstWins.
Context `{NodePath, NodeFs, NodeProcess, Yaml, Ignore}.
Implicit Types (st : LoaderState) (skill existing : Skill.t)
  (paths : list jsstring) (base : option jsstring).

Lemma orderly_kinds st :
  orderly st →
  warningsOf (finalResult st) = allDiagnostics st
  ∧ collisionsOf (finalResult st) = collisionDiagnostics st.
Proof.
  intros (_ & Hall & Hcoll). unfold warningsOf, collisionsOf, finalResult.
  simpl. rewrite !List.filter_app. split.
  - rewrite filter_all, filter_nothing; [by rewrite app_nil_r| |].
    + eapply Forall_impl; [done|]. by intros d (e & skill & -> & _).
    + eapply Forall_impl; [done|]. by intros d (m & p & ->).
  - rewrite filter_nothing, filter_all; [done| |].
    + eapply Forall_impl; [done|]. by intros d (e & skill & -> & _).
    + eapply Forall_impl; [done|]. by intros d (m & p & ->).
Qed.

(** A skill of a new file, added to locals that are well formed: a kept
    skill of its name wins, and without one it is kept, last. *)
Lemma addSkill_first_wins st skill :
  wellFormed st →
  identity skill ∉ map identity (JsMap.values (skillMap st)) →
  (∀ existing,
     existing ∈ JsMap.values (skillMap st) →
     Skill.name existing = Skill.name skill →
     addSkill st skill = collided st existing skill)
  ∧ (Skill.name skill ∉ map Skill.name (JsMap.values (skillMap st)) →
     addSkill st skill = recorded st skill).
Proof.
  intros (Hnd & Hnamed & Hset & _) Hnew.
  assert (identity skill ∉ realPathSet st) as Hout.
  { intros (e & He & Hid)%Hset. apply Hnew. rewrite <- Hid.
    by apply list_elem_of_fmap_2. }
  split.
  - intros existing Hin Hname. apply addSkill_collision; [done|].
    rewrite <- Hname. by apply get_of_value.
  - intros Hfree. apply addSkill_fresh; [done|].
    apply get_None. by rewrite (keys_names _ Hnamed).
Qed.

(** One turn of the loop of [addSkills] is one step of [settle]. *)
Lemma addSkill_settle st skill :
  wellFormed st →
  (JsMap.values (skillMap (addSkill st skill)),
   collisionDiagnostics (addSkill st skill))
  = settle (JsMap.values (skillMap st), collisionDiagnostics st) skill.
Proof.
  intros (_ & Hnamed & Hset & _). unfold settle.
  rewrite (find_get _ _ Hnamed).
  assert (identity skill ∈ map identity (JsMap.values (skillMap st))
          ↔ identity skill ∈ realPathSet st) as Hid.
  { rewrite Hset, list_elem_of_fmap. split.
    - intros (e & He & Hin). by exists e.
    - intros (e & Hin & He). by exists e. }
  destruct (addSkill_cases st skill)
    as [[Hdup ->]|[(Hnew & e & He & ->)|(Hnew & Hfree & ->)]].
  - rewrite bool_decide_true; [done|by apply Hid].
  - rewrite bool_decide_false; [|by rewrite Hid]. by rewrite He.
  - rewrite bool_decide_false; [|by rewrite Hid]. rewrite Hfree.
    unfold recorded, JsMap.values. simpl. by rewrite map_app.
Qed.

Lemma foldl_settle st found :
  wellFormed st →
  (JsMap.values (skillMap (foldl addSkill st found)),
   collisionDiagnostics (foldl addSkill st found))
  = foldl settle (JsMap.values (skillMap st), collisionDiagnostics st) found.
Proof.
  revert st. induction found as [|skill found IH]; intros st Hwf; [done|].
  simpl. rewrite IH by by apply wellFormed_addSkill.
  by rewrite addSkill_settle.
Qed.

Lemma Skills_run_orderly fuel dir paths :
  orderly (forEach paths (Skills.loadPath fuel dir) initialState).2.
Proof.
  apply (preserves_forEach orderly); [|apply orderly_initial].
  intros rawPath. apply (Skills_loadPath_keeps orderly).
  - apply orderly_pushDiagnostics.
  - intros r st Hd _. by apply orderly_addSkills.
Qed.

Lemma Index_run_orderly fuel dir paths :
  orderly (forEach paths (Index.loadPath fuel dir) initialState).2.
Proof.
  apply (preserves_forEach orderly); [|apply orderly_initial].
  intros rawPath. apply (Index_loadPath_keeps orderly).
  - apply orderly_pushDiagnostics.
  - intros r st Hd _. by apply orderly_addSkills.
Qed.

Lemma Skills_given_file fuel dir rawPath skill ds st :
  markdownFile (Skills.resolvePath dir rawPath) →
  Skills.loadSkillFromFile (Skills.resolvePath dir rawPath) (js "path")
  = (Some skill, ds) →
  Skills.loadPath fuel dir rawPath st
  = (Value tt, addSkills {| skills := [skill]; diagnostics := ds |} st).
Proof.
  intros (Hexists & stats & Hstat & Hdir & Hfile & Hmd) Hparsed.
  unfold Skills.loadPath, tryCatch, mbind, M_bind, call.
  by rewrite Hexists, Hstat, Hdir, Hfile, Hmd, Hparsed.
Qed.

Lemma Index_given_file fuel dir rawPath skill ds st :
  markdownFile (Index.resolvePath dir rawPath) →
  Index.loadSkillFromFile (Index.resolvePath dir rawPath) (js "path")
  = (Some skill, ds) →
  Index.loadPath fuel dir rawPath st
  = (Value tt, addSkills {| skills := [skill]; diagnostics := ds |} st).
Proof.
  intros (Hexists & stats & Hstat & Hdir & Hfile & Hmd) Hparsed.
  unfold Index.loadPath, mbind, M_bind, call.
  by rewrite Hexists, Hstat, Hdir, Hfile, Hmd, Hparsed.
Qed.

(** The result after one more skill of a new file, in terms of the
    result before. *)
Lemma finalResult_first_wins st skill ds :
  orderly st →
  identity skill ∉ map identity (skills (finalResult st)) →
  (∀ existing,
     existing ∈ skills (finalResult st) →
     Skill.name existing = Skill.name skill →
     finalResult (addSkills {| skills := [skill]; diagnostics := ds |} st)
     = {| skills := skills (finalResult st);
          diagnostics :=
            warningsOf (finalResult st) ++ ds
              ++ collisionsOf (finalResult st)
              ++ [collisionDiagnostic existing skill] |})
  ∧ (Skill.name skill ∉ map Skill.name (skills (finalResult st)) →
     finalResult (addSkills {| skills := [skill]; diagnostics := ds |} st)
     = {| skills := skills (finalResult st) ++ [skill];
          diagnostics :=
            warningsOf (finalResult st) ++ ds
              ++ collisionsOf (finalResult st) |}).
Proof.
  intros Hst Hnew. destruct (orderly_kinds st Hst) as [-> ->].
  destruct Hst as (Hwf & _).
  destruct (addSkill_first_wins (pushDiagnostics ds st) skill) as [Hwin Hkeep];
    [by apply wellFormed_pushDiagnostics|done|].
  unfold addSkills. simpl. split.
  - intros existing Hin Hname. rewrite (Hwin existing Hin Hname).
    unfold finalResult. simpl. by rewrite <- !(assoc_L (++)).
  - intros Hfree. rewrite (Hkeep Hfree).
    unfold finalResult, JsMap.values. simpl.
    by rewrite map_app, <- !(assoc_L (++)).
Qed.

(** C1: no two returned skills share a name, and the first writer wins
    within a call.  Let a call on some paths return a result, and let one
    more path be given after them that is a markdown file the parser
    takes a skill from, of a file that none of the returned skills is
    of.  If a returned skill has the name of the new skill, the longer
    call returns the same skills, the earlier one among them and
    unchanged, and its diagnostics are those of the shorter call with
    the parser's warnings for the file and exactly one more collision,
    which names the kept skill's path as winner and the new skill's path
    as loser.  If no returned skill has the name, the new skill is
    returned after the others and there is no new collision.  This holds
    in both loaders.  For the skills of any result handed to
    [addSkills], those of a walk as well, the skills kept and the
    collisions recorded afterwards are those that first writer wins
    gives on lists, skill by skill.  Inside the loop, a skill whose file
    identity is new but whose name is taken leaves the map, the identity
    set and the other diagnostics as they were and adds that one
    collision diagnostic. *)
Theorem loadSkills_distinct_names :
  (∀ fuel options result,
     Skills.loadSkills fuel options = Value result
     ∨ Index.loadSkills fuel options = Value result →
     NoDup (map Skill.name (skills result)))
  ∧ (∀ fuel base paths rawPath skill ds result,
       Skills.loadSkills fuel (withPaths base paths) = Value result →
       markdownFile (Skills.resolvePath (default process_cwd base) rawPath) →
       Skills.loadSkillFromFile
         (Skills.resolvePath (default process_cwd base) rawPath) (js "path")
       = (Some skill, ds) →
       identity skill ∉ map identity (skills result) →
       (∀ existing,
          existing ∈ skills result →
          Skill.name existing = Skill.name skill →
          Skills.loadSkills fuel (withPaths base (paths ++ [rawPath]))
          = Value {| skills := skills result;
                     diagnostics :=
                       warningsOf result ++ ds ++ collisionsOf result
                         ++ [collisionDiagnostic existing skill] |})
       ∧ (Skill.name skill ∉ map Skill.name (skills result) →
          Skills.loadSkills fuel (withPaths base (paths ++ [rawPath]))
          = Value {| skills := skills result ++ [skill];
                     diagnostics :=
                       warningsOf result ++ ds ++ collisionsOf result |}))
  ∧ (∀ fuel base paths rawPath skill ds result,
       Index.loadSkills fuel (withPaths base paths) = Value result →
       markdownFile (Index.resolvePath (default process_cwd base) rawPath) →
       Index.loadSkillFromFile
         (Index.resolvePath (default process_cwd base) rawPath) (js "path")
       = (Some skill, ds) →
       identity skill ∉ map identity (skills result) →
       (∀ existing,
          existing ∈ skills result →
          Skill.name existing = Skill.name skill →
          Index.loadSkills fuel (withPaths base (paths ++ [rawPath]))
          = Value {| skills := skills result;
                     diagnostics :=
                       warningsOf result ++ ds ++ collisionsOf result
                         ++ [collisionDiagnostic existing skill] |})
       ∧ (Skill.name skill ∉ map Skill.name (skills result) →
          Index.loadSkills fuel (withPaths base (paths ++ [rawPath]))
          = Value {| skills := skills result ++ [skill];
                     diagnostics :=
                       warningsOf result ++ ds ++ collisionsOf result |}))
  ∧ (∀ st result,
       wellFormed st →
       (JsMap.values (skillMap (addSkills result st)),
        collisionDiagnostics (addSkills result st))
       = foldl settle (JsMap.values (skillMap st), collisionDiagnostics st)
           (skills result))
  ∧ (∀ st skill existing,
       identity skill ∉ realPathSet st →
       JsMap.get (skillMap st) (Skill.name skill) = Some existing →
       (Skill.name skill, existing) ∈ skillMap st
       ∧ skillMap (addSkill st skill) = skillMap st
       ∧ realPathSet (addSkill st skill) = realPathSet st
       ∧ allDiagnostics (addSkill st skill) = allDiagnostics st
       ∧ (∃ d,
            collisionDiagnostics (addSkill st skill)
              = collisionDiagnostics st ++ [d]
            ∧ Diagnostic.type d = DiagnosticType.collision
            ∧ Diagnostic.collision d =
                Some {| Collision.resourceType := js "skill";
                        Collision.name := Skill.name skill;
                        Collision.winnerPath := Skill.filePath existing;
                        Collision.loserPath := Skill.filePath skill |})).
Proof.
  split_and!.
  - intros fuel options result Hrun.
    destruct (loadSkills_wellFormed _ _ _ Hrun) as (st & Hwf & ->).
    by apply wellFormed_names.
  - intros fuel base paths rawPath skill ds result Hrun Hfile Hparsed.
    unfold Skills.loadSkills in *. simpl in *.
    set (dir := default process_cwd base) in *.
    pose proof (Skills_run_orderly fuel dir paths) as Hst.
    rewrite forEach_app.
    destruct (forEach paths (Skills.loadPath fuel dir) initialState)
      as [[[]|e|] st]; [|done|done].
    injection Hrun as <-. simpl in Hst. cbn [forEach]. unfold mbind, M_bind.
    rewrite (Skills_given_file _ _ _ _ _ _ Hfile Hparsed). cbn [mret M_ret].
    intros Hnew.
    destruct (finalResult_first_wins st skill ds Hst Hnew) as [Hwin Hkeep].
    split.
    + intros existing Hin Hname. by rewrite (Hwin existing Hin Hname).
    + intros Hfree. by rewrite (Hkeep Hfree).
  - intros fuel base paths rawPath skill ds result Hrun Hfile Hparsed.
    unfold Index.loadSkills in *. simpl in *.
    set (dir := default process_cwd base) in *.
    pose proof (Index_run_orderly fuel dir paths) as Hst.
    rewrite forEach_app.
    destruct (forEach paths (Index.loadPath fuel dir) initialState)
      as [[[]|e|] st]; [|done|done].
    injection Hrun as <-. simpl in Hst. cbn [forEach]. unfold mbind, M_bind.
    rewrite (Index_given_file _ _ _ _ _ _ Hfile Hparsed). cbn [mret M_ret].
    intros Hnew.
    destruct (finalResult_first_wins st skill ds Hst Hnew) as [Hwin Hkeep].
    split.
    + intros existing Hin Hname. by rewrite (Hwin existing Hin Hname).
    + intros Hfree. by rewrite (Hkeep Hfree).
  - intros st result Hwf. unfold addSkills.
    by rewrite foldl_settle by by apply wellFormed_pushDiagnostics.
  - intros st skill existing Hnew Hget.
    rewrite (addSkill_collision _ _ _ Hnew Hget). split_and!; try done.
    + by apply get_Some.
    + by eexists.
Qed.
End FirstWins.

(** ** The properties above on the fixtures *)

Section MoreScenarios.
Import Fixture.

(** X4 on a file whose block the parser knows, and on one whose block
    makes it throw. *)
Lemma parseFrontmatter_fallback_witness :
  (@Utils.parseFrontmatter (tableYaml documents) describedFile).1
  = describedAs (js "d")
  ∧ (@Utils.parseFrontmatter (tableYaml documents)
       (js "---" ++ [LF] ++ js "name: [" ++ [LF] ++ js "---")).1
    = noFrontmatter.
Proof.
  split.
  - destruct (@parseFrontmatter_fallback (tableYaml documents) describedFile)
      as (_ & Hparsed & _).
    apply (Hparsed (js "description: d")); [by vm_compute| |by vm_compute].
    intros Hempty. vm_compute in Hempty. discriminate Hempty.
  - destruct (@parseFrontmatter_fallback (tableYaml documents)
                (js "---" ++ [LF] ++ js "name: [" ++ [LF] ++ js "---"))
      as (_ & _ & Hfallback).
    apply Hfallback. right. right. exists (js "name: [").
    split; [by vm_compute|]. right. eexists. by vm_compute.
Defined.

(** X12 on the file whose description is three spaces: both parsers
    report that the description is required, skills.ts returns no skill,
    and index.ts, for which three spaces are no empty description,
    returns one. *)
Lemma description_gate_witness :
  warn (js "description is required") blankPath
    ∈ (@Skills.loadSkillFromFile posix blankFs (tableYaml documents)
         blankPath (js "path")).2
  ∧ (@Skills.loadSkillFromFile posix blankFs (tableYaml documents)
       blankPath (js "path")).1 = None
  ∧ warn (js "description is required") blankPath
      ∈ (@Index.loadSkillFromFile posix blankFs (tableYaml documents)
           blankPath (js "path")).2
  ∧ (@Index.loadSkillFromFile posix blankFs (tableYaml documents)
       blankPath (js "path")).1 = Some blankSkill.
Proof.
  destruct (@description_gate posix blankFs (tableYaml documents)
              blankPath (js "path") blankFile)
    as ([_ Hskills] & Hgate & [_ Hindex] & _); [by vm_compute|].
  split_and!.
  - apply Hskills. by vm_compute.
  - apply Hgate, Hskills. by vm_compute.
  - apply Hindex. by vm_compute.
  - by vm_compute.
Defined.

(** X13 on the first of the linked files. *)
Lemma parsers_agree_witness :
  (@Index.loadSkillFromFile posix linkedFs (tableYaml documents)
     first (js "path")).1 = Some firstSkill
  ∧ described firstSkill
  ∧ Skill.filePath firstSkill = first.
Proof.
  apply (@parsers_agree posix linkedFs (tableYaml documents) first (js "path")
           firstSkill).
  by vm_compute.
Defined.

(** X14 on the tree fixture: the rule the walk started with is still
    the first, and the rule of [bar/.gitignore] follows it. *)
Lemma walk_matcher_grows_witness :
  ∃ w, treeWalkFrom [js "tmp"] = Some w
       ∧ [js "tmp"] `prefix_of` Walk.ig w
       ∧ Walk.ig w = [js "tmp"; js "bar/foo"].
Proof.
  eexists. split; [by vm_compute|]. split; [|by vm_compute].
  apply (@walk_matcher_grows posix treeFs (tableYaml documents) literalMatcher
           3 (js "/w") (js "path") true (Some [js "tmp"]) None).
  left. by vm_compute.
Defined.

(** X15 on a directory whose two files draw one warning each. *)
Lemma walk_reports_files_only_witness :
  ∃ w, warnWalk = Some w
       ∧ Diagnostic.message <$> Walk.diagnostics w
         = [js "description is required";
            js "name contains invalid characters (must be lowercase a-z, 0-9, hyphens only)"]
       ∧ Forall (fun d => ∃ p message,
                   @candidatePath posix (js "/v") true p
                   ∧ Parsed p ∈ Walk.trace w
                   ∧ d ∈ (@Skills.loadSkillFromFile posix warnFs
                            (tableYaml documents) p (js "path")).2
                   ∧ d = warn message p)
           (Walk.diagnostics w).
Proof.
  eexists. split; [by vm_compute|]. split; [by vm_compute|].
  apply (@walk_reports_files_only posix warnFs (tableYaml documents)
           literalMatcher 3 (js "/v") (js "path") true None None).
  by vm_compute.
Defined.

(** X16 on the tree fixture, which yields three skills. *)
Lemma walk_skills_origin_witness :
  ∃ w, treeWalk = Some w
       ∧ Skill.filePath <$> Walk.skills w
         = [js "/w/a.md"; js "/w/bar/ok/SKILL.md"; js "/w/foo/SKILL.md"]
       ∧ Forall (fun skill =>
                   @candidatePath posix (js "/w") true (Skill.filePath skill)
                   ∧ Parsed (Skill.filePath skill) ∈ Walk.trace w
                   ∧ (@Skills.loadSkillFromFile posix treeFs
                        (tableYaml documents) (Skill.filePath skill)
                        (js "path")).1 = Some skill
                   ∧ @filledIn posix (js "path") skill)
           (Walk.skills w).
Proof.
  eexists. split; [by vm_compute|]. split; [by vm_compute|].
  apply (@walk_skills_origin posix treeFs (tableYaml documents)
           literalMatcher 3 (js "/w") (js "path") true None None).
  by vm_compute.
Defined.

(** X18 on the second of two files of one name: it is the loser of a
    collision. *)
Lemma addSkills_accounts_witness :
  @identity linkedFs secondSkill
    ∈ realPathSet
        (@addSkills linkedFs
           {| skills := [secondSkill]; diagnostics := [] |} afterFirst)
  ∨ ∃ existing,
      collisionDiagnostic existing secondSkill
        ∈ collisionDiagnostics
            (@addSkills linkedFs
               {| skills := [secondSkill]; diagnostics := [] |} afterFirst).
Proof.
  apply (@addSkills_accounts linkedFs
           {| skills := [secondSkill]; diagnostics := [] |} afterFirst
           secondSkill).
  simpl. by left.
Defined.

(** X20 to X22 on two files of one name and a path that does not
    exist: one skill, and the warning before the collision. *)
Lemma loadSkills_skill_fields_witness :
  ∃ result,
    linkedRun [first; second; js "/missing"] = Value result
    ∧ length (skills result) = 1%nat
    ∧ Forall (@filledIn posix (js "path")) (skills result).
Proof.
  eexists. split; [by vm_compute|]. split; [by vm_compute|].
  apply (@loadSkills_skill_fields posix linkedFs (processAt (js "/"))
           (tableYaml documents) literalMatcher 2
           (given [first; second; js "/missing"])).
  left. by vm_compute.
Defined.

Lemma loadSkills_diagnostics_order_witness :
  ∃ result,
    linkedRun [first; second; js "/missing"] = Value result
    ∧ Diagnostic.type <$> diagnostics result
      = [DiagnosticType.warning; DiagnosticType.collision]
    ∧ ∃ warnings collisions,
        diagnostics result = warnings ++ collisions
        ∧ Forall isWarning warnings ∧ Forall isCollision collisions.
Proof.
  eexists. split; [by vm_compute|]. split; [by vm_compute|].
  apply (@loadSkills_diagnostics_order posix linkedFs (processAt (js "/"))
           (tableYaml documents) literalMatcher 2
           (given [first; second; js "/missing"])).
  left. by vm_compute.
Defined.

Lemma collision_winner_returned_witness :
  ∃ result,
    linkedRun [first; second; js "/missing"] = Value result
    ∧ Forall (fun d =>
                ∀ c, Diagnostic.collision d = Some c →
                     Collision.winnerPath c ≠ Collision.loserPath c
                     ∧ ∃ winner,
                         winner ∈ skills result
                         ∧ Skill.name winner = Collision.name c
                         ∧ Skill.filePath winner = Collision.winnerPath c)
        (diagnostics result).
Proof.
  eexists. split; [by vm_compute|].
  apply (@collision_winner_returned posix linkedFs (processAt (js "/"))
           (tableYaml documents) literalMatcher 2
           (given [first; second; js "/missing"])).
  left. by vm_compute.
Defined.


(** X24 on the two files of one name: the first path alone, then both. *)
Lemma earlier_paths_win_witness :
  ∃ result result',
    linkedRun [first] = Value result
    ∧ linkedRun [first; second] = Value result'
    ∧ skills result `prefix_of` skills result'
    ∧ Forall (fun d => d ∈ diagnostics result') (diagnostics result).
Proof.
  do 2 eexists. split; [by vm_compute|]. split; [by vm_compute|].
  apply (@earlier_paths_win posix linkedFs (processAt (js "/"))
           (tableYaml documents) literalMatcher 2 None [first] [second]).
  left. split; by vm_compute.
Defined.

(** X25 on the same files: the first path once more at the end. *)
Lemma repeated_path_witness :
  ∃ result result',
    linkedRun [first; second] = Value result
    ∧ linkedRun [first; second; first] = Value result'
    ∧ skills result' = skills result.
Proof.
  destruct (@repeated_path posix linkedFs (processAt (js "/"))
              (tableYaml documents) literalMatcher 2 None [first; second] first)
    as [Hskills _]; [by left|].
  eexists. destruct (Hskills _ ltac:(by vm_compute)) as (result' & Hrun & Heq).
  exists result'. split; [reflexivity|]. split; [exact Hrun|exact Heq].
Defined.

(** X26 on the tree fixture. *)
Lemma Skills_loadSkills_total_witness :
  ∃ fuel result,
    (∀ extra,
       @Skills.loadSkills posix treeFs (processAt (js "/")) (tableYaml documents)
         literalMatcher (fuel + extra) (withPaths (Some (js "/")) [js "/w"])
       = Value result)
    ∧ (∀ less,
         @Skills.loadSkills posix treeFs (processAt (js "/"))
           (tableYaml documents) literalMatcher less
           (withPaths (Some (js "/")) [js "/w"])
         = Value result
         ∨ @Skills.loadSkills posix treeFs (processAt (js "/"))
             (tableYaml documents) literalMatcher less
             (withPaths (Some (js "/")) [js "/w"])
           = OutOfFuel).
Proof.
  apply (@Skills_loadSkills_total posix treeFs (processAt (js "/"))
           (tableYaml documents) literalMatcher
           (withPaths (Some (js "/")) [js "/w"]) (js "/"));
    [reflexivity|reflexivity|].
  intros rawPath ->%list_elem_of_singleton. apply tree_finite.
Defined.

(** X27 on the two files of one name, from two working directories. *)
Lemma cwd_only_for_relative_witness :
  (@Skills.loadSkills posix linkedFs (processAt (js "/")) (tableYaml documents)
     literalMatcher 2 (withPaths (Some (js "/elsewhere")) [first; second])
   = @Skills.loadSkills posix linkedFs (processAt (js "/"))
       (tableYaml documents) literalMatcher 2
       (withPaths (Some (js "/s1")) [first; second]))
  ∧ (@Index.loadSkills posix linkedFs (processAt (js "/")) (tableYaml documents)
       literalMatcher 2 (withPaths (Some (js "/elsewhere")) [first; second])
     = @Index.loadSkills posix linkedFs (processAt (js "/"))
         (tableYaml documents) literalMatcher 2
         (withPaths (Some (js "/s1")) [first; second])).
Proof.
  apply (@cwd_only_for_relative posix linkedFs (processAt (js "/"))
           (tableYaml documents) literalMatcher 2 (js "/elsewhere") (js "/s1")
           [first; second]).
  by repeat constructor.
Defined.

(** X28 on a path that is gone when [statSync] runs, given after a path
    that loads. *)
Lemma Index_raises_only_stat_witness :
  @Index.loadSkills posix goneFs (processAt (js "/")) (tableYaml documents)
    literalMatcher 2 (withPaths (Some (js "/")) [first; gonePath])
  = Raised (js "ENOENT: no such file or directory, stat")
  ∧ ∃ rawPath,
      rawPath ∈ [first; gonePath]
      ∧ @existsSync goneFs rawPath = true
      ∧ @statSync goneFs rawPath
        = Throws (js "ENOENT: no such file or directory, stat").
Proof.
  split; [by vm_compute|].
  destruct (@Index_raises_only_stat posix goneFs (processAt (js "/"))
              (tableYaml documents) literalMatcher 2
              (withPaths (Some (js "/")) [first; gonePath]) (js "/")
              (js "ENOENT: no such file or directory, stat"))
    as (rawPath & Hin & Hexists & Hstat);
    [reflexivity|reflexivity| |by vm_compute|].
  { repeat constructor; intros stats Hstat; vm_compute in Hstat;
      [by injection Hstat as <-|discriminate Hstat]. }
  exists rawPath. split; [exact Hin|].
  simpl in Hin.
  repeat (apply elem_of_cons in Hin as [->|Hin]);
    [by vm_compute| |by apply elem_of_nil in Hin].
  split; [exact Hexists|exact Hstat].
Defined.

(** C1 on the files named [x].  Given alone, the first file is kept.
    Given after it, the second file, of the same name, changes nothing
    about the skills and adds one collision diagnostic, in both loaders:
    the winner is the first file, the loser the second.  With the link
    given as well the names of the result are still distinct; the second
    file and the link handed to [addSkills] together after the first
    leave the first as the one skill and give one collision each; and
    the step that meets the second file leaves the map as it was. *)
Lemma loadSkills_distinct_names_witness :
  linkedRun [first] = Value {| skills := [firstSkill]; diagnostics := [] |}
  ∧ linkedRun [first; second]
    = Value {| skills := [firstSkill];
               diagnostics := [collisionDiagnostic firstSkill secondSkill] |}
  ∧ linkedRunIndex [first; second]
    = Value {| skills := [firstSkill];
               diagnostics := [collisionDiagnostic firstSkill secondSkill] |}
  ∧ (∃ result,
       linkedRun [first; second; link] = Value result
       ∧ NoDup (map Skill.name (skills result)))
  ∧ (JsMap.values
       (skillMap
          (@addSkills linkedFs
             {| skills := [secondSkill; linkSkill]; diagnostics := [] |}
             afterFirst)),
     collisionDiagnostics
       (@addSkills linkedFs
          {| skills := [secondSkill; linkSkill]; diagnostics := [] |}
          afterFirst))
    = ([firstSkill],
       [collisionDiagnostic firstSkill secondSkill;
        collisionDiagnostic firstSkill linkSkill])
  ∧ skillMap (@addSkill linkedFs afterFirst secondSkill) = skillMap afterFirst.
Proof.
  pose proof (@loadSkills_distinct_names posix linkedFs (processAt (js "/"))
                (tableYaml documents) literalMatcher)
    as (Hrun & Hskills & Hindex & Hlists & Hstep).
  split_and!.
  - destruct (Hskills 2%nat None [] first firstSkill []
                {| skills := []; diagnostics := [] |}) as [_ Hkeep];
      [by vm_compute|split; [by vm_compute|]; exists aFile; by vm_compute|by vm_compute
      |apply (bool_decide_unpack _); by vm_compute|].
    apply Hkeep. apply (bool_decide_unpack _). by vm_compute.
  - destruct (Hskills 2%nat None [first] second secondSkill []
                {| skills := [firstSkill]; diagnostics := [] |}) as [Hwin _];
      [by vm_compute|split; [by vm_compute|]; exists aFile; by vm_compute|by vm_compute
      |apply (bool_decide_unpack _); by vm_compute|].
    apply (Hwin firstSkill); [by left|done].
  - destruct (Hindex 2%nat None [first] second secondSkill []
                {| skills := [firstSkill]; diagnostics := [] |}) as [Hwin _];
      [by vm_compute|split; [by vm_compute|]; exists aFile; by vm_compute|by vm_compute
      |apply (bool_decide_unpack _); by vm_compute|].
    apply (Hwin firstSkill); [by left|done].
  - eexists. split; [by vm_compute|].
    apply (Hrun 2%nat (given [first; second; link])). left. by vm_compute.
  - rewrite (Hlists afterFirst
               {| skills := [secondSkill; linkSkill]; diagnostics := [] |});
      [by vm_compute|].
    apply wellFormed_addSkill, wellFormed_initial.
  - apply (Hstep afterFirst secondSkill firstSkill).
    + apply (bool_decide_unpack _). by vm_compute.
    + by vm_compute.
Defined.
End MoreScenarios.
